(** * The breadth-first NFA interpreter of V8's experimental regexp engine

    Shallow embedding of [NfaInterpreter]
    (src/regexp/experimental/experimental-interpreter.cc) and proofs about it.

    Conventions of the embedding.
    - [int], [int32_t] and [uc16] values are integers of [Z].  Every index the
      interpreter computes stays between [-1] and the length of the bytecode
      or of the input, both of which fit an [int], so no arithmetic of the
      class leaves the range of its type.
    - [Vector] and [base::SmallVector] are lists in index order: index [0] is
      the head, [emplace_back] appends at the end, [back] is the last element.
    - An access outside a vector (undefined behaviour in C++) makes the
      embedded function return [None]; so does running out of [gas], the
      bound every loop of the embedding is given.  [DCHECK]s are debug-only
      and are not part of the embedding.
    - The two fields that never change, [bytecode_] and [input_], are section
      variables; the other five form the record [NfaInterpreter].

    The file has the embedding first, then the notions the statements are
    about (valid bytecode, processed program counters, the moments of a
    search, a backtracking VM as the reference), then the proofs: the loops
    return, where matches lie, how large the thread lists get, the stack
    discipline of [active_threads_], and the agreement of a search with the
    backtracking VM; then, about the program as an automaton, that a search
    returns a leftmost match whenever there is a match, what the [DCHECK]s
    ask for, how calls compose, and the linear bound on the work of a
    search. *)

From Stdlib Require Import ZArith List Lia Bool.
From stdpp Require Import base option list sorting.

Open Scope Z_scope.

(** ** Data model *)

(** [RegExpInstruction]: the opcode with its payload. *)
Inductive RegExpInstruction : Type :=
| CONSUME_RANGE (min max : Z)
| FORK (target : Z)
| JMP (target : Z)
| ACCEPT.

(** [ExperimentalRegExpInterpreter::MatchRange]. *)
Record MatchRange : Type := { begin : Z; end_ : Z }.

(** [NfaInterpreter::InterpreterThread]. *)
Record InterpreterThread : Type := { pc : Z; match_begin : Z }.

(** The mutable fields of [NfaInterpreter]. *)
Record NfaInterpreter : Type := {
  input_index_ : Z;
  pc_last_input_index_ : list Z;
  active_threads_ : list InterpreterThread;
  blocked_threads_ : list InterpreterThread;
  best_match_ : option MatchRange
}.

Definition set_input_index (i : Z) (st : NfaInterpreter) : NfaInterpreter :=
  {| input_index_ := i;
     pc_last_input_index_ := pc_last_input_index_ st;
     active_threads_ := active_threads_ st;
     blocked_threads_ := blocked_threads_ st;
     best_match_ := best_match_ st |}.

Definition set_pc_last_input_index (v : list Z) (st : NfaInterpreter) : NfaInterpreter :=
  {| input_index_ := input_index_ st;
     pc_last_input_index_ := v;
     active_threads_ := active_threads_ st;
     blocked_threads_ := blocked_threads_ st;
     best_match_ := best_match_ st |}.

Definition set_active_threads (a : list InterpreterThread) (st : NfaInterpreter) : NfaInterpreter :=
  {| input_index_ := input_index_ st;
     pc_last_input_index_ := pc_last_input_index_ st;
     active_threads_ := a;
     blocked_threads_ := blocked_threads_ st;
     best_match_ := best_match_ st |}.

Definition set_blocked_threads (b : list InterpreterThread) (st : NfaInterpreter) : NfaInterpreter :=
  {| input_index_ := input_index_ st;
     pc_last_input_index_ := pc_last_input_index_ st;
     active_threads_ := active_threads_ st;
     blocked_threads_ := b;
     best_match_ := best_match_ st |}.

Definition set_best_match (m : option MatchRange) (st : NfaInterpreter) : NfaInterpreter :=
  {| input_index_ := input_index_ st;
     pc_last_input_index_ := pc_last_input_index_ st;
     active_threads_ := active_threads_ st;
     blocked_threads_ := blocked_threads_ st;
     best_match_ := m |}.

(** ** Vectors *)

(** [v[i]] for an [int] index. *)
Definition vec_at {A : Type} (v : list A) (i : Z) : option A :=
  if i <? 0 then None else v !! Z.to_nat i.

(** [v[i] = x]. *)
Definition vec_store {A : Type} (v : list A) (i : Z) (x : A) : option (list A) :=
  if (0 <=? i) && (i <? Z.of_nat (length v)) then Some (<[Z.to_nat i := x]> v)
  else None.

(** [v.back()] together with [v.pop_back()]: the rest and the last element. *)
Definition pop_back {A : Type} (v : list A) : option (list A * A) :=
  match rev v with
  | [] => None
  | x :: r => Some (rev r, x)
  end.

Definition is_nil {A : Type} (v : list A) : bool :=
  match v with [] => true | _ => false end.

Definition has_value {A : Type} (o : option A) : bool :=
  match o with Some _ => true | None => false end.

(** Result of one iteration of a loop whose body may [return]. *)
Inductive Iter (A B : Type) : Type :=
| Continue (a : A)
| Return (b : B).
Arguments Continue {A B} a.
Arguments Return {A B} b.

Notation "x <- e ;; k" :=
  (match e with Some x => k | None => None end)
  (at level 100, e at next level, right associativity, only parsing).

(** ** The interpreter *)

Section Interpreter.

Variable bytecode_ : list RegExpInstruction.
Variable input_ : list Z.

(** Bound on the number of iterations of each loop. *)
Variable gas : nat.

(** The constructor: [pc_last_input_index_] has one entry per instruction,
    all [-1]; the thread lists are empty and there is no best match. *)
Definition NfaInterpreter_new (input_index : Z) : NfaInterpreter :=
  {| input_index_ := input_index;
     pc_last_input_index_ := replicate (length bytecode_) (-1);
     active_threads_ := [];
     blocked_threads_ := [];
     best_match_ := None |}.

Definition SetInputIndex (new_input_index : Z) (st : NfaInterpreter) : NfaInterpreter :=
  set_input_index new_input_index st.

Definition IsPcProcessed (p : Z) (st : NfaInterpreter) : option bool :=
  last <- vec_at (pc_last_input_index_ st) p ;;
  Some (last =? input_index_ st).

Definition MarkPcProcessed (p : Z) (st : NfaInterpreter) : option NfaInterpreter :=
  v <- vec_store (pc_last_input_index_ st) p (input_index_ st) ;;
  Some (set_pc_last_input_index v st).

(** One iteration of the [while (true)] of [RunActiveThread]. *)
Definition RunActiveThread_body (t : InterpreterThread) (st : NfaInterpreter)
  : option (Iter (InterpreterThread * NfaInterpreter) NfaInterpreter) :=
  processed <- IsPcProcessed (pc t) st ;;
  if processed : bool then Some (Return st) else
  st <- MarkPcProcessed (pc t) st ;;
  inst <- vec_at bytecode_ (pc t) ;;
  match inst with
  | CONSUME_RANGE _ _ =>
      Some (Return (set_blocked_threads (blocked_threads_ st ++ [t]) st))
  | FORK target =>
      let fork := {| pc := target; match_begin := match_begin t |} in
      let st := set_active_threads (active_threads_ st ++ [fork]) st in
      Some (Continue ({| pc := pc t + 1; match_begin := match_begin t |}, st))
  | JMP target =>
      Some (Continue ({| pc := target; match_begin := match_begin t |}, st))
  | ACCEPT =>
      let st := set_best_match
                  (Some {| begin := match_begin t; end_ := input_index_ st |}) st in
      Some (Return (set_active_threads [] st))
  end.

Fixpoint RunActiveThread_loop (n : nat) (t : InterpreterThread) (st : NfaInterpreter)
  : option NfaInterpreter :=
  match n with
  | O => None
  | S n =>
      r <- RunActiveThread_body t st ;;
      match r with
      | Return st => Some st
      | Continue (t, st) => RunActiveThread_loop n t st
      end
  end.

Definition RunActiveThread (t : InterpreterThread) (st : NfaInterpreter)
  : option NfaInterpreter :=
  RunActiveThread_loop gas t st.

Fixpoint RunActiveThreads_loop (n : nat) (st : NfaInterpreter) : option NfaInterpreter :=
  match n with
  | O => None
  | S n =>
      match pop_back (active_threads_ st) with
      | None => Some st
      | Some (rest, t) =>
          st <- RunActiveThread t (set_active_threads rest st) ;;
          RunActiveThreads_loop n st
      end
  end.

Definition RunActiveThreads (st : NfaInterpreter) : option NfaInterpreter :=
  RunActiveThreads_loop gas st.

(** One iteration of the [for] of [FlushBlockedThreads], at [i > 0].  The
    source reads the payload of the instruction as a range whatever the
    opcode, and excludes other opcodes by a [DCHECK] only; here a thread that
    is not at a [CONSUME_RANGE] is a fault. *)
Definition FlushBlockedThreads_body (i : nat) (input_char : Z) (st : NfaInterpreter)
  : option NfaInterpreter :=
  t <- blocked_threads_ st !! (i - 1)%nat ;;
  inst <- vec_at bytecode_ (pc t) ;;
  match inst with
  | CONSUME_RANGE min max =>
      if (min <=? input_char) && (input_char <=? max) then
        let t := {| pc := pc t + 1; match_begin := match_begin t |} in
        Some (set_active_threads (active_threads_ st ++ [t]) st)
      else Some st
  | _ => None
  end.

Fixpoint FlushBlockedThreads_loop (i : nat) (input_char : Z) (st : NfaInterpreter)
  : option NfaInterpreter :=
  match i with
  | O => Some st
  | S i' =>
      st <- FlushBlockedThreads_body i input_char st ;;
      FlushBlockedThreads_loop i' input_char st
  end.

Definition FlushBlockedThreads (input_char : Z) (st : NfaInterpreter)
  : option NfaInterpreter :=
  st <- FlushBlockedThreads_loop (length (blocked_threads_ st)) input_char st ;;
  Some (set_blocked_threads [] st).

(** The condition of the [while] of [FindNextMatch]. *)
Definition FindNextMatch_cond (st : NfaInterpreter) : bool :=
  negb (input_index_ st =? Z.of_nat (length input_))
  && negb (has_value (best_match_ st) && is_nil (blocked_threads_ st)).

(** Its body. *)
Definition FindNextMatch_body (st : NfaInterpreter) : option NfaInterpreter :=
  input_char <- vec_at input_ (input_index_ st) ;;
  let st := set_input_index (input_index_ st + 1) st in
  let st :=
    if has_value (best_match_ st) then st
    else set_active_threads
           (active_threads_ st ++ [{| pc := 0; match_begin := input_index_ st |}]) st in
  st <- FlushBlockedThreads input_char st ;;
  RunActiveThreads st.

Fixpoint FindNextMatch_loop (n : nat) (st : NfaInterpreter) : option NfaInterpreter :=
  match n with
  | O => None
  | S n =>
      if FindNextMatch_cond st then
        st <- FindNextMatch_body st ;;
        FindNextMatch_loop n st
      else Some st
  end.

(** The state in which the [while] of [FindNextMatch] is entered. *)
Definition FindNextMatch_init (st : NfaInterpreter) : option NfaInterpreter :=
  let st := set_pc_last_input_index
              (replicate (length (pc_last_input_index_ st)) (-1)) st in
  let st := set_active_threads
              (active_threads_ st ++ [{| pc := 0; match_begin := input_index_ st |}]) st in
  RunActiveThreads st.

Definition FindNextMatch (st : NfaInterpreter)
  : option (option MatchRange * NfaInterpreter) :=
  st <- FindNextMatch_init st ;;
  st <- FindNextMatch_loop gas st ;;
  let result := best_match_ st in
  let st := set_best_match None st in
  let st := set_blocked_threads [] st in
  let st := set_active_threads [] st in
  Some (result, st).

(** The [for] of [FindMatches]; [matches_out] is the caller's buffer. *)
Fixpoint FindMatches_loop (n : nat) (match_num max_match_num : Z)
    (matches_out : list MatchRange) (st : NfaInterpreter)
  : option (Z * list MatchRange * NfaInterpreter) :=
  match n with
  | O => None
  | S n =>
      if match_num =? max_match_num then Some (match_num, matches_out, st) else
      r <- FindNextMatch st ;;
      match r with
      | (None, st) => Some (match_num, matches_out, st)
      | (Some m, st) =>
          matches_out <- vec_store matches_out match_num m ;;
          FindMatches_loop n (match_num + 1) max_match_num matches_out
            (SetInputIndex (end_ m) st)
      end
  end.

Definition FindMatches (matches_out : list MatchRange) (max_match_num : Z)
    (st : NfaInterpreter) : option (Z * list MatchRange * NfaInterpreter) :=
  FindMatches_loop gas 0 max_match_num matches_out st.

(** [FindMatchesNfaOneByte] and [FindMatchesNfaTwoByte]: the same code at
    the two character widths; the result is the number of matches and the
    buffer. *)
Definition FindMatchesNfa (start_index : Z) (matches_out : list MatchRange)
    (max_match_num : Z) : option (Z * list MatchRange) :=
  r <- FindMatches matches_out max_match_num (NfaInterpreter_new start_index) ;;
  Some (fst r).

End Interpreter.

(** The two entry points of [ExperimentalRegExpInterpreter] instantiate the
    class at [uint8_t] and at [uc16]; a code unit of either width is read into
    a [uc16] before it is compared, so they are the same function of the list
    of code units. *)
Definition FindMatchesNfaOneByte := FindMatchesNfa.
Definition FindMatchesNfaTwoByte := FindMatchesNfa.

(** ** Well-formed bytecode *)

(** What the interpreter requires of the instruction at index [p] of a program
    of [size] instructions: jump targets are indices of the program, and so is
    the fall-through successor of an instruction that has one, since a
    thread's [pc] always has to be an index of the program. *)
Definition valid_instruction (size p : Z) (inst : RegExpInstruction) : bool :=
  match inst with
  | CONSUME_RANGE min max => (min <=? max) && (p + 1 <? size)
  | FORK target => (0 <=? target) && (target <? size) && (p + 1 <? size)
  | JMP target => (0 <=? target) && (target <? size)
  | ACCEPT => true
  end.

Fixpoint valid_from (size p : Z) (code : list RegExpInstruction) : bool :=
  match code with
  | [] => true
  | inst :: code => valid_instruction size p inst && valid_from size (p + 1) code
  end.

(** A valid program is not empty and all its instructions are valid. *)
Definition valid_program (bytecode : list RegExpInstruction) : Prop :=
  negb (is_nil bytecode) && valid_from (Z.of_nat (length bytecode)) 0 bytecode = true.

(** ** The first end-to-end scenario

    [FORK 6; CONSUME 'a'..'a'; CONSUME 'b'..'b'; CONSUME 'c'..'c'; ACCEPT;
     JMP end; FORK 10; CONSUME .; CONSUME .; ACCEPT; FORK end;
     CONSUME 'a'..'c'; JMP 10], where [CONSUME .] takes every code unit.  The
    listing does not say where its label [end] is, so the label is a
    parameter; index [13], just behind the listing, holds an [ACCEPT] for the
    case that [end] is meant to be the end of the program. *)
Definition scenario1_program (end_label : Z) : list RegExpInstruction :=
  [FORK 6; CONSUME_RANGE 97 97; CONSUME_RANGE 98 98; CONSUME_RANGE 99 99; ACCEPT;
   JMP end_label; FORK 10; CONSUME_RANGE 0 65535; CONSUME_RANGE 0 65535; ACCEPT;
   FORK end_label; CONSUME_RANGE 97 99; JMP 10; ACCEPT].

(** ["abcccccccccccccc"]. *)
Definition scenario1_input : list Z := [97; 98] ++ replicate 14 99.

(** ** Processed program counters and well-formed states *)

(** [pc_last_input_index_[p] == input_index_]: a thread was run at [p] since
    the last increment of [input_index_]. *)
Definition processed (st : NfaInterpreter) (p : Z) : Prop :=
  vec_at (pc_last_input_index_ st) p = Some (input_index_ st).

(** The state after [MarkPcProcessed(p)]. *)
Definition mark (p : Z) (st : NfaInterpreter) : NfaInterpreter :=
  set_pc_last_input_index
    (<[Z.to_nat p := input_index_ st]> (pc_last_input_index_ st)) st.

(** Number of indices whose instruction satisfies [f] and whose entry of
    [last] differs from [i]. *)
Fixpoint count_pcs (f : RegExpInstruction -> bool) (i : Z)
    (code : list RegExpInstruction) (last : list Z) : nat :=
  match code, last with
  | inst :: code, x :: last =>
      let n := count_pcs f i code last in
      if f inst && negb (x =? i) then S n else n
  | _, _ => O
  end.

Definition is_fork (inst : RegExpInstruction) : bool :=
  match inst with FORK _ => true | _ => false end.

Definition is_consume (inst : RegExpInstruction) : bool :=
  match inst with CONSUME_RANGE _ _ => true | _ => false end.

Definition with_pc (p : Z) (t : InterpreterThread) : InterpreterThread :=
  {| pc := p; match_begin := match_begin t |}.

Section Invariants.

Variable bytecode_ : list RegExpInstruction.
Variable input_ : list Z.

(** Program counters not yet processed at the current input index. *)
Definition unprocessed (st : NfaInterpreter) : nat :=
  count_pcs (fun _ => true) (input_index_ st) bytecode_ (pc_last_input_index_ st).

Definition wf_thread (t : InterpreterThread) : Prop :=
  0 <= pc t < Z.of_nat (length bytecode_).

(** A blocked thread is parked on a [CONSUME_RANGE]. *)
Definition parked (t : InterpreterThread) : Prop :=
  exists min max, vec_at bytecode_ (pc t) = Some (CONSUME_RANGE min max).

(** Well-formed states; [cur] is the thread [RunActiveThread] is working on,
    if any. *)
Record wf_state (cur : option InterpreterThread) (st : NfaInterpreter) : Prop := {
  wf_last : length (pc_last_input_index_ st) = length bytecode_;
  wf_index : 0 <= input_index_ st <= Z.of_nat (length input_);
  wf_cur : forall t, cur = Some t -> wf_thread t;
  wf_active : Forall wf_thread (active_threads_ st);
  wf_blocked : Forall parked (blocked_threads_ st);
  wf_count : (length (blocked_threads_ st) + unprocessed st <= length bytecode_)%nat
}.

(** Whether the [CONSUME_RANGE] a thread is parked on takes [input_char]. *)
Definition takes (input_char : Z) (t : InterpreterThread) : bool :=
  match vec_at bytecode_ (pc t) with
  | Some (CONSUME_RANGE min max) => (min <=? input_char) && (input_char <=? max)
  | _ => false
  end.

(** The threads of [ts] that take [input_char], each moved to the next
    instruction. *)
Definition unblocked (input_char : Z) (ts : list InterpreterThread)
  : list InterpreterThread :=
  map (fun t => with_pc (pc t + 1) t) (List.filter (takes input_char) ts).

(** Gas that suffices for every loop of a call of [FindMatches]. *)
Definition enough_gas (max_match_num : Z) (gas : nat) : Prop :=
  (3 * length bytecode_ + length input_ + Z.to_nat max_match_num + 2 <= gas)%nat.

(** The state in which [FindNextMatch] expects the interpreter: the two
    thread lists are empty and there is no best match. *)
Record ready (st : NfaInterpreter) : Prop := {
  ready_last : length (pc_last_input_index_ st) = length bytecode_;
  ready_index : 0 <= input_index_ st <= Z.of_nat (length input_);
  ready_active : active_threads_ st = [];
  ready_blocked : blocked_threads_ st = [];
  ready_best : best_match_ st = None
}.

(** The state [FindNextMatch] runs its first [RunActiveThreads] on. *)
Definition seeded (st : NfaInterpreter) : NfaInterpreter :=
  set_active_threads
    (active_threads_ st ++ [{| pc := 0; match_begin := input_index_ st |}])
    (set_pc_last_input_index (replicate (length (pc_last_input_index_ st)) (-1)) st).

(** The state after the first half of an iteration of the [while] of
    [FindNextMatch] on [input_char]: the index is incremented, a fresh thread
    is added unless there is a match, and the blocked threads are flushed. *)
Definition fed (input_char : Z) (st : NfaInterpreter) : NfaInterpreter :=
  let fresh :=
    if has_value (best_match_ st) then []
    else [{| pc := 0; match_begin := input_index_ st + 1 |}] in
  set_blocked_threads []
    (set_active_threads
       ((active_threads_ st ++ fresh)
        ++ unblocked input_char (rev (blocked_threads_ st)))
       (set_input_index (input_index_ st + 1) st)).

(** The state [FindNextMatch] leaves behind. *)
Definition cleaned (st : NfaInterpreter) : NfaInterpreter :=
  set_active_threads [] (set_blocked_threads [] (set_best_match None st)).

(** Where the threads and the best match of a search begun at index [start]
    lie. *)
Record in_search (start : Z) (cur : option InterpreterThread) (st : NfaInterpreter)
  : Prop := {
  search_index : start <= input_index_ st;
  search_cur : forall t, cur = Some t -> start <= match_begin t <= input_index_ st;
  search_active :
    Forall (fun t => start <= match_begin t <= input_index_ st) (active_threads_ st);
  search_blocked :
    Forall (fun t => start <= match_begin t <= input_index_ st) (blocked_threads_ st);
  search_best :
    forall m, best_match_ st = Some m ->
              start <= begin m /\ begin m <= end_ m /\ end_ m <= input_index_ st
}.

(** The state one iteration of [RunActiveThread] ends in. *)
Definition state_after (r : Iter (InterpreterThread * NfaInterpreter) NfaInterpreter)
  : NfaInterpreter :=
  match r with
  | Continue (_, st) => st
  | Return st => st
  end.

(** The state after the first two steps of an iteration of the [while] of
    [FindNextMatch]: the index is incremented and, unless there is a match, a
    fresh thread is added. *)
Definition advanced (st : NfaInterpreter) : NfaInterpreter :=
  let st := set_input_index (input_index_ st + 1) st in
  if has_value (best_match_ st) then st
  else set_active_threads
         (active_threads_ st ++ [{| pc := 0; match_begin := input_index_ st |}]) st.

(** What one iteration of [RunActiveThread] does, case by case. *)
Inductive RunActiveThread_case (t : InterpreterThread) (st : NfaInterpreter)
  : Iter (InterpreterThread * NfaInterpreter) NfaInterpreter -> Prop :=
| case_processed :
    processed st (pc t) ->
    RunActiveThread_case t st (Return st)
| case_consume min max :
    ~ processed st (pc t) ->
    wf_thread t ->
    vec_at bytecode_ (pc t) = Some (CONSUME_RANGE min max) ->
    RunActiveThread_case t st
      (Return (set_blocked_threads (blocked_threads_ st ++ [t]) (mark (pc t) st)))
| case_fork target :
    ~ processed st (pc t) ->
    wf_thread t ->
    vec_at bytecode_ (pc t) = Some (FORK target) ->
    RunActiveThread_case t st
      (Continue (with_pc (pc t + 1) t,
                 set_active_threads (active_threads_ st ++ [with_pc target t])
                   (mark (pc t) st)))
| case_jmp target :
    ~ processed st (pc t) ->
    wf_thread t ->
    vec_at bytecode_ (pc t) = Some (JMP target) ->
    RunActiveThread_case t st (Continue (with_pc target t, mark (pc t) st))
| case_accept :
    ~ processed st (pc t) ->
    wf_thread t ->
    vec_at bytecode_ (pc t) = Some ACCEPT ->
    RunActiveThread_case t st
      (Return (set_active_threads []
                 (set_best_match
                    (Some {| begin := match_begin t; end_ := input_index_ st |})
                    (mark (pc t) st)))).

End Invariants.

Arguments unprocessed : simpl never.

(** Matches found one after the other from [cursor] on: each is the result
    of a search begun where the one before it ended. *)
Fixpoint successive (bytecode_ : list RegExpInstruction) (input_ : list Z) (gas : nat)
    (cursor : Z) (ms : list MatchRange) : Prop :=
  match ms with
  | [] => True
  | m :: ms =>
      (exists st st',
          ready bytecode_ input_ st /\ input_index_ st = cursor /\
          FindNextMatch bytecode_ input_ gas st = Some (Some m, st')) /\
      cursor <= begin m /\ begin m <= end_ m /\ end_ m <= Z.of_nat (length input_) /\
      successive bytecode_ input_ gas (end_ m) ms
  end.

(** The index at which the search for the [i]-th match starts. *)
Definition cursor_at (start : Z) (ms : list MatchRange) (i : nat) : Z :=
  match i with
  | O => start
  | S j => from_option end_ start (ms !! j)
  end.

(** ** The moments of a search

    Where the interpreter can be during [FindNextMatch]: at the test of the
    [while] of [RunActiveThreads]; at the top of the [while (true)] of
    [RunActiveThread], working on the thread [t]; or at the test of the [for]
    of [FlushBlockedThreads], with [i] threads still to visit. *)
Inductive Place : Type :=
| AtRunActiveThreads
| InRunActiveThread (t : InterpreterThread)
| InFlushBlockedThreads (i : nat) (input_char : Z).

(** [moment st0 place st]: a search entered in state [st0] gets to [place]
    with the fields of the interpreter as in [st]. *)
Inductive moment (bytecode_ : list RegExpInstruction) (input_ : list Z)
    (st0 : NfaInterpreter) : Place -> NfaInterpreter -> Prop :=
| moment_seeded :
    moment bytecode_ input_ st0 AtRunActiveThreads (seeded st0)
| moment_pop st rest t :
    moment bytecode_ input_ st0 AtRunActiveThreads st ->
    pop_back (active_threads_ st) = Some (rest, t) ->
    moment bytecode_ input_ st0 (InRunActiveThread t) (set_active_threads rest st)
| moment_continue t st t' st' :
    moment bytecode_ input_ st0 (InRunActiveThread t) st ->
    RunActiveThread_body bytecode_ t st = Some (Continue (t', st')) ->
    moment bytecode_ input_ st0 (InRunActiveThread t') st'
| moment_return t st st' :
    moment bytecode_ input_ st0 (InRunActiveThread t) st ->
    RunActiveThread_body bytecode_ t st = Some (Return st') ->
    moment bytecode_ input_ st0 AtRunActiveThreads st'
| moment_advanced st input_char :
    moment bytecode_ input_ st0 AtRunActiveThreads st ->
    pop_back (active_threads_ st) = None ->
    FindNextMatch_cond input_ st = true ->
    vec_at input_ (input_index_ st) = Some input_char ->
    moment bytecode_ input_ st0
      (InFlushBlockedThreads (length (blocked_threads_ st)) input_char) (advanced st)
| moment_flush i input_char st st' :
    moment bytecode_ input_ st0 (InFlushBlockedThreads (S i) input_char) st ->
    FlushBlockedThreads_body bytecode_ (S i) input_char st = Some st' ->
    moment bytecode_ input_ st0 (InFlushBlockedThreads i input_char) st'
| moment_flushed input_char st :
    moment bytecode_ input_ st0 (InFlushBlockedThreads O input_char) st ->
    moment bytecode_ input_ st0 AtRunActiveThreads (set_blocked_threads [] st).

(** The thread [RunActiveThread] is working on, if the interpreter is there. *)
Definition current (place : Place) : option InterpreterThread :=
  match place with
  | InRunActiveThread t => Some t
  | _ => None
  end.

Section Sizes.

Variable bytecode_ : list RegExpInstruction.

(** What bounds the two thread lists at [place]: blocked threads are parked
    on distinct processed [CONSUME_RANGE]s, and every thread added to
    [active_threads_] is paid for by a blocked thread that was flushed, by the
    fresh thread of the input step or by a [FORK] that was processed. *)
Record sized (place : Place) (st : NfaInterpreter) : Prop := {
  sized_last : length (pc_last_input_index_ st) = length bytecode_;
  sized_cur : forall t, current place = Some t -> wf_thread bytecode_ t;
  sized_active : Forall (wf_thread bytecode_) (active_threads_ st);
  sized_parked : Forall (parked bytecode_) (blocked_threads_ st);
  sized_nodup : NoDup (map pc (blocked_threads_ st));
  sized_blocked :
    (length (blocked_threads_ st) <= length (List.filter is_consume bytecode_))%nat;
  sized_place :
    match place with
    | InFlushBlockedThreads i _ =>
        (i <= length (blocked_threads_ st))%nat /\
        (length (active_threads_ st) + i <= 1 + length (blocked_threads_ st))%nat
    | _ =>
        Forall (fun t => processed st (pc t)) (blocked_threads_ st) /\
        (length (blocked_threads_ st)
         + count_pcs is_consume (input_index_ st) bytecode_ (pc_last_input_index_ st)
         <= length (List.filter is_consume bytecode_))%nat /\
        (length (active_threads_ st)
         + match current place with Some _ => 1 | None => 0 end
         + count_pcs is_fork (input_index_ st) bytecode_ (pc_last_input_index_ st)
         <= 1 + length (List.filter is_consume bytecode_)
            + length (List.filter is_fork bytecode_))%nat
    end
}.

End Sizes.

(** ** The reference: a backtracking VM

    A conventional backtracking VM for the same four instructions, written
    after the specification and not after the source.  It runs one thread at
    program counter [p] and input position [pos]: [CONSUME_RANGE] moves on by
    one instruction and one code unit if the code unit at [pos] is in the
    range, and fails otherwise and at the end of the input; [FORK] tries the
    continuation [p + 1] first and the target only if that fails; [JMP] goes
    to its target; [ACCEPT] succeeds with the end of the match.  The result is
    [None] when [fuel] runs out (or the program counter leaves the program),
    [Some None] for failure and [Some (Some e)] for a match ending at [e]. *)
Fixpoint Backtrack (bytecode : list RegExpInstruction) (input : list Z) (fuel : nat)
    (p pos : Z) : option (option Z) :=
  match fuel with
  | O => None
  | S fuel =>
      match vec_at bytecode p with
      | None => None
      | Some (CONSUME_RANGE min max) =>
          match vec_at input pos with
          | Some c =>
              if (min <=? c) && (c <=? max)
              then Backtrack bytecode input fuel (p + 1) (pos + 1)
              else Some None
          | None => Some None
          end
      | Some (FORK target) =>
          match Backtrack bytecode input fuel (p + 1) pos with
          | None => None
          | Some (Some e) => Some (Some e)
          | Some None => Backtrack bytecode input fuel target pos
          end
      | Some (JMP target) => Backtrack bytecode input fuel target pos
      | Some ACCEPT => Some (Some pos)
      end
  end.

(** The search of the backtracking VM: it tries the start positions
    [start], [start + 1], ... in this order, [starts] of them, and returns the
    match of the first position that has one. *)
Fixpoint BacktrackSearch (bytecode : list RegExpInstruction) (input : list Z)
    (fuel : nat) (starts : nat) (start : Z) : option (option MatchRange) :=
  match starts with
  | O => Some None
  | S starts =>
      match Backtrack bytecode input fuel 0 start with
      | None => None
      | Some (Some e) => Some (Some {| begin := start; end_ := e |})
      | Some None => BacktrackSearch bytecode input fuel starts (start + 1)
      end
  end.

(** The single-match search of the backtracking VM from [start]: every
    position from [start] to the end of the input is a start position. *)
Definition BacktrackFindNextMatch (bytecode : list RegExpInstruction) (input : list Z)
    (fuel : nat) (start : Z) : option (option MatchRange) :=
  BacktrackSearch bytecode input fuel
    (Z.to_nat (Z.of_nat (length input) - start + 1)) start.

(** ** What the backtracking VM makes of a state of the interpreter *)

(** The match of the first thread of [ts], in this order, that the
    backtracking VM runs to a match from position [pos]. *)
Fixpoint first_match (bytecode : list RegExpInstruction) (input : list Z) (fuel : nat)
    (pos : Z) (ts : list InterpreterThread) : option (option MatchRange) :=
  match ts with
  | [] => Some None
  | t :: ts =>
      match Backtrack bytecode input fuel (pc t) pos with
      | None => None
      | Some (Some e) => Some (Some {| begin := match_begin t; end_ := e |})
      | Some None => first_match bytecode input fuel pos ts
      end
  end.

Section Priority.

Variable bytecode_ : list RegExpInstruction.
Variable input_ : list Z.

(** The threads still to run at the current input index, highest priority
    first: the thread [RunActiveThread] is working on, then [active_threads_]
    from its end to its start. *)
Definition pending (cur : option InterpreterThread) (st : NfaInterpreter)
  : list InterpreterThread :=
  match cur with Some t => [t] | None => [] end ++ rev (active_threads_ st).

(** The result the backtracking VM gives for the threads of a state, by
    priority: the blocked threads from first to last, then the pending
    threads, then the best match if there is one, and else the start
    positions after the current index. *)
Definition fallback (fuel : nat) (st : NfaInterpreter) : option (option MatchRange) :=
  match best_match_ st with
  | Some m => Some (Some m)
  | None =>
      BacktrackSearch bytecode_ input_ fuel
        (Z.to_nat (Z.of_nat (length input_) - input_index_ st))
        (input_index_ st + 1)
  end.

Definition outcome (fuel : nat) (cur : option InterpreterThread) (st : NfaInterpreter)
  : option (option MatchRange) :=
  match first_match bytecode_ input_ fuel (input_index_ st)
          (blocked_threads_ st ++ pending cur st) with
  | None => None
  | Some (Some m) => Some (Some m)
  | Some None => fallback fuel st
  end.

(** The backtracking VM fails on all blocked threads. *)
Definition blocked_fail (st : NfaInterpreter) : Prop :=
  exists fuel,
    first_match bytecode_ input_ fuel (input_index_ st) (blocked_threads_ st) = Some None.

(** The threads [ts] give, with [fuel], the result [r] (the end of a match, or
    failure). *)
Definition yields (fuel : nat) (pos : Z) (ts : list InterpreterThread) (r : option Z)
  : Prop :=
  exists ro, first_match bytecode_ input_ fuel pos ts = Some ro /\ r = option_map end_ ro.

(** What the interpreter knows of a processed program counter [q]: if the
    blocked threads fail, the backtracking VM gets from [q] no other result
    than from the first few pending threads, and needs more fuel for it. *)
Definition covered (cur : option InterpreterThread) (st : NfaInterpreter) : Prop :=
  forall q n r,
    processed st q ->
    blocked_fail st ->
    Backtrack bytecode_ input_ n q (input_index_ st) = Some r ->
    exists k n', (n' < n)%nat /\ yields n' (input_index_ st) (take k (pending cur st)) r.

(** The invariant that ties a search of the interpreter to the result [R] of
    the backtracking VM. *)
Record agrees (R : option MatchRange) (cur : option InterpreterThread)
    (st : NfaInterpreter) : Prop := {
  agrees_outcome : exists fuel, outcome fuel cur st = Some R;
  agrees_covered : covered cur st \/ (cur = None /\ active_threads_ st = []);
  agrees_last :
    forall (k : nat) (v : Z), pc_last_input_index_ st !! k = Some v -> v <= input_index_ st
}.

End Priority.

(** ** The matches of a program

    What the instructions mean for one thread, whatever the order in which
    the interpreter runs its threads.  [Accepts p pos e]: a thread at program
    counter [p] with the input read up to [pos] can get to an [ACCEPT] with
    the input read up to [e].  The rules are the steps [RunActiveThread] and
    [FlushBlockedThreads] take: [ACCEPT] ends the match at the current
    position; [CONSUME_RANGE] moves on by one instruction and one code unit
    if the code unit at the current position is in the range; [FORK] goes on
    at the next instruction or at its target; [JMP] goes on at its target. *)
Inductive Accepts (bytecode : list RegExpInstruction) (input : list Z)
  : Z -> Z -> Z -> Prop :=
| Accepts_accept p pos :
    vec_at bytecode p = Some ACCEPT ->
    Accepts bytecode input p pos pos
| Accepts_consume p pos min max c e :
    vec_at bytecode p = Some (CONSUME_RANGE min max) ->
    vec_at input pos = Some c ->
    min <= c <= max ->
    Accepts bytecode input (p + 1) (pos + 1) e ->
    Accepts bytecode input p pos e
| Accepts_fork_next p pos target e :
    vec_at bytecode p = Some (FORK target) ->
    Accepts bytecode input (p + 1) pos e ->
    Accepts bytecode input p pos e
| Accepts_fork_target p pos target e :
    vec_at bytecode p = Some (FORK target) ->
    Accepts bytecode input target pos e ->
    Accepts bytecode input p pos e
| Accepts_jmp p pos target e :
    vec_at bytecode p = Some (JMP target) ->
    Accepts bytecode input target pos e ->
    Accepts bytecode input p pos e.

(** The program matches the input from [s] to [e]: every thread starts at
    instruction [0]. *)
Definition Matches (bytecode : list RegExpInstruction) (input : list Z) (s e : Z) : Prop :=
  Accepts bytecode input 0 s e.

(** [Accepts] in at most [n] instructions. *)
Fixpoint accepts_within (bytecode : list RegExpInstruction) (input : list Z) (n : nat)
    (p pos e : Z) : Prop :=
  match n with
  | O => False
  | S n =>
      match vec_at bytecode p with
      | Some ACCEPT => e = pos
      | Some (CONSUME_RANGE min max) =>
          match vec_at input pos with
          | Some c => min <= c <= max /\ accepts_within bytecode input n (p + 1) (pos + 1) e
          | None => False
          end
      | Some (FORK target) =>
          accepts_within bytecode input n (p + 1) pos e \/
          accepts_within bytecode input n target pos e
      | Some (JMP target) => accepts_within bytecode input n target pos e
      | None => False
      end
  end.

Section Language.

Variable bytecode_ : list RegExpInstruction.
Variable input_ : list Z.

(** A thread [t] of the interpreter at input index [i] tracks a match begun
    at [t.match_begin]: whatever it can still accept is the end of a match of
    the program that begins there. *)
Definition tracks (i : Z) (t : InterpreterThread) : Prop :=
  forall e, Accepts bytecode_ input_ (pc t) i e ->
            Matches bytecode_ input_ (match_begin t) e.

(** Every thread of the state tracks a match, and the best match is one. *)
Record sound (cur : option InterpreterThread) (st : NfaInterpreter) : Prop := {
  sound_threads :
    Forall (tracks (input_index_ st)) (blocked_threads_ st ++ pending cur st);
  sound_best :
    forall m, best_match_ st = Some m -> Matches bytecode_ input_ (begin m) (end_ m)
}.

(** The order of priority is the order of start positions: a thread that
    began its match earlier has the higher priority. *)
Definition by_begin (a b : InterpreterThread) : Prop :=
  match_begin a <= match_begin b.

(** What the interpreter knows of a processed program counter [q] while it
    drains [active_threads_]: whatever can be accepted from [q] can be
    accepted from a blocked thread, or in fewer instructions from a pending
    thread; and that thread does not begin later than any pending thread. *)
Definition closed (cur : option InterpreterThread) (st : NfaInterpreter) : Prop :=
  forall q n e,
    processed st q ->
    accepts_within bytecode_ input_ n q (input_index_ st) e ->
    exists u e',
      Forall (by_begin u) (pending cur st) /\
      ((u ∈ blocked_threads_ st /\
        accepts_within bytecode_ input_ n (pc u) (input_index_ st) e') \/
       (u ∈ pending cur st /\
        exists n', n = S n' /\
                   accepts_within bytecode_ input_ n' (pc u) (input_index_ st) e')).

(** The invariant of a search begun at [start] that makes its result the
    leftmost match: the threads are in the order of their start positions,
    none begins after the best match, and every start position up to the
    current index that has a match is either not before the best match or
    still has a thread, begun no later, that can accept. *)
Record leftmost (start : Z) (cur : option InterpreterThread) (st : NfaInterpreter)
  : Prop := {
  lm_sorted : StronglySorted by_begin (blocked_threads_ st ++ pending cur st);
  lm_begin :
    Forall (fun u => match_begin u <= input_index_ st)
      (blocked_threads_ st ++ pending cur st);
  lm_best :
    forall m, best_match_ st = Some m ->
      begin m <= input_index_ st /\
      Forall (fun u => match_begin u <= begin m) (blocked_threads_ st ++ pending cur st);
  lm_alive :
    forall s e,
      start <= s <= input_index_ st ->
      Matches bytecode_ input_ s e ->
      (exists m, best_match_ st = Some m /\ begin m <= s) \/
      (exists u e',
          u ∈ blocked_threads_ st ++ pending cur st /\
          match_begin u <= s /\
          Accepts bytecode_ input_ (pc u) (input_index_ st) e');
  lm_closed : closed cur st \/ (cur = None /\ active_threads_ st = []);
  lm_last :
    forall (k : nat) (v : Z), pc_last_input_index_ st !! k = Some v -> v <= input_index_ st
}.

End Language.

(** What a drain of [active_threads_] begun in state [st] has done so far. *)
Definition drained (st : NfaInterpreter) (s : NfaInterpreter) : Prop :=
  input_index_ s = input_index_ st /\
  (exists more, blocked_threads_ s = blocked_threads_ st ++ more) /\
  (forall q, processed st q -> processed s q) /\
  (best_match_ s = best_match_ st \/
   exists b, best_match_ s = Some {| begin := b; end_ := input_index_ st |}).

(** The order of the threads at [place]: [blocked_threads_] from first to
    last, and the threads still to run from the one being run to the first of
    [active_threads_], are in the order of their start positions; no pending
    thread begins before a blocked thread (in [FlushBlockedThreads]: before a
    blocked thread that is still to be visited); and no thread begins after
    the best match. *)
Record ordered (place : Place) (st : NfaInterpreter) : Prop := {
  ordered_blocked : StronglySorted by_begin (blocked_threads_ st);
  ordered_pending : StronglySorted by_begin (pending (current place) st);
  ordered_between :
    forall b t,
      b ∈ match place with
          | InFlushBlockedThreads i _ => take i (blocked_threads_ st)
          | _ => blocked_threads_ st
          end ->
      t ∈ pending (current place) st ->
      by_begin b t;
  ordered_best :
    forall m, best_match_ st = Some m ->
      Forall (fun u => match_begin u <= begin m)
        (blocked_threads_ st ++ pending (current place) st)
}.

(** ** Counting iterations

    The work of a search, counted in iterations of its two innermost loops:
    the [while (true)] of [RunActiveThread], which checks one program counter
    and executes at most one instruction, and the [for] of
    [FlushBlockedThreads], which visits one blocked thread. *)

(** Iterations of the [while (true)] in a call of [RunActiveThread]. *)
Fixpoint RunActiveThread_count (bytecode_ : list RegExpInstruction) (n : nat)
    (t : InterpreterThread) (st : NfaInterpreter) : nat :=
  match n with
  | O => O
  | S n =>
      match RunActiveThread_body bytecode_ t st with
      | Some (Continue (t', st')) => S (RunActiveThread_count bytecode_ n t' st')
      | Some (Return _) => 1
      | None => O
      end
  end.

(** Those of all the calls of [RunActiveThread] in a call of
    [RunActiveThreads]. *)
Fixpoint RunActiveThreads_count (bytecode_ : list RegExpInstruction) (gas n : nat)
    (st : NfaInterpreter) : nat :=
  match n with
  | O => O
  | S n =>
      match pop_back (active_threads_ st) with
      | None => O
      | Some (rest, t) =>
          (RunActiveThread_count bytecode_ gas t (set_active_threads rest st)
           + match RunActiveThread bytecode_ gas t (set_active_threads rest st) with
             | Some st' => RunActiveThreads_count bytecode_ gas n st'
             | None => O
             end)%nat
      end
  end.

(** The iterations of one iteration of the [while] of [FindNextMatch]: those
    of the [for] of [FlushBlockedThreads], one for each blocked thread, and
    those of the [RunActiveThreads] that follows. *)
Definition FindNextMatch_body_count (bytecode_ : list RegExpInstruction)
    (input_ : list Z) (gas : nat) (st : NfaInterpreter) : nat :=
  match vec_at input_ (input_index_ st) with
  | None => O
  | Some input_char =>
      match FlushBlockedThreads bytecode_ input_char (advanced st) with
      | None => O
      | Some st' =>
          (length (blocked_threads_ (advanced st))
           + RunActiveThreads_count bytecode_ gas gas st')%nat
      end
  end.

Fixpoint FindNextMatch_loop_count (bytecode_ : list RegExpInstruction)
    (input_ : list Z) (gas n : nat) (st : NfaInterpreter) : nat :=
  match n with
  | O => O
  | S n =>
      if FindNextMatch_cond input_ st then
        (FindNextMatch_body_count bytecode_ input_ gas st
         + match FindNextMatch_body bytecode_ input_ gas st with
           | Some st' => FindNextMatch_loop_count bytecode_ input_ gas n st'
           | None => O
           end)%nat
      else O
  end.

(** The iterations of a call of [FindNextMatch]. *)
Definition FindNextMatch_count (bytecode_ : list RegExpInstruction) (input_ : list Z)
    (gas : nat) (st : NfaInterpreter) : nat :=
  (RunActiveThreads_count bytecode_ gas gas (seeded st)
   + match FindNextMatch_init bytecode_ gas st with
     | Some st' => FindNextMatch_loop_count bytecode_ input_ gas gas st'
     | None => O
     end)%nat.

(** The states in which the condition of the [while] of [FindNextMatch] is
    tested, in the order of the tests, when the loop is entered in [st]: [st]
    itself and, as long as the condition holds and the body returns, the
    state the body leaves. *)
Fixpoint FindNextMatch_tests (bytecode_ : list RegExpInstruction)
    (input_ : list Z) (gas n : nat) (st : NfaInterpreter) : list NfaInterpreter :=
  match n with
  | O => []
  | S n =>
      st :: (if FindNextMatch_cond input_ st then
               match FindNextMatch_body bytecode_ input_ gas st with
               | Some st' => FindNextMatch_tests bytecode_ input_ gas n st'
               | None => []
               end
             else [])
  end.

(** ** The continuation of a [FORK] and the forked thread *)

(** No [ACCEPT] was processed between the states [st] and [st'] of one input
    index: every [ACCEPT] that is processed in [st'] was so in [st]. *)
Definition quiet_since (bytecode_ : list RegExpInstruction) (st st' : NfaInterpreter)
  : Prop :=
  forall q, vec_at bytecode_ q = Some ACCEPT -> processed st' q -> processed st q.

(** An [ACCEPT] was processed between [st] and [st']. *)
Definition accepted_since (bytecode_ : list RegExpInstruction) (st st' : NfaInterpreter)
  : Prop :=
  exists q, vec_at bytecode_ q = Some ACCEPT /\ ~ processed st q /\ processed st' q.

(** The program counters that a thread at [p], and the threads forked from
    it, get to without consuming input, when a thread that comes to a program
    counter of [old] is dropped there: the epsilon closure of [p], cut at
    [old]. *)
Inductive Closure (bytecode_ : list RegExpInstruction) (old : Z -> Prop) (p : Z)
  : Z -> Prop :=
| Closure_start : Closure bytecode_ old p p
| Closure_fork_next q target :
    Closure bytecode_ old p q -> ~ old q ->
    vec_at bytecode_ q = Some (FORK target) ->
    Closure bytecode_ old p (q + 1)
| Closure_fork_target q target :
    Closure bytecode_ old p q -> ~ old q ->
    vec_at bytecode_ q = Some (FORK target) ->
    Closure bytecode_ old p target
| Closure_jmp q target :
    Closure bytecode_ old p q -> ~ old q ->
    vec_at bytecode_ q = Some (JMP target) ->
    Closure bytecode_ old p target.

Section ClosureInvariant.

Variable bytecode_ : list RegExpInstruction.

(** The program counters processed when the thread at [p] is started. *)
Variable old : Z -> Prop.

(** The program counter and the [match_begin] of the thread, the input index
    and the best match when it is started. *)
Variables p b i0 : Z.
Variable best0 : option MatchRange.

(** [x] is processed or is the program counter of a thread still to run. *)
Definition in_hand (cur : option InterpreterThread) (st : NfaInterpreter) (x : Z)
  : Prop :=
  processed st x \/ x ∈ map pc (pending cur st).

(** What became of the thread that processed [q]: at a [CONSUME_RANGE] it is
    blocked; the successors of a [FORK] or [JMP] are in hand; no thread was
    at an [ACCEPT]. *)
Definition closure_step (cur : option InterpreterThread) (st : NfaInterpreter) (q : Z)
  : Prop :=
  match vec_at bytecode_ q with
  | Some (CONSUME_RANGE _ _) => {| pc := q; match_begin := b |} ∈ blocked_threads_ st
  | Some (FORK target) => in_hand cur st (q + 1) /\ in_hand cur st target
  | Some (JMP target) => in_hand cur st target
  | _ => False
  end.

(** The states of the drain of the thread started at [p] and of the threads
    forked from it. *)
Record closure_inv (cur : option InterpreterThread) (st : NfaInterpreter) : Prop := {
  ci_index : input_index_ st = i0;
  ci_old : forall q, old q -> processed st q;
  ci_new : forall q, processed st q -> old q \/ Closure bytecode_ old p q;
  ci_pending :
    Forall (fun u => match_begin u = b /\ Closure bytecode_ old p (pc u))
           (pending cur st);
  ci_cases :
    ((exists q, Closure bytecode_ old p q /\ ~ old q /\
                vec_at bytecode_ q = Some ACCEPT /\ processed st q) /\
     best_match_ st = Some {| begin := b; end_ := i0 |} /\
     pending cur st = [])
    \/
    (best_match_ st = best0 /\
     in_hand cur st p /\
     forall q, processed st q -> ~ old q -> closure_step cur st q)
}.

End ClosureInvariant.

(** ** Vector lemmas *)

Lemma vec_at_Some {A : Type} (v : list A) (i : Z) (x : A) :
  vec_at v i = Some x <-> 0 <= i /\ v !! Z.to_nat i = Some x.
Proof.
  unfold vec_at. destruct (Z.ltb_spec i 0).
  - split; [discriminate | lia].
  - split; [intros H'; split; [lia | exact H'] | intros [_ H']; exact H'].
Qed.

Lemma vec_at_lt {A : Type} (v : list A) (i : Z) (x : A) :
  vec_at v i = Some x -> 0 <= i < Z.of_nat (length v).
Proof.
  intros [H0 H]%vec_at_Some. apply lookup_lt_Some in H. lia.
Qed.

Lemma vec_at_is_Some {A : Type} (v : list A) (i : Z) :
  0 <= i < Z.of_nat (length v) -> exists x, vec_at v i = Some x.
Proof.
  intros H. destruct (lookup_lt_is_Some_2 v (Z.to_nat i)) as [x Hx]; [lia |].
  exists x. apply vec_at_Some. split; [lia | exact Hx].
Qed.

Lemma vec_store_Some {A : Type} (v : list A) (i : Z) (x : A) :
  0 <= i < Z.of_nat (length v) ->
  vec_store v i x = Some (<[Z.to_nat i := x]> v).
Proof.
  intros H. unfold vec_store.
  destruct (Z.leb_spec 0 i); [| lia]. destruct (Z.ltb_spec i (Z.of_nat (length v))); [| lia].
  reflexivity.
Qed.

Lemma vec_store_inv {A : Type} (v w : list A) (i : Z) (x : A) :
  vec_store v i x = Some w ->
  0 <= i < Z.of_nat (length v) /\ w = <[Z.to_nat i := x]> v.
Proof.
  unfold vec_store.
  destruct (Z.leb_spec 0 i); destruct (Z.ltb_spec i (Z.of_nat (length v))); simpl;
    intros H'; inversion H'; subst. split; [lia | reflexivity].
Qed.

Lemma vec_at_store_eq {A : Type} (v : list A) (i : Z) (x : A) :
  0 <= i < Z.of_nat (length v) ->
  vec_at (<[Z.to_nat i := x]> v) i = Some x.
Proof.
  intros H. apply vec_at_Some. split; [lia |].
  apply list_lookup_insert_eq. lia.
Qed.

Lemma vec_at_store_ne {A : Type} (v : list A) (i j : Z) (x : A) :
  0 <= i -> 0 <= j -> i <> j ->
  vec_at (<[Z.to_nat i := x]> v) j = vec_at v j.
Proof.
  intros Hi Hj Hne. unfold vec_at. destruct (Z.ltb_spec j 0); [reflexivity |].
  apply list_lookup_insert_ne. lia.
Qed.

Lemma pop_back_nil {A : Type} : pop_back (@nil A) = None.
Proof. reflexivity. Qed.

Lemma pop_back_app {A : Type} (v : list A) (x : A) : pop_back (v ++ [x]) = Some (v, x).
Proof.
  unfold pop_back. rewrite rev_app_distr. simpl. rewrite rev_involutive. reflexivity.
Qed.

Lemma pop_back_Some {A : Type} (v r : list A) (x : A) :
  pop_back v = Some (r, x) <-> v = r ++ [x].
Proof.
  split.
  - unfold pop_back. destruct (rev v) as [| y l] eqn:E; [discriminate |].
    intros H. inversion H; subst.
    rewrite <- (rev_involutive v), E. reflexivity.
  - intros ->. apply pop_back_app.
Qed.

Lemma pop_back_None {A : Type} (v : list A) : pop_back v = None <-> v = [].
Proof.
  split.
  - unfold pop_back. destruct (rev v) as [| y l] eqn:E; [| discriminate].
    intros _. rewrite <- (rev_involutive v), E. reflexivity.
  - intros ->. reflexivity.
Qed.

Lemma valid_from_at (size : Z) (code : list RegExpInstruction) :
  forall (p : Z) (k : nat) (inst : RegExpInstruction),
    valid_from size p code = true ->
    code !! k = Some inst ->
    valid_instruction size (p + Z.of_nat k) inst = true.
Proof.
  induction code as [| i code IH]; intros p k inst Hv Hk; [discriminate |].
  simpl in Hv. apply andb_true_iff in Hv as [Hi Hrest].
  destruct k as [| k]; simpl in Hk.
  - inversion Hk; subst. replace (p + Z.of_nat 0) with p by lia. exact Hi.
  - replace (p + Z.of_nat (S k)) with (p + 1 + Z.of_nat k) by lia.
    eapply IH; eauto.
Qed.

Lemma valid_program_at (bytecode : list RegExpInstruction) (p : Z) (inst : RegExpInstruction) :
  valid_program bytecode ->
  vec_at bytecode p = Some inst ->
  valid_instruction (Z.of_nat (length bytecode)) p inst = true.
Proof.
  unfold valid_program. intros Hv [H0 Hp]%vec_at_Some.
  apply andb_true_iff in Hv as [_ Hv].
  replace p with (0 + Z.of_nat (Z.to_nat p)) by lia.
  eapply valid_from_at; eauto.
Qed.

Lemma valid_program_nonempty (bytecode : list RegExpInstruction) :
  valid_program bytecode -> (0 < length bytecode)%nat.
Proof.
  unfold valid_program. destruct bytecode; simpl; [discriminate | lia].
Qed.

(** ** One iteration of [RunActiveThread] *)

Section Stepping.

Variable bytecode_ : list RegExpInstruction.
Variable input_ : list Z.

Lemma IsPcProcessed_true (p : Z) (st : NfaInterpreter) :
  IsPcProcessed p st = Some true <-> processed st p.
Proof.
  unfold IsPcProcessed, processed.
  destruct (vec_at (pc_last_input_index_ st) p) as [v |]; [| split; discriminate].
  destruct (Z.eqb_spec v (input_index_ st)); split; intros H; inversion H; congruence.
Qed.

Lemma IsPcProcessed_false (p : Z) (st : NfaInterpreter) :
  IsPcProcessed p st = Some false ->
  ~ processed st p /\ 0 <= p < Z.of_nat (length (pc_last_input_index_ st)).
Proof.
  unfold IsPcProcessed, processed.
  destruct (vec_at (pc_last_input_index_ st) p) as [v |] eqn:E; [| discriminate].
  apply vec_at_lt in E.
  destruct (Z.eqb_spec v (input_index_ st)); intros H; inversion H.
  split; [congruence | exact E].
Qed.

Lemma IsPcProcessed_is_Some (p : Z) (st : NfaInterpreter) :
  0 <= p < Z.of_nat (length (pc_last_input_index_ st)) ->
  exists b, IsPcProcessed p st = Some b.
Proof.
  intros H. unfold IsPcProcessed.
  destruct (vec_at_is_Some (pc_last_input_index_ st) p H) as [v ->]. eauto.
Qed.

Lemma MarkPcProcessed_Some (p : Z) (st : NfaInterpreter) :
  0 <= p < Z.of_nat (length (pc_last_input_index_ st)) ->
  MarkPcProcessed p st = Some (mark p st).
Proof.
  intros H. unfold MarkPcProcessed. rewrite vec_store_Some by exact H. reflexivity.
Qed.

(** Every iteration that does not fault is one of the five cases. *)
Lemma RunActiveThread_body_case (t : InterpreterThread) (st : NfaInterpreter) r :
  length (pc_last_input_index_ st) = length bytecode_ ->
  RunActiveThread_body bytecode_ t st = Some r ->
  RunActiveThread_case bytecode_ t st r.
Proof.
  intros Hlen. unfold RunActiveThread_body.
  destruct (IsPcProcessed (pc t) st) as [[|] |] eqn:Hp; [| | discriminate].
  - intros H; inversion H; subst. constructor. apply IsPcProcessed_true, Hp.
  - apply IsPcProcessed_false in Hp as [Hnp Hrange].
    rewrite MarkPcProcessed_Some by exact Hrange.
    assert (Hwf : wf_thread bytecode_ t) by (unfold wf_thread; lia).
    destruct (vec_at bytecode_ (pc t)) as [inst |] eqn:Hi; [| discriminate].
    destruct inst; intros H; inversion H; subst.
    + eapply case_consume; eauto.
    + eapply case_fork; eauto.
    + eapply case_jmp; eauto.
    + eapply case_accept; eauto.
Qed.

(** An iteration on a thread whose [pc] is an index of the program does not
    fault. *)
Lemma RunActiveThread_body_is_Some (t : InterpreterThread) (st : NfaInterpreter) :
  length (pc_last_input_index_ st) = length bytecode_ ->
  wf_thread bytecode_ t ->
  exists r, RunActiveThread_body bytecode_ t st = Some r.
Proof.
  intros Hlen Hwf. unfold RunActiveThread_body, wf_thread in *.
  destruct (IsPcProcessed_is_Some (pc t) st) as [b ->]; [lia |].
  destruct b; [eauto |].
  rewrite MarkPcProcessed_Some by lia.
  destruct (vec_at_is_Some bytecode_ (pc t) Hwf) as [inst ->].
  destruct inst; eauto.
Qed.

End Stepping.

(** ** Counting unprocessed program counters *)

Lemma count_pcs_le (f : RegExpInstruction -> bool) (i : Z)
    (code : list RegExpInstruction) :
  forall last, (count_pcs f i code last <= length code)%nat.
Proof.
  induction code as [| inst code IH]; intros [| x last]; simpl; try lia.
  specialize (IH last). destruct (f inst && negb (x =? i)); lia.
Qed.

Lemma count_pcs_insert (f : RegExpInstruction -> bool) (i : Z)
    (code : list RegExpInstruction) :
  forall (last : list Z) (k : nat) (inst : RegExpInstruction) (v : Z),
    code !! k = Some inst ->
    last !! k = Some v ->
    v <> i ->
    ((if f inst then 1 else 0) + count_pcs f i code (<[k := i]> last)
     = count_pcs f i code last)%nat.
Proof.
  induction code as [| inst0 code IH]; intros [| x last] k inst v Hc Hl Hv;
    try discriminate.
  destruct k as [| k]; simpl in *.
  - inversion Hc; inversion Hl; subst.
    rewrite Z.eqb_refl. destruct (Z.eqb_spec v i); [contradiction |].
    destruct (f inst); simpl; lia.
  - specialize (IH last k inst v Hc Hl Hv).
    destruct (f inst0 && negb (x =? i)); lia.
Qed.

Section Termination.

Variable bytecode_ : list RegExpInstruction.
Variable input_ : list Z.
Variable gas : nat.
Hypothesis Hvalid : valid_program bytecode_.

Local Abbreviation wf := (wf_state bytecode_ input_).

Lemma unprocessed_le (st : NfaInterpreter) :
  (unprocessed bytecode_ st <= length bytecode_)%nat.
Proof. apply count_pcs_le. Qed.

Lemma count_pcs_mark (f : RegExpInstruction -> bool) (p : Z) (inst : RegExpInstruction)
    (st : NfaInterpreter) :
  length (pc_last_input_index_ st) = length bytecode_ ->
  vec_at bytecode_ p = Some inst ->
  ~ processed st p ->
  ((if f inst then 1 else 0)
   + count_pcs f (input_index_ (mark p st)) bytecode_ (pc_last_input_index_ (mark p st))
   = count_pcs f (input_index_ st) bytecode_ (pc_last_input_index_ st))%nat.
Proof.
  intros Hlen Hi Hnp. simpl.
  pose proof (vec_at_lt _ _ _ Hi) as Hr.
  apply vec_at_Some in Hi as [_ Hi].
  destruct (vec_at_is_Some (pc_last_input_index_ st) p) as [v Hv]; [lia |].
  assert (v <> input_index_ st) by (unfold processed in Hnp; congruence).
  apply vec_at_Some in Hv as [_ Hv].
  eapply count_pcs_insert; eauto.
Qed.

Lemma unprocessed_mark (p : Z) (st : NfaInterpreter) :
  length (pc_last_input_index_ st) = length bytecode_ ->
  0 <= p < Z.of_nat (length bytecode_) ->
  ~ processed st p ->
  S (unprocessed bytecode_ (mark p st)) = unprocessed bytecode_ st.
Proof.
  intros Hlen Hr Hnp. destruct (vec_at_is_Some bytecode_ p Hr) as [inst Hi].
  pose proof (count_pcs_mark (fun _ => true) p inst st Hlen Hi Hnp) as H.
  unfold unprocessed. simpl in *. lia.
Qed.

Lemma processed_mark_same (p : Z) (st : NfaInterpreter) :
  0 <= p < Z.of_nat (length (pc_last_input_index_ st)) ->
  processed (mark p st) p.
Proof. intros H. unfold processed, mark. simpl. apply vec_at_store_eq, H. Qed.

Lemma processed_mark_other (p q : Z) (st : NfaInterpreter) :
  0 <= p -> p <> q ->
  processed (mark p st) q <-> processed st q.
Proof.
  intros Hp Hne. unfold processed, mark, vec_at. simpl.
  destruct (Z.ltb_spec q 0); [reflexivity |].
  rewrite list_lookup_insert_ne by lia. reflexivity.
Qed.

Lemma processed_mark (p q : Z) (st : NfaInterpreter) :
  0 <= p < Z.of_nat (length (pc_last_input_index_ st)) ->
  processed (mark p st) q <-> q = p \/ processed st q.
Proof.
  intros Hp. destruct (Z.eq_dec p q) as [-> | Hne].
  - split; [auto | intros _; apply processed_mark_same, Hp].
  - rewrite processed_mark_other by lia. split; [auto | intros [-> | H]; [lia | exact H]].
Qed.

(** Well-formedness is kept by every iteration of [RunActiveThread]. *)
Lemma wf_step (t : InterpreterThread) (st : NfaInterpreter) r :
  wf (Some t) st ->
  RunActiveThread_case bytecode_ t st r ->
  match r with
  | Return st' => wf None st'
  | Continue (t', st') => wf (Some t') st'
  end.
Proof.
  intros [Hlen Hidx Hcur Hact Hblk Hcnt] Hcase.
  destruct Hcase as [Hp | lo hi Hnp Hwt Hi | target Hnp Hwt Hi | target Hnp Hwt Hi | Hnp Hwt Hi].
  - constructor; auto. discriminate.
  - pose proof (unprocessed_mark (pc t) st Hlen Hwt Hnp) as Hm.
    constructor; simpl; auto.
    + rewrite length_insert. exact Hlen.
    + discriminate.
    + apply Forall_app. split; [exact Hblk |]. constructor; [| constructor].
      exists lo, hi. exact Hi.
    + rewrite length_app. simpl. unfold unprocessed in *. simpl in *. lia.
  - pose proof (unprocessed_mark (pc t) st Hlen Hwt Hnp) as Hm.
    pose proof (valid_program_at _ _ _ Hvalid Hi) as Hv. simpl in Hv.
    constructor; simpl; auto.
    + rewrite length_insert. exact Hlen.
    + intros t' [= <-]. unfold wf_thread in *. simpl. lia.
    + apply Forall_app. split; [exact Hact |]. constructor; [| constructor].
      unfold wf_thread. simpl. lia.
    + unfold unprocessed in *. simpl in *. lia.
  - pose proof (unprocessed_mark (pc t) st Hlen Hwt Hnp) as Hm.
    pose proof (valid_program_at _ _ _ Hvalid Hi) as Hv. simpl in Hv.
    constructor; simpl; auto.
    + rewrite length_insert. exact Hlen.
    + intros t' [= <-]. unfold wf_thread in *. simpl. lia.
    + unfold unprocessed in *. simpl in *. lia.
  - pose proof (unprocessed_mark (pc t) st Hlen Hwt Hnp) as Hm.
    constructor; simpl; auto.
    + rewrite length_insert. exact Hlen.
    + discriminate.
    + unfold unprocessed in *. simpl in *. lia.
Qed.

Lemma wf_pop (st : NfaInterpreter) (rest : list InterpreterThread) (t : InterpreterThread) :
  wf None st ->
  active_threads_ st = rest ++ [t] ->
  wf (Some t) (set_active_threads rest st).
Proof.
  intros [Hlen Hidx Hcur Hact Hblk Hcnt] Hpop. rewrite Hpop in Hact.
  apply Forall_app in Hact as [Hrest Ht]. inversion Ht; subst.
  constructor; simpl; auto. intros t' [= <-]. assumption.
Qed.

(** [RunActiveThread] returns: an iteration either returns or processes a
    program counter that was not processed before. *)
Lemma RunActiveThread_loop_total (n : nat) :
  forall (t : InterpreterThread) (st : NfaInterpreter),
    wf (Some t) st ->
    (unprocessed bytecode_ st < n)%nat ->
    exists st',
      RunActiveThread_loop bytecode_ n t st = Some st' /\
      wf None st' /\
      (unprocessed bytecode_ st' <= unprocessed bytecode_ st)%nat /\
      (length (active_threads_ st') + unprocessed bytecode_ st'
       <= length (active_threads_ st) + unprocessed bytecode_ st)%nat.
Proof.
  induction n as [| n IH]; intros t st Hwf Hn; [lia |].
  destruct (RunActiveThread_body_is_Some bytecode_ t st) as [r Hr].
  { apply Hwf. } { eapply wf_cur; eauto. }
  pose proof (RunActiveThread_body_case bytecode_ t st r (wf_last _ _ _ _ Hwf) Hr) as Hcase.
  pose proof (wf_step t st r Hwf Hcase) as Hwf'.
  simpl. rewrite Hr.
  destruct Hcase as [Hp | lo hi Hnp Hwt Hi | target Hnp Hwt Hi | target Hnp Hwt Hi | Hnp Hwt Hi];
    try pose proof (unprocessed_mark (pc t) st (wf_last _ _ _ _ Hwf) Hwt Hnp) as Hm.
  - exists st. split; [reflexivity |]. split; [exact Hwf' |]. lia.
  - eexists. split; [reflexivity |]. split; [exact Hwf' |].
    unfold unprocessed in *. simpl in *. lia.
  - destruct (IH _ _ Hwf') as (st' & Hrun & Hwf'' & Hle1 & Hle).
    { unfold unprocessed in *. simpl in *. lia. }
    exists st'. split; [exact Hrun |]. split; [exact Hwf'' |].
    simpl in Hle. rewrite length_app in Hle. simpl in Hle.
    unfold unprocessed in *. simpl in *. lia.
  - destruct (IH _ _ Hwf') as (st' & Hrun & Hwf'' & Hle1 & Hle).
    { unfold unprocessed in *. simpl in *. lia. }
    exists st'. split; [exact Hrun |]. split; [exact Hwf'' |].
    unfold unprocessed in *. simpl in *. lia.
  - eexists. split; [reflexivity |]. split; [exact Hwf' |].
    unfold unprocessed in *. simpl in *. lia.
Qed.

(** [RunActiveThreads] returns, with [active_threads_] empty. *)
Lemma RunActiveThreads_loop_total (n : nat) :
  (length bytecode_ < gas)%nat ->
  forall st : NfaInterpreter,
    wf None st ->
    (length (active_threads_ st) + 2 * unprocessed bytecode_ st < n)%nat ->
    exists st',
      RunActiveThreads_loop bytecode_ gas n st = Some st' /\
      wf None st' /\
      active_threads_ st' = [].
Proof.
  intros Hgas. induction n as [| n IH]; intros st Hwf Hn; [lia |].
  simpl. destruct (pop_back (active_threads_ st)) as [[rest t] |] eqn:Hpop.
  - apply pop_back_Some in Hpop.
    pose proof (wf_pop st rest t Hwf Hpop) as Hwf1.
    destruct (RunActiveThread_loop_total gas t _ Hwf1) as (st1 & Hrun & Hwf2 & Hle1 & Hle).
    { pose proof (unprocessed_le (set_active_threads rest st)). lia. }
    unfold RunActiveThread. rewrite Hrun.
    apply IH; [exact Hwf2 |].
    rewrite Hpop, length_app in Hn. simpl in *.
    unfold unprocessed in *. simpl in *. lia.
  - apply pop_back_None in Hpop. eauto.
Qed.

End Termination.

(** ** Invariants of the drain of [active_threads_] *)

Section Drain.

Variable bytecode_ : list RegExpInstruction.
Variable input_ : list Z.
Variable gas : nat.
Hypothesis Hvalid : valid_program bytecode_.

Local Abbreviation wf := (wf_state bytecode_ input_).

Variable Inv : option InterpreterThread -> NfaInterpreter -> Prop.

Hypothesis Inv_step :
  forall t st r,
    wf (Some t) st -> Inv (Some t) st ->
    RunActiveThread_case bytecode_ t st r ->
    match r with
    | Return st' => Inv None st'
    | Continue (t', st') => Inv (Some t') st'
    end.

Hypothesis Inv_pop :
  forall st rest t,
    wf None st -> Inv None st ->
    active_threads_ st = rest ++ [t] ->
    Inv (Some t) (set_active_threads rest st).

Lemma RunActiveThread_loop_rule (n : nat) :
  forall t st st',
    wf (Some t) st -> Inv (Some t) st ->
    RunActiveThread_loop bytecode_ n t st = Some st' ->
    wf None st' /\ Inv None st'.
Proof.
  induction n as [| n IH]; intros t st st' Hwf HI Hrun; [discriminate |].
  simpl in Hrun.
  destruct (RunActiveThread_body bytecode_ t st) as [r |] eqn:Hr; [| discriminate].
  pose proof (RunActiveThread_body_case bytecode_ t st r (wf_last _ _ _ _ Hwf) Hr) as Hcase.
  pose proof (wf_step bytecode_ input_ Hvalid t st r Hwf Hcase) as Hwf'.
  pose proof (Inv_step t st r Hwf HI Hcase) as HI'.
  destruct r as [[t1 st1] | st1].
  - eapply IH; eauto.
  - inversion Hrun; subst. auto.
Qed.

Lemma RunActiveThreads_loop_rule (n : nat) :
  forall st st',
    wf None st -> Inv None st ->
    RunActiveThreads_loop bytecode_ gas n st = Some st' ->
    wf None st' /\ Inv None st' /\ active_threads_ st' = [].
Proof.
  induction n as [| n IH]; intros st st' Hwf HI Hrun; [discriminate |].
  simpl in Hrun.
  destruct (pop_back (active_threads_ st)) as [[rest t] |] eqn:Hpop.
  - apply pop_back_Some in Hpop.
    destruct (RunActiveThread bytecode_ gas t (set_active_threads rest st))
      as [st1 |] eqn:Hone; [| discriminate].
    destruct (RunActiveThread_loop_rule gas t (set_active_threads rest st) st1)
      as [Hwf1 HI1]; auto.
    + eapply wf_pop; eauto.
    + eapply IH; eauto.
  - apply pop_back_None in Hpop. inversion Hrun; subst. auto.
Qed.

End Drain.

(** ** Flushing the blocked threads *)

Section Flush.

Variable bytecode_ : list RegExpInstruction.

Lemma unblocked_cons (c : Z) (t : InterpreterThread) (ts : list InterpreterThread) :
  unblocked bytecode_ c (t :: ts)
  = if takes bytecode_ c t then with_pc (pc t + 1) t :: unblocked bytecode_ c ts
    else unblocked bytecode_ c ts.
Proof. unfold unblocked. simpl. destruct (takes bytecode_ c t); reflexivity. Qed.

Lemma unblocked_app (c : Z) (ts us : list InterpreterThread) :
  unblocked bytecode_ c (ts ++ us) = unblocked bytecode_ c ts ++ unblocked bytecode_ c us.
Proof. unfold unblocked. rewrite List.filter_app, map_app. reflexivity. Qed.

Lemma unblocked_rev (c : Z) (ts : list InterpreterThread) :
  unblocked bytecode_ c (rev ts) = rev (unblocked bytecode_ c ts).
Proof. unfold unblocked. rewrite List.filter_rev, map_rev. reflexivity. Qed.

Lemma unblocked_length (c : Z) (ts : list InterpreterThread) :
  (length (unblocked bytecode_ c ts) <= length ts)%nat.
Proof.
  unfold unblocked. rewrite length_map. apply List.filter_length_le.
Qed.

Lemma FlushBlockedThreads_body_eq (i : nat) (c : Z) (st : NfaInterpreter)
    (t : InterpreterThread) :
  blocked_threads_ st !! i = Some t ->
  parked bytecode_ t ->
  FlushBlockedThreads_body bytecode_ (S i) c st
  = Some (set_active_threads (active_threads_ st ++ unblocked bytecode_ c [t]) st).
Proof.
  intros Ht (lo & hi & Hi). unfold FlushBlockedThreads_body.
  replace (S i - 1)%nat with i by lia. rewrite Ht, Hi.
  rewrite unblocked_cons. unfold takes. rewrite Hi.
  destruct ((lo <=? c) && (c <=? hi)); [reflexivity |].
  unfold unblocked. simpl. rewrite app_nil_r. destruct st; reflexivity.
Qed.

Lemma FlushBlockedThreads_loop_eq (c : Z) (i : nat) :
  forall st : NfaInterpreter,
    (i <= length (blocked_threads_ st))%nat ->
    Forall (parked bytecode_) (blocked_threads_ st) ->
    FlushBlockedThreads_loop bytecode_ i c st
    = Some (set_active_threads
              (active_threads_ st
               ++ unblocked bytecode_ c (rev (take i (blocked_threads_ st)))) st).
Proof.
  induction i as [| i IH]; intros st Hi Hpark.
  - simpl. unfold unblocked. simpl. rewrite app_nil_r. destruct st; reflexivity.
  - destruct (lookup_lt_is_Some_2 (blocked_threads_ st) i) as [t Ht]; [lia |].
    assert (Hp : parked bytecode_ t).
    { eapply Forall_lookup_1; eauto. }
    cbn [FlushBlockedThreads_loop].
    rewrite (FlushBlockedThreads_body_eq i c st t Ht Hp).
    rewrite IH; simpl; [| lia | exact Hpark].
    rewrite (take_S_r _ _ _ Ht), rev_app_distr. simpl.
    change (t :: rev (take i (blocked_threads_ st)))
      with ([t] ++ rev (take i (blocked_threads_ st))).
    rewrite (unblocked_app c [t]), app_assoc. reflexivity.
Qed.

(** [FlushBlockedThreads]: the blocked threads that take the character are
    appended to [active_threads_], last one first; [blocked_threads_] is
    emptied. *)
Lemma FlushBlockedThreads_eq (c : Z) (st : NfaInterpreter) :
  Forall (parked bytecode_) (blocked_threads_ st) ->
  FlushBlockedThreads bytecode_ c st
  = Some (set_blocked_threads []
            (set_active_threads
               (active_threads_ st ++ unblocked bytecode_ c (rev (blocked_threads_ st)))
               st)).
Proof.
  intros Hpark. unfold FlushBlockedThreads.
  rewrite FlushBlockedThreads_loop_eq; [| lia | exact Hpark].
  rewrite firstn_all. reflexivity.
Qed.

End Flush.

(** ** The search for one match *)

Section Search.

Variable bytecode_ : list RegExpInstruction.
Variable input_ : list Z.
Variable gas : nat.
Hypothesis Hvalid : valid_program bytecode_.

Local Abbreviation wf := (wf_state bytecode_ input_).

Lemma FindNextMatch_body_eq (st : NfaInterpreter) (c : Z) :
  Forall (parked bytecode_) (blocked_threads_ st) ->
  vec_at input_ (input_index_ st) = Some c ->
  FindNextMatch_body bytecode_ input_ gas st
  = RunActiveThreads bytecode_ gas (fed bytecode_ c st).
Proof.
  intros Hpark Hc. unfold FindNextMatch_body. rewrite Hc.
  rewrite FlushBlockedThreads_eq.
  - unfold fed. simpl. destruct (best_match_ st); simpl; [| reflexivity].
    rewrite app_nil_r. reflexivity.
  - simpl. destruct (best_match_ st); exact Hpark.
Qed.

Lemma FindNextMatch_cond_true (st : NfaInterpreter) :
  FindNextMatch_cond input_ st = true <->
  input_index_ st <> Z.of_nat (length input_) /\
  ~ (best_match_ st <> None /\ blocked_threads_ st = []).
Proof.
  unfold FindNextMatch_cond. rewrite andb_true_iff, !negb_true_iff.
  destruct (Z.eqb_spec (input_index_ st) (Z.of_nat (length input_)));
    destruct (best_match_ st); destruct (blocked_threads_ st); simpl;
    split; intros [H1 H2]; try discriminate; try contradiction; try (split; congruence).
  all: try (split; [congruence | intros [H3 H4]; congruence]).
  all: exfalso; apply H2; split; congruence.
Qed.

Lemma wf_thread_unblocked (c : Z) (ts : list InterpreterThread) :
  Forall (wf_thread bytecode_) (unblocked bytecode_ c ts).
Proof.
  unfold unblocked. apply Forall_forall. intros t' Ht'.
  apply list_elem_of_fmap in Ht' as (t & -> & Ht).
  apply list_elem_of_In, List.filter_In in Ht as [_ Ht]. unfold takes in Ht.
  destruct (vec_at bytecode_ (pc t)) as [[lo hi | | |] |] eqn:Hi; try discriminate.
  pose proof (valid_program_at _ _ _ Hvalid Hi) as Hv. simpl in Hv.
  apply vec_at_lt in Hi. unfold wf_thread. simpl. lia.
Qed.

Lemma wf_fed (c : Z) (st : NfaInterpreter) :
  wf None st ->
  active_threads_ st = [] ->
  input_index_ st <> Z.of_nat (length input_) ->
  wf None (fed bytecode_ c st).
Proof.
  intros [Hlen Hidx Hcur Hact Hblk Hcnt] Hnil Hne.
  pose proof (valid_program_nonempty _ Hvalid) as Hpos.
  constructor; simpl; auto.
  - lia.
  - rewrite Hnil. simpl. apply Forall_app. split; [| apply wf_thread_unblocked].
    destruct (best_match_ st); simpl; constructor; [| constructor].
    unfold wf_thread. simpl. lia.
  - pose proof (unprocessed_le bytecode_
                  (fed bytecode_ c st)) as H. simpl in *. exact H.
Qed.

Lemma wf_seeded (st : NfaInterpreter) :
  ready bytecode_ input_ st -> wf None (seeded st).
Proof.
  intros [Hlen Hidx Hact Hblk Hbest].
  pose proof (valid_program_nonempty _ Hvalid) as Hpos.
  constructor; simpl; auto.
  - rewrite length_replicate. exact Hlen.
  - discriminate.
  - rewrite Hact. simpl. constructor; [| constructor]. unfold wf_thread. simpl. lia.
  - rewrite Hblk. constructor.
  - rewrite Hblk. simpl. apply (unprocessed_le bytecode_ (seeded st)).
Qed.

(** The first [RunActiveThreads] of [FindNextMatch] returns. *)
Lemma FindNextMatch_init_total (st : NfaInterpreter) :
  (3 * length bytecode_ + 2 <= gas)%nat ->
  ready bytecode_ input_ st ->
  exists st',
    FindNextMatch_init bytecode_ gas st = Some st' /\
    wf None st' /\ active_threads_ st' = [].
Proof.
  intros Hgas Hready. unfold FindNextMatch_init.
  change (RunActiveThreads bytecode_ gas (seeded st))
    with (RunActiveThreads_loop bytecode_ gas gas (seeded st)).
  apply (RunActiveThreads_loop_total bytecode_ input_ gas Hvalid); [lia | |].
  - exact (wf_seeded st Hready).
  - simpl. rewrite (ready_active _ _ _ Hready). simpl.
    match goal with
    | |- context [unprocessed _ ?s] => pose proof (unprocessed_le bytecode_ s)
    end.
    lia.
Qed.

(** One iteration of the [while] of [FindNextMatch] returns. *)
Lemma FindNextMatch_body_total (st : NfaInterpreter) :
  (3 * length bytecode_ + 2 <= gas)%nat ->
  wf None st ->
  active_threads_ st = [] ->
  input_index_ st <> Z.of_nat (length input_) ->
  exists c st',
    vec_at input_ (input_index_ st) = Some c /\
    FindNextMatch_body bytecode_ input_ gas st = Some st' /\
    RunActiveThreads bytecode_ gas (fed bytecode_ c st) = Some st' /\
    wf None st' /\ active_threads_ st' = [] /\
    input_index_ st' = input_index_ st + 1.
Proof.
  intros Hgas Hwf Hnil Hne.
  destruct (vec_at_is_Some input_ (input_index_ st)) as [c Hc].
  { pose proof (wf_index _ _ _ _ Hwf). lia. }
  pose proof (wf_fed c st Hwf Hnil Hne) as Hwf1.
  destruct (RunActiveThreads_loop_total bytecode_ input_ gas Hvalid gas
              ltac:(lia) (fed bytecode_ c st) Hwf1) as (st' & Hrun & Hwf' & Hnil').
  { pose proof (unprocessed_le bytecode_ (fed bytecode_ c st)).
    pose proof (unblocked_length bytecode_ c (rev (blocked_threads_ st))).
    pose proof (wf_count _ _ _ _ Hwf). rewrite length_rev in *.
    simpl. rewrite Hnil, !length_app. simpl.
    destruct (best_match_ st); simpl; lia. }
  exists c, st'. split; [exact Hc |].
  rewrite (FindNextMatch_body_eq st c (wf_blocked _ _ _ _ Hwf) Hc).
  split; [exact Hrun |]. split; [exact Hrun |].
  split; [exact Hwf' |]. split; [exact Hnil' |].
  (* the index is not changed by the drain *)
  assert (H : wf None st' /\ input_index_ st' = input_index_ st + 1
              /\ active_threads_ st' = []).
  { apply (RunActiveThreads_loop_rule bytecode_ input_ gas Hvalid
             (fun _ s => input_index_ s = input_index_ st + 1))
      with (n := gas) (st := fed bytecode_ c st); auto.
    intros t s r _ Hs Hcase. destruct Hcase; simpl; exact Hs. }
  apply H.
Qed.

End Search.

Section SearchLoop.

Variable bytecode_ : list RegExpInstruction.
Variable input_ : list Z.
Variable gas : nat.
Hypothesis Hvalid : valid_program bytecode_.

Local Abbreviation wf := (wf_state bytecode_ input_).

(** The [while] of [FindNextMatch] returns. *)
Lemma FindNextMatch_loop_total (n : nat) :
  (3 * length bytecode_ + 2 <= gas)%nat ->
  forall st : NfaInterpreter,
    wf None st ->
    active_threads_ st = [] ->
    Z.of_nat (length input_) - input_index_ st < Z.of_nat n ->
    exists st', FindNextMatch_loop bytecode_ input_ gas n st = Some st'.
Proof.
  intros Hgas. induction n as [| n IH]; intros st Hwf Hnil Hn.
  - pose proof (wf_index _ _ _ _ Hwf). lia.
  - simpl. destruct (FindNextMatch_cond input_ st) eqn:Hcond; [| eauto].
    apply FindNextMatch_cond_true in Hcond as [Hne _].
    destruct (FindNextMatch_body_total bytecode_ input_ gas Hvalid st Hgas Hwf Hnil Hne)
      as (c & st1 & _ & Hbody & _ & Hwf1 & Hnil1 & Hidx).
    rewrite Hbody. apply IH; auto. lia.
Qed.

Variable Inv : option InterpreterThread -> NfaInterpreter -> Prop.

Hypothesis Inv_step :
  forall t st r,
    wf (Some t) st -> Inv (Some t) st ->
    RunActiveThread_case bytecode_ t st r ->
    match r with
    | Return st' => Inv None st'
    | Continue (t', st') => Inv (Some t') st'
    end.

Hypothesis Inv_pop :
  forall st rest t,
    wf None st -> Inv None st ->
    active_threads_ st = rest ++ [t] ->
    Inv (Some t) (set_active_threads rest st).

Hypothesis Inv_fed :
  forall st c,
    wf None st -> Inv None st ->
    active_threads_ st = [] ->
    FindNextMatch_cond input_ st = true ->
    vec_at input_ (input_index_ st) = Some c ->
    Inv None (fed bytecode_ c st).

Lemma FindNextMatch_loop_rule (n : nat) :
  forall st st',
    wf None st -> Inv None st ->
    active_threads_ st = [] ->
    FindNextMatch_loop bytecode_ input_ gas n st = Some st' ->
    wf None st' /\ Inv None st' /\ active_threads_ st' = [] /\
    FindNextMatch_cond input_ st' = false.
Proof.
  induction n as [| n IH]; intros st st' Hwf HI Hnil Hrun; [discriminate |].
  simpl in Hrun. destruct (FindNextMatch_cond input_ st) eqn:Hcond.
  - destruct (FindNextMatch_body bytecode_ input_ gas st) as [st1 |] eqn:Hbody;
      [| discriminate].
    assert (Hc : exists c, vec_at input_ (input_index_ st) = Some c).
    { unfold FindNextMatch_body in Hbody.
      destruct (vec_at input_ (input_index_ st)); [eauto | discriminate]. }
    destruct Hc as [c Hc].
    rewrite (FindNextMatch_body_eq bytecode_ input_ gas st c
               (wf_blocked _ _ _ _ Hwf) Hc) in Hbody.
    pose proof Hcond as Hcond'. apply FindNextMatch_cond_true in Hcond' as [Hne _].
    destruct (RunActiveThreads_loop_rule bytecode_ input_ gas Hvalid Inv Inv_step Inv_pop
                gas (fed bytecode_ c st) st1) as (Hwf1 & HI1 & Hnil1); auto.
    + apply wf_fed; auto.
    + eapply IH; eauto.
  - inversion Hrun; subst. auto.
Qed.

Lemma FindNextMatch_rule (st : NfaInterpreter) r st' :
  ready bytecode_ input_ st ->
  Inv None (seeded st) ->
  FindNextMatch bytecode_ input_ gas st = Some (r, st') ->
  exists st1,
    wf None st1 /\ Inv None st1 /\ active_threads_ st1 = [] /\
    FindNextMatch_cond input_ st1 = false /\
    r = best_match_ st1 /\ st' = cleaned st1.
Proof.
  intros Hready HI Hrun. unfold FindNextMatch in Hrun.
  destruct (FindNextMatch_init bytecode_ gas st) as [st0 |] eqn:Hinit; [| discriminate].
  destruct (FindNextMatch_loop bytecode_ input_ gas gas st0) as [st1 |] eqn:Hloop;
    [| discriminate].
  inversion Hrun; subst. exists st1.
  destruct (RunActiveThreads_loop_rule bytecode_ input_ gas Hvalid Inv Inv_step Inv_pop
              gas (seeded st) st0) as (Hwf0 & HI0 & Hnil0); auto.
  { apply wf_seeded; auto. }
  destruct (FindNextMatch_loop_rule gas st0 st1) as (Hwf1 & HI1 & Hnil1 & Hcond); auto.
  split; [exact Hwf1 |]. split; [exact HI1 |]. split; [exact Hnil1 |].
  split; [exact Hcond |]. split; reflexivity.
Qed.

End SearchLoop.

Section SearchTotal.

Variable bytecode_ : list RegExpInstruction.
Variable input_ : list Z.
Variable gas : nat.
Hypothesis Hvalid : valid_program bytecode_.

Lemma ready_new (start : Z) :
  0 <= start <= Z.of_nat (length input_) ->
  ready bytecode_ input_ (NfaInterpreter_new bytecode_ start).
Proof.
  intros H. constructor; simpl; auto. apply length_replicate.
Qed.

Lemma ready_cleaned (st : NfaInterpreter) (i : Z) :
  wf_state bytecode_ input_ None st ->
  0 <= i <= Z.of_nat (length input_) ->
  ready bytecode_ input_ (SetInputIndex i (cleaned st)).
Proof.
  intros Hwf Hi. constructor; simpl; auto. apply Hwf.
Qed.

(** [FindNextMatch] returns, and leaves the interpreter ready for the next
    search. *)
Lemma FindNextMatch_total (st : NfaInterpreter) :
  (3 * length bytecode_ + length input_ + 2 <= gas)%nat ->
  ready bytecode_ input_ st ->
  exists r st1,
    FindNextMatch bytecode_ input_ gas st = Some (r, cleaned st1) /\
    r = best_match_ st1 /\
    wf_state bytecode_ input_ None st1.
Proof.
  intros Hgas Hready.
  destruct (FindNextMatch_init_total bytecode_ input_ gas Hvalid st ltac:(lia) Hready)
    as (st0 & Hinit & Hwf0 & Hnil0).
  destruct (FindNextMatch_loop_total bytecode_ input_ gas Hvalid gas ltac:(lia)
              st0 Hwf0 Hnil0) as [st1 Hloop].
  { pose proof (wf_index _ _ _ _ Hwf0). lia. }
  assert (Hrun : FindNextMatch bytecode_ input_ gas st
                 = Some (best_match_ st1, cleaned st1)).
  { unfold FindNextMatch. rewrite Hinit, Hloop. reflexivity. }
  exists (best_match_ st1), st1. split; [exact Hrun |]. split; [reflexivity |].
  apply (FindNextMatch_loop_rule bytecode_ input_ gas Hvalid (fun _ _ => True))
    with (n := gas) (st := st0) (st' := st1); auto.
  intros t s r _ _ Hcase. destruct Hcase; exact I.
Qed.

End SearchTotal.

(** ** More gas never changes a result *)

Section Gas.

Variable bytecode_ : list RegExpInstruction.
Variable input_ : list Z.

Lemma RunActiveThread_loop_mono (n : nat) :
  forall m t st st',
    (n <= m)%nat ->
    RunActiveThread_loop bytecode_ n t st = Some st' ->
    RunActiveThread_loop bytecode_ m t st = Some st'.
Proof.
  induction n as [| n IH]; intros m t st st' Hle H; [discriminate |].
  destruct m as [| m]; [lia |]. simpl in *.
  destruct (RunActiveThread_body bytecode_ t st) as [[[t1 st1] | st1] |]; auto.
  apply IH; [lia | exact H].
Qed.

Lemma RunActiveThreads_loop_mono (g g' : nat) (n : nat) :
  (g <= g')%nat ->
  forall m st st',
    (n <= m)%nat ->
    RunActiveThreads_loop bytecode_ g n st = Some st' ->
    RunActiveThreads_loop bytecode_ g' m st = Some st'.
Proof.
  intros Hg. induction n as [| n IH]; intros m st st' Hle H; [discriminate |].
  destruct m as [| m]; [lia |]. simpl in *.
  destruct (pop_back (active_threads_ st)) as [[rest t] |]; [| exact H].
  unfold RunActiveThread in *.
  destruct (RunActiveThread_loop bytecode_ g t (set_active_threads rest st))
    as [st1 |] eqn:E; [| discriminate].
  rewrite (RunActiveThread_loop_mono g g' t _ st1 Hg E).
  apply IH; [lia | exact H].
Qed.

Lemma FindNextMatch_body_mono (g g' : nat) (st st' : NfaInterpreter) :
  (g <= g')%nat ->
  FindNextMatch_body bytecode_ input_ g st = Some st' ->
  FindNextMatch_body bytecode_ input_ g' st = Some st'.
Proof.
  intros Hg. unfold FindNextMatch_body.
  destruct (vec_at input_ (input_index_ st)); [| discriminate].
  match goal with
  | |- context [FlushBlockedThreads bytecode_ ?c ?s] =>
      destruct (FlushBlockedThreads bytecode_ c s); [| discriminate]
  end.
  apply RunActiveThreads_loop_mono; auto.
Qed.

Lemma FindNextMatch_loop_mono (g g' : nat) (n : nat) :
  (g <= g')%nat ->
  forall m st st',
    (n <= m)%nat ->
    FindNextMatch_loop bytecode_ input_ g n st = Some st' ->
    FindNextMatch_loop bytecode_ input_ g' m st = Some st'.
Proof.
  intros Hg. induction n as [| n IH]; intros m st st' Hle H; [discriminate |].
  destruct m as [| m]; [lia |]. simpl in *.
  destruct (FindNextMatch_cond input_ st); [| exact H].
  destruct (FindNextMatch_body bytecode_ input_ g st) as [st1 |] eqn:E; [| discriminate].
  rewrite (FindNextMatch_body_mono g g' st st1 Hg E).
  apply IH; [lia | exact H].
Qed.

Lemma FindNextMatch_init_mono (g g' : nat) (st st' : NfaInterpreter) :
  (g <= g')%nat ->
  FindNextMatch_init bytecode_ g st = Some st' ->
  FindNextMatch_init bytecode_ g' st = Some st'.
Proof.
  intros Hg. unfold FindNextMatch_init. apply RunActiveThreads_loop_mono; auto.
Qed.

Lemma FindNextMatch_mono (g g' : nat) (st : NfaInterpreter) r :
  (g <= g')%nat ->
  FindNextMatch bytecode_ input_ g st = Some r ->
  FindNextMatch bytecode_ input_ g' st = Some r.
Proof.
  intros Hg. unfold FindNextMatch.
  destruct (FindNextMatch_init bytecode_ g st) as [st0 |] eqn:E0; [| discriminate].
  rewrite (FindNextMatch_init_mono g g' st st0 Hg E0).
  destruct (FindNextMatch_loop bytecode_ input_ g g st0) as [st1 |] eqn:E1; [| discriminate].
  rewrite (FindNextMatch_loop_mono g g' g Hg g' st0 st1 Hg E1). auto.
Qed.

Lemma FindMatches_loop_mono (g g' : nat) (n : nat) :
  (g <= g')%nat ->
  forall m k max out st r,
    (n <= m)%nat ->
    FindMatches_loop bytecode_ input_ g n k max out st = Some r ->
    FindMatches_loop bytecode_ input_ g' m k max out st = Some r.
Proof.
  intros Hg. induction n as [| n IH]; intros m k max out st r Hle H; [discriminate |].
  destruct m as [| m]; [lia |]. simpl in *.
  destruct (k =? max); [exact H |].
  destruct (FindNextMatch bytecode_ input_ g st) as [[o st1] |] eqn:E; [| discriminate].
  rewrite (FindNextMatch_mono g g' st _ Hg E).
  destruct o as [mr |]; [| exact H].
  destruct (vec_store out k mr); [| discriminate].
  apply IH; [lia | exact H].
Qed.

Lemma FindMatchesNfa_mono (g g' : nat) (start : Z) (out : list MatchRange) (max : Z) r :
  (g <= g')%nat ->
  FindMatchesNfa bytecode_ input_ g start out max = Some r ->
  FindMatchesNfa bytecode_ input_ g' start out max = Some r.
Proof.
  intros Hg. unfold FindMatchesNfa, FindMatches.
  destruct (FindMatches_loop bytecode_ input_ g g 0 max out
              (NfaInterpreter_new bytecode_ start)) as [x |] eqn:E; [| discriminate].
  rewrite (FindMatches_loop_mono g g' g Hg g' 0 max out _ x Hg E). auto.
Qed.

End Gas.

(** ** Acceptance, flushing and the loop of the search *)

(** C4.  When the thread [t] that [RunActiveThread] is working on is at an
    [ACCEPT] instruction whose program counter was not processed at the
    current input index, this iteration makes the call return with
    [best_match_] set to [{t.match_begin, input_index_}] and [active_threads_]
    empty; [blocked_threads_] and [input_index_] are as before. *)
Theorem RunActiveThread_accept (bytecode_ : list RegExpInstruction) (gas : nat)
    (t : InterpreterThread) (st : NfaInterpreter) :
  IsPcProcessed (pc t) st = Some false ->
  vec_at bytecode_ (pc t) = Some ACCEPT ->
  exists st',
    RunActiveThread_body bytecode_ t st = Some (Return st') /\
    RunActiveThread bytecode_ (S gas) t st = Some st' /\
    best_match_ st' = Some {| begin := match_begin t; end_ := input_index_ st |} /\
    active_threads_ st' = [] /\
    blocked_threads_ st' = blocked_threads_ st /\
    input_index_ st' = input_index_ st.
Proof.
  intros Hp Hi.
  pose proof (IsPcProcessed_false _ _ Hp) as [_ Hr].
  assert (Hbody : RunActiveThread_body bytecode_ t st
                  = Some (Return (set_active_threads []
                            (set_best_match
                               (Some {| begin := match_begin t; end_ := input_index_ st |})
                               (mark (pc t) st))))).
  { unfold RunActiveThread_body. rewrite Hp, (MarkPcProcessed_Some _ _ Hr), Hi.
    reflexivity. }
  eexists. split; [exact Hbody |].
  split; [unfold RunActiveThread; simpl; rewrite Hbody; reflexivity |].
  repeat split.
Qed.

Lemma RunActiveThread_accept_witness :
  exists st',
    RunActiveThread_body [JMP 1; ACCEPT] {| pc := 1; match_begin := 2 |}
      {| input_index_ := 5; pc_last_input_index_ := [5; 4];
         active_threads_ := [{| pc := 0; match_begin := 3 |}];
         blocked_threads_ := []; best_match_ := None |} = Some (Return st') /\
    RunActiveThread [JMP 1; ACCEPT] 1 {| pc := 1; match_begin := 2 |}
      {| input_index_ := 5; pc_last_input_index_ := [5; 4];
         active_threads_ := [{| pc := 0; match_begin := 3 |}];
         blocked_threads_ := []; best_match_ := None |} = Some st' /\
    best_match_ st' = Some {| begin := 2; end_ := 5 |} /\
    active_threads_ st' = [] /\
    blocked_threads_ st' = [] /\
    input_index_ st' = 5.
Proof.
  apply (RunActiveThread_accept [JMP 1; ACCEPT] 0 {| pc := 1; match_begin := 2 |}
           {| input_index_ := 5; pc_last_input_index_ := [5; 4];
              active_threads_ := [{| pc := 0; match_begin := 3 |}];
              blocked_threads_ := []; best_match_ := None |}); reflexivity.
Defined.

(** C6.  [FlushBlockedThreads(input_char)], on blocked threads that are all
    parked on a [CONSUME_RANGE], visits [blocked_threads_[i - 1]] for [i] from
    the size down to [1]: the threads whose range [[min, max]] has
    [min <= input_char <= max] are appended to [active_threads_] with their
    [pc] incremented by one, in the reverse of their order in
    [blocked_threads_] (whose first thread therefore ends up last); the other
    threads are dropped and [blocked_threads_] is empty afterwards. *)
Theorem FlushBlockedThreads_spec (bytecode_ : list RegExpInstruction)
    (input_char : Z) (st : NfaInterpreter) :
  Forall (parked bytecode_) (blocked_threads_ st) ->
  (forall t min max,
      vec_at bytecode_ (pc t) = Some (CONSUME_RANGE min max) ->
      (takes bytecode_ input_char t = true <-> min <= input_char <= max)) /\
  (forall i t,
      blocked_threads_ st !! i = Some t ->
      FlushBlockedThreads_body bytecode_ (S i) input_char st
      = Some (set_active_threads
                (active_threads_ st
                 ++ (if takes bytecode_ input_char t
                     then [{| pc := pc t + 1; match_begin := match_begin t |}]
                     else [])) st)) /\
  exists st',
    FlushBlockedThreads bytecode_ input_char st = Some st' /\
    active_threads_ st'
    = active_threads_ st
      ++ rev (map (fun t => {| pc := pc t + 1; match_begin := match_begin t |})
                (List.filter (takes bytecode_ input_char) (blocked_threads_ st))) /\
    blocked_threads_ st' = [] /\
    input_index_ st' = input_index_ st /\
    pc_last_input_index_ st' = pc_last_input_index_ st /\
    best_match_ st' = best_match_ st.
Proof.
  intros Hpark. split; [| split].
  - intros t lo hi Hi. unfold takes. rewrite Hi.
    rewrite andb_true_iff, !Z.leb_le. reflexivity.
  - intros i t Ht.
    rewrite (FlushBlockedThreads_body_eq bytecode_ i input_char st t Ht).
    + rewrite unblocked_cons. destruct (takes bytecode_ input_char t); reflexivity.
    + eapply Forall_lookup_1; eauto.
  - eexists. split; [apply FlushBlockedThreads_eq, Hpark |].
    simpl. rewrite unblocked_rev. repeat split.
Qed.

Lemma FlushBlockedThreads_spec_witness :
  exists st',
    FlushBlockedThreads [CONSUME_RANGE 97 97; CONSUME_RANGE 98 99; ACCEPT] 98
      {| input_index_ := 1; pc_last_input_index_ := [0; 0; -1];
         active_threads_ := [{| pc := 0; match_begin := 1 |}];
         blocked_threads_ := [{| pc := 1; match_begin := 0 |};
                              {| pc := 0; match_begin := 0 |}];
         best_match_ := None |} = Some st' /\
    active_threads_ st' = [{| pc := 0; match_begin := 1 |}; {| pc := 2; match_begin := 0 |}] /\
    blocked_threads_ st' = [].
Proof.
  destruct (FlushBlockedThreads_spec
              [CONSUME_RANGE 97 97; CONSUME_RANGE 98 99; ACCEPT] 98
              {| input_index_ := 1; pc_last_input_index_ := [0; 0; -1];
                 active_threads_ := [{| pc := 0; match_begin := 1 |}];
                 blocked_threads_ := [{| pc := 1; match_begin := 0 |};
                                      {| pc := 0; match_begin := 0 |}];
                 best_match_ := None |})
    as (_ & _ & st' & Hrun & Hact & Hblk & _).
  - repeat constructor; unfold parked; simpl; eauto.
  - exists st'. split; [exact Hrun |]. split; [exact Hact | exact Hblk].
Defined.


(** ** The other scenarios of the specification *)

Example scenario2 (slot : MatchRange) :
  FindMatchesNfa [CONSUME_RANGE 120 120; ACCEPT]
    [121; 121; 121; 121; 120; 121; 121; 121] 16 0 [slot] 1
  = Some (1, [{| begin := 4; end_ := 5 |}]).
Proof. reflexivity. Qed.

Example scenario3 (slot : MatchRange) :
  FindMatchesNfa [FORK 3; CONSUME_RANGE 97 97; JMP 0; ACCEPT] [97; 97; 97] 17 0 [slot] 1
  = Some (1, [{| begin := 0; end_ := 3 |}]).
Proof. reflexivity. Qed.

Example scenario4 (slot1 slot2 slot3 : MatchRange) :
  FindMatchesNfa [CONSUME_RANGE 97 97; ACCEPT] [97; 98; 97; 99; 97; 100] 17 0
    [slot1; slot2; slot3] 3
  = Some (3, [{| begin := 0; end_ := 1 |}; {| begin := 2; end_ := 3 |};
              {| begin := 4; end_ := 5 |}]).
Proof. reflexivity. Qed.

Example scenario5 (slot : MatchRange) :
  FindMatchesNfa [ACCEPT] [] 6 0 [slot] 1 = Some (1, [{| begin := 0; end_ := 0 |}]).
Proof. reflexivity. Qed.

Example scenario6 (slot : MatchRange) :
  FindMatchesNfa [CONSUME_RANGE 48 57; ACCEPT] [97; 98; 99] 12 0 [slot] 1
  = Some (0, [slot]).
Proof. reflexivity. Qed.

(** ** Zero-length matches *)

Section ZeroLength.

Variable rest : list RegExpInstruction.
Variable input_ : list Z.
Variable gas : nat.

(** A search with [ACCEPT] at index [0] matches the empty string at once. *)
Lemma FindNextMatch_accept_first (s : Z) (last : list Z) :
  (2 <= gas)%nat ->
  0 <= s ->
  last <> [] ->
  FindNextMatch (ACCEPT :: rest) input_ gas
    {| input_index_ := s; pc_last_input_index_ := last;
       active_threads_ := []; blocked_threads_ := []; best_match_ := None |}
  = Some (Some {| begin := s; end_ := s |},
          {| input_index_ := s;
             pc_last_input_index_ := <[0%nat := s]> (replicate (length last) (-1));
             active_threads_ := []; blocked_threads_ := []; best_match_ := None |}).
Proof.
  intros Hgas Hs Hlast.
  destruct gas as [| [| g]]; try lia.
  destruct last as [| x last]; [contradiction |].
  assert (Hinit :
    FindNextMatch_init (ACCEPT :: rest) (S (S g))
      {| input_index_ := s; pc_last_input_index_ := x :: last;
         active_threads_ := []; blocked_threads_ := []; best_match_ := None |}
    = Some {| input_index_ := s;
              pc_last_input_index_ := <[0%nat := s]> (replicate (length (x :: last)) (-1));
              active_threads_ := []; blocked_threads_ := [];
              best_match_ := Some {| begin := s; end_ := s |} |}).
  { destruct s as [| q | q]; try lia; reflexivity. }
  unfold FindNextMatch. rewrite Hinit.
  cbn [FindNextMatch_loop]. unfold FindNextMatch_cond.
  cbn [best_match_ blocked_threads_ has_value is_nil andb negb].
  rewrite andb_false_r. reflexivity.
Qed.

Lemma FindMatches_loop_accept_first (s K : Z) (n : nat) :
  (2 <= gas)%nat ->
  0 <= s ->
  forall (k : Z) (out : list MatchRange) (last : list Z),
    last <> [] ->
    0 <= k <= K ->
    K <= Z.of_nat (length out) ->
    K - k < Z.of_nat n ->
    exists out' st',
      FindMatches_loop (ACCEPT :: rest) input_ gas n k K out
        {| input_index_ := s; pc_last_input_index_ := last;
           active_threads_ := []; blocked_threads_ := []; best_match_ := None |}
      = Some (K, out', st') /\
      length out' = length out /\
      (forall i, k <= i < K -> vec_at out' i = Some {| begin := s; end_ := s |}) /\
      (forall i, i < k \/ K <= i -> vec_at out' i = vec_at out i).
Proof.
  intros Hgas Hs. induction n as [| n IH]; intros k out last Hlast Hk HK Hn; [lia |].
  cbn [FindMatches_loop]. destruct (Z.eqb_spec k K) as [-> | Hne].
  - eexists _, _. split; [reflexivity |]. split; [reflexivity |].
    split; [intros i Hi; lia | reflexivity].
  - rewrite (FindNextMatch_accept_first s last Hgas Hs Hlast).
    rewrite vec_store_Some by lia.
    destruct (IH (k + 1) (<[Z.to_nat k := {| begin := s; end_ := s |}]> out)
                (<[0%nat := s]> (replicate (length last) (-1))))
      as (out' & st' & Hrun & Hlen & Hin & Hout).
    + destruct last; [contradiction |]. discriminate.
    + lia.
    + rewrite length_insert. lia.
    + lia.
    + exists out', st'. split; [exact Hrun |].
      rewrite length_insert in Hlen. split; [exact Hlen |]. split.
      * intros i Hi. destruct (Z.eq_dec i k) as [-> | Hik].
        -- rewrite Hout by lia. apply vec_at_store_eq. lia.
        -- apply Hin. lia.
      * intros i Hi. rewrite Hout by lia.
        destruct (Z_lt_dec i 0) as [Hneg | Hpos].
        -- unfold vec_at. destruct (Z.ltb_spec i 0); [reflexivity | lia].
        -- apply vec_at_store_ne; lia.
Qed.

End ZeroLength.

(** C10.  The driver does not move the input index past a zero-length match:
    for a program whose first instruction is [ACCEPT], any input, any start
    index [s] of the input and any [K >= 0] that the buffer has room for,
    [FindMatches] with [max_match_num = K] returns [K] and writes the range
    [(s, s)] to each of the first [K] entries of the buffer. *)
Theorem FindMatches_zero_length (rest : list RegExpInstruction) (input_ : list Z)
    (gas : nat) (s K : Z) (out : list MatchRange) :
  0 <= s <= Z.of_nat (length input_) ->
  0 <= K ->
  K <= Z.of_nat (length out) ->
  K + 2 <= Z.of_nat gas ->
  exists out',
    FindMatchesNfa (ACCEPT :: rest) input_ gas s out K = Some (K, out') /\
    length out' = length out /\
    (forall i, 0 <= i < K -> vec_at out' i = Some {| begin := s; end_ := s |}) /\
    (forall i, K <= i -> vec_at out' i = vec_at out i).
Proof.
  intros Hs HK Hout Hgas.
  destruct (FindMatches_loop_accept_first rest input_ gas s K gas ltac:(lia) ltac:(lia)
              0 out (replicate (length (ACCEPT :: rest)) (-1)))
    as (out' & st' & Hrun & Hlen & Hin & Hother); try lia.
  { discriminate. }
  exists out'. unfold FindMatchesNfa, FindMatches, NfaInterpreter_new.
  rewrite Hrun. simpl. split; [reflexivity |]. split; [exact Hlen |].
  split; [exact Hin |]. intros i Hi. apply Hother. lia.
Qed.

Lemma FindMatches_zero_length_witness :
  exists out',
    FindMatchesNfa [ACCEPT] [97; 98] 5 1
      [{| begin := 7; end_ := 7 |}; {| begin := 7; end_ := 7 |};
       {| begin := 7; end_ := 7 |}; {| begin := 7; end_ := 7 |}] 3
    = Some (3, out') /\
    length out' = 4%nat /\
    (forall i, 0 <= i < 3 -> vec_at out' i = Some {| begin := 1; end_ := 1 |}) /\
    (forall i, 3 <= i ->
               vec_at out' i
               = vec_at [{| begin := 7; end_ := 7 |}; {| begin := 7; end_ := 7 |};
                         {| begin := 7; end_ := 7 |}; {| begin := 7; end_ := 7 |}] i).
Proof.
  apply (FindMatches_zero_length [] [97; 98] 5 1 3
           [{| begin := 7; end_ := 7 |}; {| begin := 7; end_ := 7 |};
            {| begin := 7; end_ := 7 |}; {| begin := 7; end_ := 7 |}]);
    simpl; lia.
Defined.

(** ** The first scenario *)

(** C9, as the code has it.  On ["abcccccccccccccc"] from index [0], whatever
    instruction of the program the label [end] stands for, the scenario-1
    program yields with [max_match_num = 1] exactly one match, and it is
    [(0, 3)]: the first alternative [abc] has the highest priority, and its
    thread, still blocked when the two-character alternative accepts at index
    [2], overrides that match at index [3].  With [max_match_num = 2] the
    match [(3, 5)] follows. *)
Theorem scenario1_matches (end_label : Z) (gas : nat) (slot1 slot2 : MatchRange) :
  0 <= end_label <= 13 ->
  (64 <= gas)%nat ->
  FindMatchesNfa (scenario1_program end_label) scenario1_input gas 0 [slot1] 1
  = Some (1, [{| begin := 0; end_ := 3 |}]) /\
  FindMatchesNfa (scenario1_program end_label) scenario1_input gas 0 [slot1; slot2] 2
  = Some (2, [{| begin := 0; end_ := 3 |}; {| begin := 3; end_ := 5 |}]).
Proof.
  intros He Hgas.
  assert (Hcases : In end_label [0; 1; 2; 3; 4; 5; 6; 7; 8; 9; 10; 11; 12; 13]).
  { simpl. lia. }
  split; apply (FindMatchesNfa_mono _ _ 64 gas _ _ _ _ Hgas);
    simpl in Hcases; decompose [or] Hcases; subst; try contradiction;
    vm_compute; reflexivity.
Qed.

Lemma scenario1_matches_witness :
  FindMatchesNfa (scenario1_program 13) scenario1_input 64 0
    [{| begin := -1; end_ := -1 |}] 1
  = Some (1, [{| begin := 0; end_ := 3 |}]).
Proof.
  apply (scenario1_matches 13 64 {| begin := -1; end_ := -1 |}
           {| begin := -1; end_ := -1 |}); lia.
Defined.

(** The match of the first scenario is not [(0, 2)]. *)
Lemma scenario1_not_two_characters :
  FindMatchesNfa (scenario1_program 13) scenario1_input 64 0
    [{| begin := -1; end_ := -1 |}] 1
  <> Some (1, [{| begin := 0; end_ := 2 |}]).
Proof. vm_compute. discriminate. Qed.

(** ** Termination *)

(** C7.  For a valid program, cyclic or not, with enough gas: an iteration of
    [RunActiveThread] on a program counter already processed at the current
    input index returns without decoding; every other iteration that does not
    fault processes a program counter that was not processed before, of which
    there are no more than the program has instructions; [RunActiveThreads]
    returns with [active_threads_] empty; and every single-match search
    returns. *)
Theorem FindNextMatch_terminates (bytecode_ : list RegExpInstruction) (input_ : list Z)
    (gas : nat) (st : NfaInterpreter) :
  valid_program bytecode_ ->
  ready bytecode_ input_ st ->
  (3 * length bytecode_ + length input_ + 2 <= gas)%nat ->
  (forall t s, processed s (pc t) -> RunActiveThread_body bytecode_ t s = Some (Return s)) /\
  (forall t s r,
      length (pc_last_input_index_ s) = length bytecode_ ->
      ~ processed s (pc t) ->
      RunActiveThread_body bytecode_ t s = Some r ->
      processed (state_after r) (pc t) /\
      S (unprocessed bytecode_ (state_after r)) = unprocessed bytecode_ s /\
      (unprocessed bytecode_ s <= length bytecode_)%nat) /\
  (forall s,
      wf_state bytecode_ input_ None s ->
      (length (active_threads_ s) <= length bytecode_ + 1)%nat ->
      exists s', RunActiveThreads bytecode_ gas s = Some s' /\ active_threads_ s' = []) /\
  exists r st', FindNextMatch bytecode_ input_ gas st = Some (r, st').
Proof.
  intros Hvalid Hready Hgas. split; [| split; [| split]].
  - intros t s Hp. unfold RunActiveThread_body.
    apply IsPcProcessed_true in Hp. rewrite Hp. reflexivity.
  - intros t s r Hlen Hnp Hr.
    pose proof (RunActiveThread_body_case bytecode_ t s r Hlen Hr) as Hcase.
    assert (Hm : forall s', pc_last_input_index_ s' = pc_last_input_index_ (mark (pc t) s) ->
                            input_index_ s' = input_index_ s ->
                            wf_thread bytecode_ t ->
                            processed s' (pc t) /\
                            S (unprocessed bytecode_ s') = unprocessed bytecode_ s /\
                            (unprocessed bytecode_ s <= length bytecode_)%nat).
    { intros s' Hl Hi Hwt. split; [| split].
      - unfold processed. rewrite Hl, Hi. apply processed_mark_same.
        unfold wf_thread in Hwt. lia.
      - rewrite <- (unprocessed_mark bytecode_ (pc t) s Hlen Hwt Hnp).
        unfold unprocessed. rewrite Hl, Hi. reflexivity.
      - apply unprocessed_le. }
    destruct Hcase; [contradiction | | | |]; apply Hm; auto.
  - intros s Hwf Hact.
    destruct (RunActiveThreads_loop_total bytecode_ input_ gas Hvalid gas ltac:(lia) s Hwf)
      as (s' & Hrun & _ & Hnil).
    { pose proof (unprocessed_le bytecode_ s). lia. }
    exists s'. split; [exact Hrun | exact Hnil].
  - destruct (FindNextMatch_total bytecode_ input_ gas Hvalid st Hgas Hready)
      as (r & st1 & Hrun & _). eauto.
Qed.

Lemma FindNextMatch_terminates_witness :
  exists r st',
    FindNextMatch [FORK 2; JMP 0; FORK 0; JMP 1] [97; 98] 16
      (NfaInterpreter_new [FORK 2; JMP 0; FORK 0; JMP 1] 0) = Some (r, st').
Proof.
  apply (FindNextMatch_terminates [FORK 2; JMP 0; FORK 0; JMP 1] [97; 98] 16
           (NfaInterpreter_new [FORK 2; JMP 0; FORK 0; JMP 1] 0)).
  - reflexivity.
  - constructor; simpl; auto; lia.
  - simpl. lia.
Defined.

(** ** Where matches lie *)

Section Bounds.

Variable bytecode_ : list RegExpInstruction.
Variable input_ : list Z.
Variable gas : nat.
Hypothesis Hvalid : valid_program bytecode_.

Lemma in_search_step (start : Z) t st r :
  in_search start (Some t) st ->
  RunActiveThread_case bytecode_ t st r ->
  match r with
  | Return st' => in_search start None st'
  | Continue (t', st') => in_search start (Some t') st'
  end.
Proof.
  intros [Hidx Hcur Hact Hblk Hbest] Hcase.
  pose proof (Hcur t eq_refl) as Ht.
  destruct Hcase; constructor; simpl; auto; try discriminate.
  - apply Forall_app. split; [exact Hblk |]. constructor; [exact Ht | constructor].
  - intros t' [= <-]. exact Ht.
  - apply Forall_app. split; [exact Hact |]. constructor; [exact Ht | constructor].
  - intros t' [= <-]. exact Ht.
  - intros m [= <-]. simpl. lia.
Qed.

Lemma in_search_pop (start : Z) st rest t :
  in_search start None st ->
  active_threads_ st = rest ++ [t] ->
  in_search start (Some t) (set_active_threads rest st).
Proof.
  intros [Hidx Hcur Hact Hblk Hbest] Hpop. rewrite Hpop in Hact.
  apply Forall_app in Hact as [Hrest Ht]. inversion Ht; subst.
  constructor; simpl; auto. intros t' [= <-]. assumption.
Qed.

Lemma in_search_fed (start : Z) st c :
  in_search start None st ->
  in_search start None (fed bytecode_ c st).
Proof.
  intros [Hidx Hcur Hact Hblk Hbest].
  constructor; simpl; auto; try discriminate.
  - lia.
  - apply Forall_app. split; [apply Forall_app; split |].
    + eapply Forall_impl; [exact Hact |]. simpl. intros; lia.
    + destruct (best_match_ st); simpl; constructor; [| constructor]. simpl. lia.
    + unfold unblocked. apply Forall_forall. intros t' Ht'.
      apply list_elem_of_fmap in Ht' as (t & -> & Ht).
      apply list_elem_of_In, List.filter_In in Ht as [Ht _].
      apply in_rev, list_elem_of_In in Ht.
      rewrite Forall_forall in Hblk. specialize (Hblk t Ht). simpl. lia.
  - intros m Hm. specialize (Hbest m Hm). lia.
Qed.

Lemma in_search_seeded st :
  ready bytecode_ input_ st ->
  in_search (input_index_ st) None (seeded st).
Proof.
  intros [Hlen Hidx Hact Hblk Hbest].
  constructor; simpl; auto; try discriminate.
  - lia.
  - rewrite Hact. simpl. constructor; [simpl; lia | constructor].
  - rewrite Hblk. constructor.
  - rewrite Hbest. discriminate.
Qed.

(** A match lies between the index the search started at and the end of the
    input. *)
Lemma FindNextMatch_bounds st m st' :
  ready bytecode_ input_ st ->
  FindNextMatch bytecode_ input_ gas st = Some (Some m, st') ->
  input_index_ st <= begin m /\ begin m <= end_ m /\
  end_ m <= Z.of_nat (length input_).
Proof.
  intros Hready Hrun.
  destruct (FindNextMatch_rule bytecode_ input_ gas Hvalid (in_search (input_index_ st)))
    with (st := st) (r := Some m) (st' := st')
    as (st1 & Hwf1 & HI1 & _ & _ & Hr & _); auto.
  - intros t s r _. apply in_search_step.
  - intros s rest t _. apply in_search_pop.
  - intros s c _ HI _ _ _. apply in_search_fed, HI.
  - apply in_search_seeded, Hready.
  - pose proof (search_best _ _ _ HI1 m (eq_sym Hr)) as H.
    pose proof (wf_index _ _ _ _ Hwf1). lia.
Qed.

Lemma successive_lookup (ms : list MatchRange) :
  forall cursor,
    successive bytecode_ input_ gas cursor ms ->
    forall i m,
      ms !! i = Some m ->
      (exists st st',
          ready bytecode_ input_ st /\
          input_index_ st = cursor_at cursor ms i /\
          FindNextMatch bytecode_ input_ gas st = Some (Some m, st')) /\
      cursor_at cursor ms i <= begin m /\ begin m <= end_ m /\
      end_ m <= Z.of_nat (length input_).
Proof.
  induction ms as [| m0 ms IH]; intros cursor Hs i m Hi; [discriminate |].
  destruct Hs as (Hrun & H1 & H2 & H3 & Hrest).
  destruct i as [| i]; simpl in Hi.
  - inversion Hi; subst. simpl. auto.
  - specialize (IH (end_ m0) Hrest i m Hi).
    destruct i as [| i]; [exact IH |].
    unfold cursor_at in *. simpl.
    destruct (ms !! i) eqn:E; [exact IH |].
    apply lookup_ge_None in E. apply lookup_lt_Some in Hi. lia.
Qed.

Lemma FindMatches_loop_spec (max : Z) (n : nat) :
  (3 * length bytecode_ + length input_ + 2 <= gas)%nat ->
  forall (k : Z) (out : list MatchRange) (st : NfaInterpreter),
    ready bytecode_ input_ st ->
    0 <= k <= max ->
    max <= Z.of_nat (length out) ->
    max - k < Z.of_nat n ->
    exists ms out' st',
      FindMatches_loop bytecode_ input_ gas n k max out st
      = Some (k + Z.of_nat (length ms), out', st') /\
      k + Z.of_nat (length ms) <= max /\
      length out' = length out /\
      (forall i, vec_at out' (k + Z.of_nat i)
                 = if decide (i < length ms)%nat then ms !! i
                   else vec_at out (k + Z.of_nat i)) /\
      (forall i, i < k -> vec_at out' i = vec_at out i) /\
      successive bytecode_ input_ gas (input_index_ st) ms.
Proof.
  intros Hgas. induction n as [| n IH]; intros k out st Hready Hk Hmax Hn; [lia |].
  cbn [FindMatches_loop]. destruct (Z.eqb_spec k max) as [-> | Hne].
  { exists [], out, st. simpl. rewrite Z.add_0_r. repeat split; auto; lia. }
  destruct (FindNextMatch_total bytecode_ input_ gas Hvalid st Hgas Hready)
    as (r & st1 & Hrun & Hr & Hwf1).
  rewrite Hrun. destruct r as [m |].
  2: { exists [], out, (cleaned st1). simpl. rewrite Z.add_0_r. repeat split; auto; lia. }
  destruct (FindNextMatch_bounds st m (cleaned st1) Hready Hrun) as (Hb1 & Hb2 & Hb3).
  rewrite vec_store_Some by lia.
  destruct (IH (k + 1) (<[Z.to_nat k := m]> out) (SetInputIndex (end_ m) (cleaned st1)))
    as (ms & out' & st' & Hloop & Hle & Hlen & Hin & Hbefore & Hsucc).
  { apply ready_cleaned; [exact Hwf1 |]. pose proof (ready_index _ _ _ Hready). lia. }
  { lia. } { rewrite length_insert. lia. } { lia. }
  exists (m :: ms), out', st'. simpl length.
  replace (k + Z.of_nat (S (length ms))) with (k + 1 + Z.of_nat (length ms)) by lia.
  split; [exact Hloop |]. split; [exact Hle |].
  rewrite length_insert in Hlen. split; [exact Hlen |]. split; [| split].
  - intros i. destruct i as [| i].
    + rewrite Z.add_0_r. rewrite Hbefore by lia.
      destruct (decide (0 < S (length ms))%nat); [| lia]. simpl.
      apply vec_at_store_eq. lia.
    + replace (k + Z.of_nat (S i)) with (k + 1 + Z.of_nat i) by lia.
      rewrite Hin. simpl.
      destruct (decide (i < length ms)%nat); destruct (decide (S i < S (length ms))%nat);
        try lia; [reflexivity |].
      apply vec_at_store_ne; lia.
  - intros i Hi. rewrite Hbefore by lia.
    destruct (Z_lt_dec i 0).
    + unfold vec_at. destruct (Z.ltb_spec i 0); [reflexivity | lia].
    + apply vec_at_store_ne; lia.
  - simpl. split; [exists st, (cleaned st1); auto |]. auto.
Qed.

End Bounds.

(** ** The sizes of the thread lists *)

Lemma count_pcs_le_filter (f : RegExpInstruction -> bool) (i : Z)
    (code : list RegExpInstruction) :
  forall last, (count_pcs f i code last <= length (List.filter f code))%nat.
Proof.
  induction code as [| inst code IH]; intros [| x last]; simpl; try lia.
  specialize (IH last). destruct (f inst); simpl; [| exact IH].
  destruct (negb (x =? i)); lia.
Qed.

Lemma filter_disjoint_length {A : Type} (f g : A -> bool) (l : list A) :
  (forall x, f x = true -> g x = false) ->
  (length (List.filter f l) + length (List.filter g l) <= length l)%nat.
Proof.
  intros Hfg. induction l as [| x l IH]; simpl; [lia |].
  specialize (Hfg x).
  destruct (f x), (g x); simpl; try lia; specialize (Hfg eq_refl); discriminate.
Qed.

Lemma filter_disjoint_length_lt {A : Type} (f g : A -> bool) (l : list A) (x : A) :
  (forall y, f y = true -> g y = false) ->
  x ∈ l -> f x = false -> g x = false ->
  (length (List.filter f l) + length (List.filter g l) < length l)%nat.
Proof.
  intros Hfg Hx Hf Hg.
  apply list_elem_of_split in Hx as (l1 & l2 & ->).
  rewrite !List.filter_app, !length_app. simpl. rewrite Hf, Hg. simpl.
  pose proof (filter_disjoint_length f g l1 Hfg).
  pose proof (filter_disjoint_length f g l2 Hfg). lia.
Qed.

(** A valid program has an instruction, its last, that is neither a
    [CONSUME_RANGE] nor a [FORK]. *)
Lemma forks_and_consumes (bytecode_ : list RegExpInstruction) :
  valid_program bytecode_ ->
  (1 + length (List.filter is_consume bytecode_) + length (List.filter is_fork bytecode_)
   <= length bytecode_)%nat.
Proof.
  intros Hvalid. pose proof (valid_program_nonempty _ Hvalid) as Hpos.
  destruct (vec_at_is_Some bytecode_ (Z.of_nat (length bytecode_) - 1)) as [inst Hi];
    [lia |].
  pose proof (valid_program_at _ _ _ Hvalid Hi) as Hv.
  assert (Hin : inst ∈ bytecode_).
  { apply vec_at_Some in Hi as [_ Hi]. eapply list_elem_of_lookup_2; eauto. }
  pose proof (filter_disjoint_length_lt is_consume is_fork bytecode_ inst) as H.
  destruct inst; simpl in Hv.
  - apply andb_true_iff in Hv as [_ Hv]. apply Z.ltb_lt in Hv. lia.
  - apply andb_true_iff in Hv as [_ Hv]. apply Z.ltb_lt in Hv. lia.
  - specialize (H ltac:(intros []; simpl; congruence) Hin eq_refl eq_refl). lia.
  - specialize (H ltac:(intros []; simpl; congruence) Hin eq_refl eq_refl). lia.
Qed.

Section SizesOfLists.

Variable bytecode_ : list RegExpInstruction.
Variable input_ : list Z.
Variable st0 : NfaInterpreter.
Hypothesis Hvalid : valid_program bytecode_.
Hypothesis Hready : ready bytecode_ input_ st0.

Lemma Forall_processed_mark (p : Z) (st : NfaInterpreter) (ts : list InterpreterThread) :
  0 <= p < Z.of_nat (length (pc_last_input_index_ st)) ->
  Forall (fun t => processed st (pc t)) ts ->
  Forall (fun t => processed (mark p st) (pc t)) ts.
Proof.
  intros Hp H. eapply Forall_impl; [exact H |].
  intros t Ht. simpl in *. apply processed_mark; auto.
Qed.

Lemma sized_step (t : InterpreterThread) (st : NfaInterpreter) r :
  sized bytecode_ (InRunActiveThread t) st ->
  RunActiveThread_case bytecode_ t st r ->
  match r with
  | Return st' => sized bytecode_ AtRunActiveThreads st'
  | Continue (t', st') => sized bytecode_ (InRunActiveThread t') st'
  end.
Proof.
  intros [Hlen Hcur Hact Hpark Hnd Hblk (Hproc & Hc & Hf)] Hcase. simpl in *.
  assert (Hr : forall t', wf_thread bytecode_ t' ->
                          0 <= pc t' < Z.of_nat (length (pc_last_input_index_ st))).
  { unfold wf_thread. intros t'. lia. }
  destruct Hcase as [Hp | lo hi Hnp Hwt Hi | target Hnp Hwt Hi | target Hnp Hwt Hi | Hnp Hwt Hi].
  - constructor; simpl; auto; [discriminate |]. repeat split; auto. lia.
  - pose proof (count_pcs_mark bytecode_ is_consume (pc t) _ st Hlen Hi Hnp) as Hmc.
    pose proof (count_pcs_mark bytecode_ is_fork (pc t) _ st Hlen Hi Hnp) as Hmf.
    simpl in Hmc, Hmf.
    constructor; simpl; auto.
    + rewrite length_insert. exact Hlen.
    + discriminate.
    + apply Forall_app. split; [exact Hpark |]. constructor; [| constructor].
      exists lo, hi. exact Hi.
    + rewrite map_app. simpl. apply NoDup_app. split; [exact Hnd |].
      split; [| apply NoDup_singleton].
      intros p Hp1 Hp2. apply list_elem_of_singleton in Hp2. subst p.
      apply list_elem_of_fmap in Hp1 as (t1 & Heq & Ht1).
      rewrite Forall_forall in Hproc. apply Hnp. rewrite Heq. apply Hproc, Ht1.
    + rewrite length_app. simpl. lia.
    + split; [| split].
      * apply Forall_app. split.
        -- apply (Forall_processed_mark (pc t) st); auto.
        -- constructor; [| constructor]. apply (processed_mark_same (pc t) st); auto.
      * rewrite length_app. simpl. lia.
      * lia.
  - pose proof (count_pcs_mark bytecode_ is_consume (pc t) _ st Hlen Hi Hnp) as Hmc.
    pose proof (count_pcs_mark bytecode_ is_fork (pc t) _ st Hlen Hi Hnp) as Hmf.
    pose proof (valid_program_at _ _ _ Hvalid Hi) as Hv.
    simpl in Hmc, Hmf, Hv.
    constructor; simpl; auto.
    + rewrite length_insert. exact Hlen.
    + intros t' [= <-]. unfold wf_thread in *. simpl. lia.
    + apply Forall_app. split; [exact Hact |]. constructor; [| constructor].
      unfold wf_thread. simpl. lia.
    + split; [| split].
      * apply (Forall_processed_mark (pc t) st); auto.
      * lia.
      * rewrite length_app. simpl. lia.
  - pose proof (count_pcs_mark bytecode_ is_consume (pc t) _ st Hlen Hi Hnp) as Hmc.
    pose proof (count_pcs_mark bytecode_ is_fork (pc t) _ st Hlen Hi Hnp) as Hmf.
    pose proof (valid_program_at _ _ _ Hvalid Hi) as Hv.
    simpl in Hmc, Hmf, Hv.
    constructor; simpl; auto.
    + rewrite length_insert. exact Hlen.
    + intros t' [= <-]. unfold wf_thread in *. simpl. lia.
    + split; [| split].
      * apply (Forall_processed_mark (pc t) st); auto.
      * lia.
      * lia.
  - pose proof (count_pcs_mark bytecode_ is_consume (pc t) _ st Hlen Hi Hnp) as Hmc.
    pose proof (count_pcs_mark bytecode_ is_fork (pc t) _ st Hlen Hi Hnp) as Hmf.
    simpl in Hmc, Hmf.
    constructor; simpl; auto.
    + rewrite length_insert. exact Hlen.
    + discriminate.
    + split; [| split].
      * apply (Forall_processed_mark (pc t) st); auto.
      * lia.
      * lia.
Qed.

Lemma sized_moment (place : Place) (st : NfaInterpreter) :
  moment bytecode_ input_ st0 place st -> sized bytecode_ place st.
Proof.
  pose proof (valid_program_nonempty _ Hvalid) as Hpos.
  induction 1 as [| st rest t Hm IH Hpop | t st t' st' Hm IH Hbody | t st st' Hm IH Hbody
                  | st c Hm IH Hpop Hcond Hc | i c st st' Hm IH Hbody | c st Hm IH].
  - destruct Hready as [Hlen Hidx Hact Hblk Hbest].
    constructor; simpl; rewrite ?Hact, ?Hblk; simpl; auto.
    + rewrite length_replicate. exact Hlen.
    + discriminate.
    + constructor; [| constructor]. unfold wf_thread. simpl. lia.
    + constructor.
    + lia.
    + split; [constructor |].
      pose proof (count_pcs_le_filter is_consume (input_index_ st0) bytecode_
                    (replicate (length (pc_last_input_index_ st0)) (-1))).
      pose proof (count_pcs_le_filter is_fork (input_index_ st0) bytecode_
                    (replicate (length (pc_last_input_index_ st0)) (-1))).
      lia.
  - apply pop_back_Some in Hpop.
    destruct IH as [Hlen Hcur Hact Hpark Hnd Hblk (Hproc & Hc & Hf)]. simpl in *.
    rewrite Hpop in Hact, Hf. apply Forall_app in Hact as [Hrest Ht].
    inversion Ht; subst. rewrite length_app in Hf. simpl in Hf.
    constructor; simpl; auto.
    + intros t' [= <-]. assumption.
    + repeat split; auto. lia.
  - pose proof (RunActiveThread_body_case bytecode_ t st _ (sized_last _ _ _ IH) Hbody)
      as Hcase.
    apply (sized_step t st _ IH Hcase).
  - pose proof (RunActiveThread_body_case bytecode_ t st _ (sized_last _ _ _ IH) Hbody)
      as Hcase.
    apply (sized_step t st _ IH Hcase).
  - apply pop_back_None in Hpop.
    destruct IH as [Hlen Hcur Hact Hpark Hnd Hblk (Hproc & Hcn & Hf)].
    unfold advanced. simpl. destruct (best_match_ st); simpl;
      constructor; simpl; rewrite ?Hpop; simpl; auto; try discriminate;
      try (split; lia).
    constructor; [| constructor]. unfold wf_thread. simpl. lia.
  - destruct IH as [Hlen Hcur Hact Hpark Hnd Hblk (Hi & Hsz)].
    destruct (lookup_lt_is_Some_2 (blocked_threads_ st) i) as [t Ht]; [lia |].
    assert (Hp : parked bytecode_ t) by (eapply Forall_lookup_1; eauto).
    rewrite (FlushBlockedThreads_body_eq bytecode_ i c st t Ht Hp) in Hbody.
    inversion Hbody; subst. clear Hbody.
    pose proof (unblocked_length bytecode_ c [t]) as Hu. simpl in Hu.
    constructor; simpl; auto; try discriminate.
    + apply Forall_app. split; [exact Hact |].
      apply (wf_thread_unblocked bytecode_ Hvalid).
    + rewrite length_app. split; lia.
  - destruct IH as [Hlen Hcur Hact Hpark Hnd Hblk (Hi & Hsz)].
    pose proof (count_pcs_le_filter is_consume (input_index_ st) bytecode_
                  (pc_last_input_index_ st)).
    pose proof (count_pcs_le_filter is_fork (input_index_ st) bytecode_
                  (pc_last_input_index_ st)).
    constructor; simpl; auto; try discriminate; try lia;
      try (split; [constructor | lia]); constructor.
Qed.

End SizesOfLists.

(** ** The functions pass through moments only *)

Section Moments.

Variable bytecode_ : list RegExpInstruction.
Variable input_ : list Z.
Variable gas : nat.
Variable st0 : NfaInterpreter.

Local Abbreviation at_moment := (moment bytecode_ input_ st0).

Lemma moment_RunActiveThread_loop (n : nat) :
  forall t st st',
    at_moment (InRunActiveThread t) st ->
    RunActiveThread_loop bytecode_ n t st = Some st' ->
    at_moment AtRunActiveThreads st'.
Proof.
  induction n as [| n IH]; intros t st st' Hm Hrun; [discriminate |].
  simpl in Hrun.
  destruct (RunActiveThread_body bytecode_ t st) as [[[t1 st1] | st1] |] eqn:Hbody;
    [| | discriminate].
  - eapply IH; [| exact Hrun]. eapply moment_continue; eauto.
  - inversion Hrun; subst. eapply moment_return; eauto.
Qed.

Lemma moment_RunActiveThreads_loop (n : nat) :
  forall st st',
    at_moment AtRunActiveThreads st ->
    RunActiveThreads_loop bytecode_ gas n st = Some st' ->
    at_moment AtRunActiveThreads st' /\ active_threads_ st' = [].
Proof.
  induction n as [| n IH]; intros st st' Hm Hrun; [discriminate |].
  simpl in Hrun.
  destruct (pop_back (active_threads_ st)) as [[rest t] |] eqn:Hpop.
  - destruct (RunActiveThread bytecode_ gas t (set_active_threads rest st))
      as [st1 |] eqn:Hone; [| discriminate].
    apply (IH st1); [| exact Hrun].
    eapply moment_RunActiveThread_loop; [| exact Hone].
    eapply moment_pop; eauto.
  - inversion Hrun; subst. split; [exact Hm |]. apply pop_back_None, Hpop.
Qed.

Lemma moment_FlushBlockedThreads_loop (c : Z) (i : nat) :
  forall st st',
    at_moment (InFlushBlockedThreads i c) st ->
    FlushBlockedThreads_loop bytecode_ i c st = Some st' ->
    at_moment (InFlushBlockedThreads O c) st'.
Proof.
  induction i as [| i IH]; intros st st' Hm Hrun.
  - inversion Hrun; subst. exact Hm.
  - cbn [FlushBlockedThreads_loop] in Hrun.
    destruct (FlushBlockedThreads_body bytecode_ (S i) c st) as [st1 |] eqn:Hbody;
      [| discriminate].
    eapply IH; [| exact Hrun]. eapply moment_flush; eauto.
Qed.

Lemma blocked_threads_advanced (st : NfaInterpreter) :
  blocked_threads_ (advanced st) = blocked_threads_ st.
Proof. unfold advanced. simpl. destruct (best_match_ st); reflexivity. Qed.

Lemma moment_FindNextMatch_body (st st' : NfaInterpreter) :
  at_moment AtRunActiveThreads st ->
  active_threads_ st = [] ->
  FindNextMatch_cond input_ st = true ->
  FindNextMatch_body bytecode_ input_ gas st = Some st' ->
  at_moment AtRunActiveThreads st' /\ active_threads_ st' = [].
Proof.
  intros Hm Hnil Hcond Hbody. unfold FindNextMatch_body in Hbody.
  destruct (vec_at input_ (input_index_ st)) as [c |] eqn:Hc; [| discriminate].
  fold (advanced st) in Hbody.
  destruct (FlushBlockedThreads bytecode_ c (advanced st)) as [st1 |] eqn:Hflush;
    [| discriminate].
  apply (moment_RunActiveThreads_loop gas st1); [| exact Hbody].
  unfold FlushBlockedThreads in Hflush.
  destruct (FlushBlockedThreads_loop bytecode_ (length (blocked_threads_ (advanced st)))
              c (advanced st)) as [st2 |] eqn:Hloop; [| discriminate].
  inversion Hflush; subst. apply moment_flushed with (input_char := c).
  eapply moment_FlushBlockedThreads_loop; [| exact Hloop].
  rewrite blocked_threads_advanced.
  apply moment_advanced; auto. apply pop_back_None, Hnil.
Qed.

Lemma moment_FindNextMatch_loop (n : nat) :
  forall st st',
    at_moment AtRunActiveThreads st ->
    active_threads_ st = [] ->
    FindNextMatch_loop bytecode_ input_ gas n st = Some st' ->
    at_moment AtRunActiveThreads st' /\ FindNextMatch_cond input_ st' = false.
Proof.
  induction n as [| n IH]; intros st st' Hm Hnil Hrun; [discriminate |].
  simpl in Hrun. destruct (FindNextMatch_cond input_ st) eqn:Hcond.
  - destruct (FindNextMatch_body bytecode_ input_ gas st) as [st1 |] eqn:Hbody;
      [| discriminate].
    destruct (moment_FindNextMatch_body st st1 Hm Hnil Hcond Hbody) as [Hm1 Hnil1].
    eapply IH; eauto.
  - inversion Hrun; subst. auto.
Qed.

(** The state in which the [while] of [FindNextMatch] ends is a moment of the
    search. *)
Lemma moment_FindNextMatch r st' :
  FindNextMatch bytecode_ input_ gas st0 = Some (r, st') ->
  exists st1,
    at_moment AtRunActiveThreads st1 /\
    FindNextMatch_cond input_ st1 = false /\
    r = best_match_ st1 /\ st' = cleaned st1.
Proof.
  unfold FindNextMatch. intros Hrun.
  destruct (FindNextMatch_init bytecode_ gas st0) as [st1 |] eqn:Hinit; [| discriminate].
  destruct (FindNextMatch_loop bytecode_ input_ gas gas st1) as [st2 |] eqn:Hloop;
    [| discriminate].
  inversion Hrun; subst.
  destruct (moment_RunActiveThreads_loop gas (seeded st0) st1) as [Hm1 Hnil1].
  { apply moment_seeded. } { exact Hinit. }
  destruct (moment_FindNextMatch_loop gas st1 st2 Hm1 Hnil1 Hloop) as [Hm2 Hcond].
  exists st2. repeat split; auto.
Qed.

End Moments.

(** C8, as the code has it.  At every moment of a single-match search of a
    valid program, the threads of [blocked_threads_] have pairwise distinct
    program counters, and neither [active_threads_] nor [blocked_threads_]
    holds more threads than the program has instructions. *)
Theorem thread_lists_bounded (bytecode_ : list RegExpInstruction) (input_ : list Z)
    (st0 : NfaInterpreter) (place : Place) (st : NfaInterpreter) :
  valid_program bytecode_ ->
  ready bytecode_ input_ st0 ->
  moment bytecode_ input_ st0 place st ->
  NoDup (map pc (blocked_threads_ st)) /\
  (length (blocked_threads_ st) <= length bytecode_)%nat /\
  (length (active_threads_ st) <= length bytecode_)%nat.
Proof.
  intros Hvalid Hready Hm.
  pose proof (sized_moment bytecode_ input_ st0 Hvalid Hready place st Hm)
    as [Hlen Hcur Hact Hpark Hnd Hblk Hplace].
  pose proof (forks_and_consumes bytecode_ Hvalid) as Hfc.
  split; [exact Hnd |]. split; [lia |].
  destruct place; simpl in Hplace; lia.
Qed.

Lemma thread_lists_bounded_witness :
  NoDup (map pc [{| pc := 1; match_begin := 0 |}]) /\
  (1 <= 3)%nat /\ (1 <= 3)%nat.
Proof.
  apply (thread_lists_bounded [FORK 1; CONSUME_RANGE 97 97; ACCEPT] []
           (NfaInterpreter_new [FORK 1; CONSUME_RANGE 97 97; ACCEPT] 0)
           AtRunActiveThreads
           {| input_index_ := 0; pc_last_input_index_ := [0; 0; -1];
              active_threads_ := [{| pc := 1; match_begin := 0 |}];
              blocked_threads_ := [{| pc := 1; match_begin := 0 |}];
              best_match_ := None |}).
  - reflexivity.
  - constructor; simpl; auto; lia.
  - eapply moment_return.
    + eapply moment_continue.
      * eapply moment_pop; [apply moment_seeded | reflexivity].
      * reflexivity.
    + reflexivity.
Defined.

(** A moment at which a thread of [active_threads_] and a thread of
    [blocked_threads_] have the same program counter: after the first thread
    of [FORK 1; CONSUME_RANGE 'a' 'a'; ACCEPT] has been run, the thread it
    forked waits at index [1] of the program, where the thread itself is
    blocked. *)
Lemma same_pc_active_and_blocked :
  ~ (forall place st,
        moment [FORK 1; CONSUME_RANGE 97 97; ACCEPT] []
          (NfaInterpreter_new [FORK 1; CONSUME_RANGE 97 97; ACCEPT] 0) place st ->
        NoDup (map pc (active_threads_ st ++ blocked_threads_ st))).
Proof.
  intros H.
  specialize (H AtRunActiveThreads
                {| input_index_ := 0; pc_last_input_index_ := [0; 0; -1];
                   active_threads_ := [{| pc := 1; match_begin := 0 |}];
                   blocked_threads_ := [{| pc := 1; match_begin := 0 |}];
                   best_match_ := None |}).
  simpl in H. apply NoDup_cons in H as [Hnot _].
  - apply Hnot. apply list_elem_of_singleton. reflexivity.
  - eapply moment_return.
    + eapply moment_continue.
      * eapply moment_pop; [apply moment_seeded | reflexivity].
      * reflexivity.
    + reflexivity.
Qed.

(** ** The stack discipline of [active_threads_] *)

Section Frame.

Variable bytecode_ : list RegExpInstruction.

(** [st] with the threads [below] under its active threads. *)
Local Abbreviation over below st :=
  (set_active_threads (below ++ active_threads_ st) st).

Lemma RunActiveThread_body_index t st r :
  RunActiveThread_body bytecode_ t st = Some r ->
  input_index_ (state_after r) = input_index_ st.
Proof.
  unfold RunActiveThread_body.
  destruct (IsPcProcessed (pc t) st) as [[|] |]; try discriminate.
  { intros [= <-]. reflexivity. }
  unfold MarkPcProcessed.
  destruct (vec_store (pc_last_input_index_ st) (pc t) (input_index_ st));
    [| discriminate].
  destruct (vec_at bytecode_ (pc t)) as [[lo hi | target | target |] |];
    intros [= <-]; reflexivity.
Qed.

Lemma RunActiveThread_loop_index (n : nat) :
  forall t st st',
    RunActiveThread_loop bytecode_ n t st = Some st' ->
    input_index_ st' = input_index_ st.
Proof.
  induction n as [| n IH]; intros t st st' Hrun; [discriminate |].
  simpl in Hrun.
  destruct (RunActiveThread_body bytecode_ t st) as [r |] eqn:Hbody; [| discriminate].
  apply RunActiveThread_body_index in Hbody.
  destruct r as [[t1 st1] | st1]; simpl in Hbody.
  - rewrite <- Hbody. eapply IH; eauto.
  - inversion Hrun; subst. exact Hbody.
Qed.

(** An iteration of [RunActiveThread] does not look at [active_threads_]: it
    appends to it, or empties it when the thread accepts. *)
Lemma RunActiveThread_body_frame (below : list InterpreterThread) t st r :
  RunActiveThread_body bytecode_ t st = Some r ->
  (forall q, processed st q -> processed (state_after r) q) /\
  match r with
  | Continue (t', st') =>
      RunActiveThread_body bytecode_ t (over below st)
      = Some (Continue (t', over below st')) /\
      quiet_since bytecode_ st st'
  | Return st' =>
      (RunActiveThread_body bytecode_ t (over below st) = Some (Return (over below st')) /\
       quiet_since bytecode_ st st') \/
      (RunActiveThread_body bytecode_ t (over below st) = Some (Return st') /\
       active_threads_ st' = [] /\
       accepted_since bytecode_ st st')
  end.
Proof.
  unfold RunActiveThread_body.
  change (IsPcProcessed (pc t) (over below st)) with (IsPcProcessed (pc t) st).
  destruct (IsPcProcessed (pc t) st) as [[|] |] eqn:Hp; [| | discriminate].
  - intros [= <-]. split; [auto |]. left. split; [reflexivity |].
    intros q _ H. exact H.
  - apply IsPcProcessed_false in Hp as [Hnp Hr].
    rewrite (MarkPcProcessed_Some (pc t) st Hr),
            (MarkPcProcessed_Some (pc t) (over below st) Hr).
    assert (Hmono : forall q, processed st q -> processed (mark (pc t) st) q).
    { intros q Hq. apply (processed_mark (pc t) q st Hr). right. exact Hq. }
    assert (Hquiet : vec_at bytecode_ (pc t) <> Some ACCEPT ->
                     quiet_since bytecode_ st (mark (pc t) st)).
    { intros Hne q Hq Hm. apply (processed_mark (pc t) q st Hr) in Hm as [-> | Hm];
        [contradiction | exact Hm]. }
    destruct (vec_at bytecode_ (pc t)) as [[lo hi | target | target |] |] eqn:Hi;
      intros [= <-]; (split; [exact Hmono |]).
    + left. split; [reflexivity |]. apply Hquiet. discriminate.
    + split; [| apply Hquiet; discriminate]. simpl. rewrite app_assoc. reflexivity.
    + split; [reflexivity |]. apply Hquiet. discriminate.
    + right. split; [reflexivity |]. split; [reflexivity |].
      exists (pc t). split; [exact Hi |]. split; [exact Hnp |].
      apply (processed_mark_same (pc t) st Hr).
Qed.

Lemma RunActiveThread_loop_frame (below : list InterpreterThread) (n : nat) :
  forall t st st',
    RunActiveThread_loop bytecode_ n t st = Some st' ->
    (forall q, processed st q -> processed st' q) /\
    ((RunActiveThread_loop bytecode_ n t (over below st) = Some (over below st') /\
      quiet_since bytecode_ st st') \/
     (RunActiveThread_loop bytecode_ n t (over below st) = Some st' /\
      active_threads_ st' = [] /\
      accepted_since bytecode_ st st')).
Proof.
  induction n as [| n IH]; intros t st st' Hrun; [discriminate |].
  simpl in *.
  destruct (RunActiveThread_body bytecode_ t st) as [r |] eqn:Hbody; [| discriminate].
  destruct (RunActiveThread_body_frame below t st r Hbody) as [Hmono Hframe].
  destruct r as [[t1 st1] | st1]; simpl in Hmono.
  - destruct Hframe as [Hframe Hquiet]. rewrite Hframe.
    destruct (IH t1 st1 st' Hrun) as [Hmono' [[H Hq] | (H & Hnil & q & Hq1 & Hq2 & Hq3)]].
    + split; [auto |]. left. split; [exact H |].
      intros q Hq1 Hq2. apply Hquiet, Hq; assumption.
    + split; [auto |]. right. split; [exact H |]. split; [exact Hnil |].
      exists q. split; [exact Hq1 |]. split; [| exact Hq3].
      intros Hq. apply Hq2, Hmono, Hq.
  - inversion Hrun; subst. split; [exact Hmono |].
    destruct Hframe as [[H Hq] | (H & Hnil & Hacc)]; rewrite H.
    + left. split; [reflexivity | exact Hq].
    + right. split; [reflexivity |]. split; [exact Hnil | exact Hacc].
Qed.

(** Running the drain with more threads underneath: the threads on top, and
    all they fork, are run to the end first, as if they were alone; then,
    unless one of them accepted, the threads underneath are run. *)
Lemma RunActiveThreads_loop_frame (below : list InterpreterThread) (gas n : nat) :
  forall st st1,
    RunActiveThreads_loop bytecode_ gas n st = Some st1 ->
    (forall q, processed st q -> processed st1 q) /\
    (((forall m st',
          RunActiveThreads_loop bytecode_ gas m (set_active_threads below st1) = Some st' ->
          RunActiveThreads_loop bytecode_ gas (n + m) (over below st) = Some st') /\
      quiet_since bytecode_ st st1) \/
     (RunActiveThreads_loop bytecode_ gas n (over below st) = Some st1 /\
      accepted_since bytecode_ st st1)).
Proof.
  induction n as [| n IH]; intros st st1 Hrun; [discriminate |].
  cbn [RunActiveThreads_loop] in Hrun.
  destruct (pop_back (active_threads_ st)) as [[rest t] |] eqn:Hpop.
  - apply pop_back_Some in Hpop.
    destruct (RunActiveThread bytecode_ gas t (set_active_threads rest st))
      as [st2 |] eqn:Hone; [| discriminate].
    assert (Hpop' : pop_back (active_threads_ (over below st)) = Some (below ++ rest, t)).
    { simpl. rewrite Hpop, app_assoc. apply pop_back_app. }
    destruct (RunActiveThread_loop_frame below gas t _ st2 Hone) as [Hmono Hframe].
    change (set_active_threads
              (below ++ active_threads_ (set_active_threads rest st))
              (set_active_threads rest st))
      with (set_active_threads (below ++ rest) (over below st)) in Hframe.
    change (forall q, processed st q -> processed st2 q) in Hmono.
    change (quiet_since bytecode_ (set_active_threads rest st) st2)
      with (quiet_since bytecode_ st st2) in Hframe.
    change (accepted_since bytecode_ (set_active_threads rest st) st2)
      with (accepted_since bytecode_ st st2) in Hframe.
    destruct Hframe as [[Hf Hq] | (Hf & Hnil & Hacc)].
    + destruct (IH st2 st1 Hrun)
        as [Hmono' [[Hrest Hq'] | (Hrest & q & Hq1 & Hq2 & Hq3)]].
      * split; [auto |]. left. split.
        -- intros m st' Hm. cbn [Nat.add RunActiveThreads_loop].
           rewrite Hpop'. unfold RunActiveThread. rewrite Hf.
           apply Hrest, Hm.
        -- intros q Hq1 Hq2. apply Hq, Hq'; assumption.
      * split; [auto |]. right. split.
        -- cbn [RunActiveThreads_loop].
           rewrite Hpop'. unfold RunActiveThread. rewrite Hf. exact Hrest.
        -- exists q. split; [exact Hq1 |]. split; [| exact Hq3].
           intros Hq0. apply Hq2, Hmono, Hq0.
    + assert (Hst : st1 = st2).
      { destruct n as [| n]; [discriminate |]. simpl in Hrun. rewrite Hnil in Hrun.
        simpl in Hrun. congruence. }
      subst st2. split; [exact Hmono |]. right. split; [| exact Hacc].
      cbn [RunActiveThreads_loop]. rewrite Hpop'. unfold RunActiveThread.
      rewrite Hf. exact Hrun.
  - apply pop_back_None in Hpop. inversion Hrun; subst. split; [auto |]. left. split.
    + intros m st' Hm.
      replace (over below st1) with (set_active_threads below st1)
        by (rewrite Hpop, app_nil_r; reflexivity).
      apply (RunActiveThreads_loop_mono bytecode_ gas gas m); auto. lia.
    + intros q _ H. exact H.
Qed.

Lemma RunActiveThreads_loop_index (gas n : nat) :
  forall st st',
    RunActiveThreads_loop bytecode_ gas n st = Some st' ->
    input_index_ st' = input_index_ st.
Proof.
  induction n as [| n IH]; intros st st' Hrun; [discriminate |].
  simpl in Hrun. destruct (pop_back (active_threads_ st)) as [[rest t] |].
  - destruct (RunActiveThread bytecode_ gas t (set_active_threads rest st))
      as [st1 |] eqn:Hone; [| discriminate].
    apply RunActiveThread_loop_index in Hone. apply IH in Hrun.
    simpl in Hone. congruence.
  - congruence.
Qed.

End Frame.



(** ** The backtracking VM *)

Section Backtracking.

Variable bytecode_ : list RegExpInstruction.
Variable input_ : list Z.

Local Abbreviation bt := (Backtrack bytecode_ input_).
Local Abbreviation fm := (first_match bytecode_ input_).

Lemma Backtrack_mono (n : nat) :
  forall m p pos r, (n <= m)%nat -> bt n p pos = Some r -> bt m p pos = Some r.
Proof.
  induction n as [| n IH]; intros m p pos r Hle H; [discriminate |].
  destruct m as [| m]; [lia |]. simpl in *.
  destruct (vec_at bytecode_ p) as [[lo hi | target | target |] |]; auto.
  - destruct (vec_at input_ pos) as [c |]; auto.
    destruct ((lo <=? c) && (c <=? hi)); auto. apply IH; [lia | exact H].
  - destruct (bt n (p + 1) pos) as [[e |] |] eqn:E; [| | discriminate].
    + rewrite (IH m _ _ _ ltac:(lia) E). exact H.
    + rewrite (IH m _ _ _ ltac:(lia) E). apply IH; [lia | exact H].
  - apply IH; [lia | exact H].
Qed.

Lemma Backtrack_det (n m : nat) p pos r r' :
  bt n p pos = Some r -> bt m p pos = Some r' -> r = r'.
Proof.
  intros H H'.
  apply (Backtrack_mono n (Nat.max n m)) in H; [| lia].
  apply (Backtrack_mono m (Nat.max n m)) in H'; [| lia]. congruence.
Qed.

Lemma first_match_mono (n m : nat) (pos : Z) (ts : list InterpreterThread) ro :
  (n <= m)%nat -> fm n pos ts = Some ro -> fm m pos ts = Some ro.
Proof.
  intros Hle. induction ts as [| t ts IH]; simpl; [auto |].
  destruct (bt n (pc t) pos) as [[e |] |] eqn:E; [| | discriminate].
  - rewrite (Backtrack_mono n m _ _ _ Hle E). auto.
  - rewrite (Backtrack_mono n m _ _ _ Hle E). exact IH.
Qed.

Lemma first_match_app (n : nat) (pos : Z) (ts us : list InterpreterThread) :
  fm n pos (ts ++ us)
  = match fm n pos ts with
    | Some None => fm n pos us
    | o => o
    end.
Proof.
  induction ts as [| t ts IH]; simpl; [reflexivity |].
  destruct (bt n (pc t) pos) as [[e |] |]; auto.
Qed.

Lemma BacktrackSearch_mono (n m : nat) (starts : nat) :
  (n <= m)%nat ->
  forall start R,
    BacktrackSearch bytecode_ input_ n starts start = Some R ->
    BacktrackSearch bytecode_ input_ m starts start = Some R.
Proof.
  intros Hle. induction starts as [| starts IH]; intros start R; simpl; [auto |].
  destruct (bt n 0 start) as [[e |] |] eqn:E; [| | discriminate].
  - rewrite (Backtrack_mono n m _ _ _ Hle E). auto.
  - rewrite (Backtrack_mono n m _ _ _ Hle E). apply IH.
Qed.

(** The instructions, as the backtracking VM runs them. *)
Lemma Backtrack_accept (n : nat) p pos r :
  vec_at bytecode_ p = Some ACCEPT -> bt n p pos = Some r -> r = Some pos.
Proof.
  intros Hi. destruct n as [| n]; [discriminate |]. simpl. rewrite Hi. congruence.
Qed.

Lemma Backtrack_jmp (n : nat) p pos target r :
  vec_at bytecode_ p = Some (JMP target) ->
  bt n p pos = Some r ->
  exists n', n = S n' /\ bt n' target pos = Some r.
Proof.
  intros Hi. destruct n as [| n]; [discriminate |]. simpl. rewrite Hi. eauto.
Qed.

Lemma Backtrack_fork (n : nat) p pos target r :
  vec_at bytecode_ p = Some (FORK target) ->
  bt n p pos = Some r ->
  exists n',
    n = S n' /\
    (bt n' (p + 1) pos = Some r /\ r <> None \/
     bt n' (p + 1) pos = Some None /\ bt n' target pos = Some r).
Proof.
  intros Hi. destruct n as [| n]; [discriminate |]. simpl. rewrite Hi.
  destruct (bt n (p + 1) pos) as [[e |] |] eqn:E; [| | discriminate].
  - intros [= <-]. exists n. split; [reflexivity |]. left. split; [exact E | discriminate].
  - intros H. exists n. split; [reflexivity |]. right. auto.
Qed.

Lemma Backtrack_consume (n : nat) p pos lo hi r :
  vec_at bytecode_ p = Some (CONSUME_RANGE lo hi) ->
  bt n p pos = Some r ->
  match vec_at input_ pos with
  | Some c =>
      if (lo <=? c) && (c <=? hi)
      then exists n', n = S n' /\ bt n' (p + 1) (pos + 1) = Some r
      else r = None
  | None => r = None
  end.
Proof.
  intros Hi. destruct n as [| n]; [discriminate |]. simpl. rewrite Hi.
  destruct (vec_at input_ pos) as [c |]; [| congruence].
  destruct ((lo <=? c) && (c <=? hi)); [eauto | congruence].
Qed.

End Backtracking.

(** ** The interpreter against the backtracking VM *)

Section Refinement.

Variable bytecode_ : list RegExpInstruction.
Variable input_ : list Z.
Hypothesis Hvalid : valid_program bytecode_.

Local Abbreviation bt := (Backtrack bytecode_ input_).
Local Abbreviation fm := (first_match bytecode_ input_).
Local Abbreviation wf := (wf_state bytecode_ input_).

Lemma first_match_fork (n : nat) (pos : Z) t target ts ro :
  vec_at bytecode_ (pc t) = Some (FORK target) ->
  fm n pos (t :: ts) = Some ro ->
  fm n pos (with_pc (pc t + 1) t :: with_pc target t :: ts) = Some ro.
Proof.
  intros Hi. simpl.
  destruct (bt n (pc t) pos) as [[e |] |] eqn:E; [| | discriminate].
  - destruct (Backtrack_fork _ _ _ _ _ _ _ Hi E) as (n' & -> & [[H1 _] | [H1 H2]]).
    + rewrite (Backtrack_mono _ _ n' (S n') _ _ _ ltac:(lia) H1). auto.
    + rewrite (Backtrack_mono _ _ n' (S n') _ _ _ ltac:(lia) H1).
      rewrite (Backtrack_mono _ _ n' (S n') _ _ _ ltac:(lia) H2). auto.
  - destruct (Backtrack_fork _ _ _ _ _ _ _ Hi E) as (n' & -> & [[_ H1] | [H1 H2]]).
    + contradiction.
    + rewrite (Backtrack_mono _ _ n' (S n') _ _ _ ltac:(lia) H1).
      rewrite (Backtrack_mono _ _ n' (S n') _ _ _ ltac:(lia) H2). auto.
Qed.

Lemma first_match_jmp (n : nat) (pos : Z) t target ts ro :
  vec_at bytecode_ (pc t) = Some (JMP target) ->
  fm n pos (t :: ts) = Some ro ->
  fm n pos (with_pc target t :: ts) = Some ro.
Proof.
  intros Hi. simpl.
  destruct (bt n (pc t) pos) as [r |] eqn:E; [| discriminate].
  destruct (Backtrack_jmp _ _ _ _ _ _ _ Hi E) as (n' & -> & H1).
  rewrite (Backtrack_mono _ _ n' (S n') _ _ _ ltac:(lia) H1). auto.
Qed.

Lemma first_match_fail_head (n m : nat) (pos : Z) t ts ro :
  bt m (pc t) pos = Some None ->
  fm n pos (t :: ts) = Some ro ->
  fm n pos ts = Some ro.
Proof.
  intros Hfail. simpl.
  destruct (bt n (pc t) pos) as [r |] eqn:E; [| discriminate].
  rewrite (Backtrack_det _ _ _ _ _ _ _ _ E Hfail). auto.
Qed.

Lemma yields_nil (n : nat) (pos : Z) : yields bytecode_ input_ n pos [] None.
Proof. exists None. split; reflexivity. Qed.

Lemma outcome_eq (n : nat) cur st :
  outcome bytecode_ input_ n cur st
  = match fm n (input_index_ st) (blocked_threads_ st) with
    | Some None =>
        match fm n (input_index_ st) (pending cur st) with
        | Some None => fallback bytecode_ input_ n st
        | o => o
        end
    | o => o
    end.
Proof.
  unfold outcome. rewrite first_match_app.
  destruct (fm n (input_index_ st) (blocked_threads_ st)) as [[m |] |]; reflexivity.
Qed.

Lemma blocked_fail_app st (ts : list InterpreterThread) t :
  (exists n, fm n (input_index_ st) (ts ++ [t]) = Some None) ->
  (exists n, fm n (input_index_ st) ts = Some None) /\
  (exists n, bt n (pc t) (input_index_ st) = Some None).
Proof.
  intros [n H]. rewrite first_match_app in H.
  destruct (fm n (input_index_ st) ts) as [[m |] |] eqn:E; try discriminate.
  split; [eauto |]. simpl in H.
  destruct (bt n (pc t) (input_index_ st)) as [[e |] |] eqn:E'; try discriminate. eauto.
Qed.

(** A thread that arrives at a processed program counter fails, if the
    blocked threads do: it is safe to drop it. *)
Lemma dropped_thread_fails t st :
  covered bytecode_ input_ (Some t) st ->
  processed st (pc t) ->
  blocked_fail bytecode_ input_ st ->
  forall n r, bt n (pc t) (input_index_ st) = Some r -> r = None.
Proof.
  intros Hcov Hp Hbf n. induction n as [n IH] using lt_wf_ind. intros r Hbt.
  destruct (Hcov (pc t) n r Hp Hbf Hbt) as (k & n' & Hlt & ro & Hfm & ->).
  destruct k as [| k]; simpl in Hfm.
  - inversion Hfm; subst. reflexivity.
  - destruct (bt n' (pc t) (input_index_ st)) as [x |] eqn:E; [| discriminate].
    pose proof (IH n' Hlt x E) as ->.
    pose proof (Backtrack_det _ _ _ _ _ _ _ _ Hbt E) as Heq.
    destruct ro; [discriminate | reflexivity].
Qed.

Lemma pending_Some t st :
  pending (Some t) st = t :: rev (active_threads_ st).
Proof. reflexivity. Qed.

Lemma pending_None st : pending None st = rev (active_threads_ st).
Proof. reflexivity. Qed.

Lemma fallback_same (n : nat) st st' :
  best_match_ st' = best_match_ st ->
  input_index_ st' = input_index_ st ->
  fallback bytecode_ input_ n st' = fallback bytecode_ input_ n st.
Proof. unfold fallback. intros -> ->. reflexivity. Qed.

Lemma last_mark (p : Z) st :
  (forall (k : nat) (v : Z),
      pc_last_input_index_ st !! k = Some v -> v <= input_index_ st) ->
  forall (k : nat) (v : Z),
    pc_last_input_index_ (mark p st) !! k = Some v -> v <= input_index_ st.
Proof.
  intros Hlast k v. simpl. intros Hk.
  destruct (decide (Z.to_nat p = k)) as [<- | Hne].
  - destruct (decide (Z.to_nat p < length (pc_last_input_index_ st))%nat).
    + rewrite list_lookup_insert_eq in Hk by assumption. inversion Hk. lia.
    + rewrite list_insert_ge in Hk by lia. eapply Hlast; eauto.
  - rewrite list_lookup_insert_ne in Hk by assumption. eapply Hlast; eauto.
Qed.

Lemma agrees_processed R t st :
  agrees bytecode_ input_ R (Some t) st ->
  processed st (pc t) ->
  agrees bytecode_ input_ R None st.
Proof.
  intros [[n Hout] [Hcov | [Hc _]] Hlast] Hp; [| discriminate].
  rewrite outcome_eq, pending_Some in Hout.
  constructor; [| left | exact Hlast].
  - exists n. rewrite outcome_eq, pending_None.
    destruct (fm n (input_index_ st) (blocked_threads_ st)) as [[m |] |] eqn:EB;
      try exact Hout.
    assert (Hbf : blocked_fail bytecode_ input_ st) by (exists n; exact EB).
    simpl in Hout.
    destruct (bt n (pc t) (input_index_ st)) as [x |] eqn:E; [| discriminate].
    rewrite (dropped_thread_fails t st Hcov Hp Hbf n x E) in Hout. exact Hout.
  - intros q n0 r Hq Hbf Hbt.
    destruct (Hcov q n0 r Hq Hbf Hbt) as (k & n' & Hlt & ro & Hfm & Hr).
    rewrite pending_Some in Hfm. rewrite pending_None. destruct k as [| k].
    + exists O, n'. split; [exact Hlt |]. exists ro. auto.
    + exists k, n'. split; [exact Hlt |]. exists ro. split; [| exact Hr].
      simpl in Hfm.
      destruct (bt n' (pc t) (input_index_ st)) as [x |] eqn:E; [| discriminate].
      rewrite (dropped_thread_fails t st Hcov Hp Hbf n' x E) in Hfm. exact Hfm.
Qed.

Lemma agrees_consume R t st lo hi :
  agrees bytecode_ input_ R (Some t) st ->
  vec_at bytecode_ (pc t) = Some (CONSUME_RANGE lo hi) ->
  length (pc_last_input_index_ st) = length bytecode_ ->
  agrees bytecode_ input_ R None
    (set_blocked_threads (blocked_threads_ st ++ [t]) (mark (pc t) st)).
Proof.
  intros [[n Hout] [Hcov | [Hc _]] Hlast] Hi Hlen; [| discriminate].
  pose proof (vec_at_lt _ _ _ Hi) as Hr.
  constructor; [| left | apply last_mark, Hlast].
  - exists n. unfold outcome in *. rewrite pending_Some in Hout.
    rewrite pending_None. simpl blocked_threads_. simpl input_index_.
    simpl active_threads_. rewrite <- app_assoc.
    rewrite (fallback_same n st) by reflexivity. exact Hout.
  - intros q n0 r Hq Hbf Hbt.
    unfold blocked_fail in Hbf. simpl in Hbf, Hbt.
    apply blocked_fail_app in Hbf as [HB [m Ht]].
    change (processed (mark (pc t) st) q) in Hq.
    apply processed_mark in Hq; [| lia].
    rewrite pending_None. simpl input_index_. simpl active_threads_.
    destruct Hq as [-> | Hq].
    + pose proof (Backtrack_det _ _ _ _ _ _ _ _ Hbt Ht) as ->.
      exists O, O. split; [destruct n0; [discriminate | lia] |]. apply yields_nil.
    + destruct (Hcov q n0 r Hq HB Hbt) as (k & n' & Hlt & ro & Hfm & Hro).
      rewrite pending_Some in Hfm. destruct k as [| k].
      * exists O, n'. split; [exact Hlt |]. exists ro. auto.
      * exists k, n'. split; [exact Hlt |]. exists ro. split; [| exact Hro].
        simpl take in Hfm. eapply first_match_fail_head; eauto.
Qed.

Lemma agrees_fork R t st target :
  agrees bytecode_ input_ R (Some t) st ->
  vec_at bytecode_ (pc t) = Some (FORK target) ->
  length (pc_last_input_index_ st) = length bytecode_ ->
  agrees bytecode_ input_ R (Some (with_pc (pc t + 1) t))
    (set_active_threads (active_threads_ st ++ [with_pc target t]) (mark (pc t) st)).
Proof.
  intros [[n Hout] [Hcov | [Hc _]] Hlast] Hi Hlen; [| discriminate].
  pose proof (vec_at_lt _ _ _ Hi) as Hr.
  assert (Hpend : forall s,
             active_threads_ s = active_threads_ st ++ [with_pc target t] ->
             pending (Some (with_pc (pc t + 1) t)) s
             = with_pc (pc t + 1) t :: with_pc target t :: rev (active_threads_ st)).
  { intros s Hs. unfold pending. rewrite Hs, rev_app_distr. reflexivity. }
  constructor; [| left | apply last_mark, Hlast].
  - exists n. rewrite outcome_eq in *. rewrite Hpend by reflexivity.
    rewrite pending_Some in Hout. simpl input_index_. simpl blocked_threads_.
    rewrite (fallback_same n st) by reflexivity.
    destruct (fm n (input_index_ st) (blocked_threads_ st)) as [[m |] |]; try exact Hout.
    destruct (fm n (input_index_ st) (t :: rev (active_threads_ st))) as [ro |] eqn:EP;
      [| discriminate Hout].
    rewrite (first_match_fork _ _ _ _ _ _ Hi EP). exact Hout.
  - intros q n0 r Hq Hbf Hbt. rewrite Hpend by reflexivity.
    change (blocked_fail bytecode_ input_ st) in Hbf.
    change (processed (mark (pc t) st) q) in Hq. simpl in Hbt. simpl input_index_.
    apply processed_mark in Hq; [| lia]. destruct Hq as [-> | Hq].
    + destruct (Backtrack_fork _ _ _ _ _ _ _ Hi Hbt) as (n' & -> & [[H1 Hne] | [H1 H2]]).
      * exists 2%nat, n'. split; [lia |]. unfold yields. simpl. rewrite H1.
        destruct r as [e |]; [| contradiction]. eexists. split; reflexivity.
      * exists 2%nat, n'. split; [lia |]. unfold yields. simpl. rewrite H1, H2.
        destruct r as [e |]; eexists; split; reflexivity.
    + destruct (Hcov q n0 r Hq Hbf Hbt) as (k & n' & Hlt & ro & Hfm & Hro).
      rewrite pending_Some in Hfm. destruct k as [| k].
      * exists O, n'. split; [exact Hlt |]. exists ro. auto.
      * exists (S (S k)), n'. split; [exact Hlt |]. exists ro. split; [| exact Hro].
        simpl take in *. apply first_match_fork; assumption.
Qed.

Lemma agrees_jmp R t st target :
  agrees bytecode_ input_ R (Some t) st ->
  vec_at bytecode_ (pc t) = Some (JMP target) ->
  length (pc_last_input_index_ st) = length bytecode_ ->
  agrees bytecode_ input_ R (Some (with_pc target t)) (mark (pc t) st).
Proof.
  intros [[n Hout] [Hcov | [Hc _]] Hlast] Hi Hlen; [| discriminate].
  pose proof (vec_at_lt _ _ _ Hi) as Hr.
  constructor; [| left | apply last_mark, Hlast].
  - exists n. rewrite outcome_eq in *. rewrite pending_Some in *.
    simpl input_index_. simpl blocked_threads_. simpl active_threads_.
    rewrite (fallback_same n st) by reflexivity.
    destruct (fm n (input_index_ st) (blocked_threads_ st)) as [[m |] |]; try exact Hout.
    destruct (fm n (input_index_ st) (t :: rev (active_threads_ st))) as [ro |] eqn:EP;
      [| discriminate Hout].
    rewrite (first_match_jmp _ _ _ _ _ _ Hi EP). exact Hout.
  - intros q n0 r Hq Hbf Hbt.
    change (blocked_fail bytecode_ input_ st) in Hbf.
    simpl in Hbt. simpl input_index_. rewrite pending_Some. simpl active_threads_.
    apply processed_mark in Hq; [| lia]. destruct Hq as [-> | Hq].
    + destruct (Backtrack_jmp _ _ _ _ _ _ _ Hi Hbt) as (n' & -> & H1).
      exists 1%nat, n'. split; [lia |]. unfold yields. simpl. rewrite H1.
      destruct r as [e |]; eexists; split; reflexivity.
    + destruct (Hcov q n0 r Hq Hbf Hbt) as (k & n' & Hlt & ro & Hfm & Hro).
      rewrite pending_Some in Hfm. destruct k as [| k].
      * exists O, n'. split; [exact Hlt |]. exists ro. auto.
      * exists (S k), n'. split; [exact Hlt |]. exists ro. split; [| exact Hro].
        simpl take in *. apply first_match_jmp; assumption.
Qed.

Lemma agrees_accept R t st :
  agrees bytecode_ input_ R (Some t) st ->
  vec_at bytecode_ (pc t) = Some ACCEPT ->
  agrees bytecode_ input_ R None
    (set_active_threads []
       (set_best_match (Some {| begin := match_begin t; end_ := input_index_ st |})
          (mark (pc t) st))).
Proof.
  intros [[n Hout] _ Hlast] Hi.
  constructor; [| right; split; reflexivity | exact (last_mark (pc t) st Hlast)].
  exists n. rewrite outcome_eq in *. rewrite pending_Some in Hout.
  rewrite pending_None. simpl input_index_. simpl blocked_threads_.
  simpl active_threads_.
  destruct (fm n (input_index_ st) (blocked_threads_ st)) as [[m |] |]; try exact Hout.
  simpl in Hout. simpl.
  destruct (bt n (pc t) (input_index_ st)) as [x |] eqn:E; [| discriminate].
  rewrite (Backtrack_accept _ _ _ _ _ _ Hi E) in Hout. exact Hout.
Qed.

(** The invariant is kept by every iteration of [RunActiveThread]. *)
Lemma agrees_step R t st r :
  wf (Some t) st ->
  agrees bytecode_ input_ R (Some t) st ->
  RunActiveThread_case bytecode_ t st r ->
  match r with
  | Return st' => agrees bytecode_ input_ R None st'
  | Continue (t', st') => agrees bytecode_ input_ R (Some t') st'
  end.
Proof.
  intros Hwf Hag Hcase. pose proof (wf_last _ _ _ _ Hwf) as Hlen.
  destruct Hcase.
  - eapply agrees_processed; eauto.
  - eapply agrees_consume; eauto.
  - apply agrees_fork; assumption.
  - apply agrees_jmp; assumption.
  - apply agrees_accept; assumption.
Qed.

Lemma agrees_pop R st rest t :
  agrees bytecode_ input_ R None st ->
  active_threads_ st = rest ++ [t] ->
  agrees bytecode_ input_ R (Some t) (set_active_threads rest st).
Proof.
  intros [[n Hout] Hcov Hlast] Hpop.
  assert (Hpend : pending None st = pending (Some t) (set_active_threads rest st)).
  { unfold pending. rewrite Hpop, rev_app_distr. reflexivity. }
  constructor; [| left | exact Hlast].
  - exists n. unfold outcome in *. rewrite <- Hpend. exact Hout.
  - destruct Hcov as [Hcov | [_ Hnil]].
    + intros q n0 r Hq Hbf Hbt. rewrite <- Hpend. apply (Hcov q n0 r Hq Hbf Hbt).
    + rewrite Hnil in Hpop. destruct rest; discriminate.
Qed.

Lemma first_match_unblocked (n : nat) (pos c : Z) (ts : list InterpreterThread) :
  Forall (parked bytecode_) ts ->
  vec_at input_ pos = Some c ->
  forall ro,
    fm n pos ts = Some ro ->
    fm n (pos + 1) (unblocked bytecode_ c ts) = Some ro.
Proof.
  intros Hpark Hc. induction Hpark as [| t ts (lo & hi & Hi) Hts IH]; intros ro Hfm.
  - exact Hfm.
  - rewrite unblocked_cons. unfold takes. rewrite Hi. simpl in Hfm.
    destruct (bt n (pc t) pos) as [x |] eqn:E; [| discriminate].
    pose proof (Backtrack_consume _ _ _ _ _ _ _ _ Hi E) as Hx. rewrite Hc in Hx.
    destruct ((lo <=? c) && (c <=? hi)).
    + destruct Hx as (n' & -> & Hx). unfold with_pc.
      cbn [first_match pc match_begin].
      rewrite (Backtrack_mono _ _ n' (S n') _ _ _ ltac:(lia) Hx).
      destruct x as [e |]; [exact Hfm | apply IH, Hfm].
    + subst x. apply IH, Hfm.
Qed.

Lemma first_match_at_end (n : nat) (pos : Z) (ts : list InterpreterThread) :
  Forall (parked bytecode_) ts ->
  vec_at input_ pos = None ->
  forall ro, fm n pos ts = Some ro -> ro = None.
Proof.
  intros Hpark Hc. induction Hpark as [| t ts (lo & hi & Hi) Hts IH]; intros ro Hfm.
  - inversion Hfm. reflexivity.
  - simpl in Hfm.
    destruct (bt n (pc t) pos) as [x |] eqn:E; [| discriminate].
    pose proof (Backtrack_consume _ _ _ _ _ _ _ _ Hi E) as Hx. rewrite Hc in Hx.
    subst x. apply IH, Hfm.
Qed.

Lemma pending_fed c st :
  active_threads_ st = [] ->
  pending None (fed bytecode_ c st)
  = unblocked bytecode_ c (blocked_threads_ st)
    ++ (if has_value (best_match_ st) then []
        else [{| pc := 0; match_begin := input_index_ st + 1 |}]).
Proof.
  intros Hnil. rewrite pending_None. simpl. rewrite Hnil. simpl.
  rewrite rev_app_distr, unblocked_rev, rev_involutive.
  destruct (best_match_ st); reflexivity.
Qed.

(** The invariant is kept by an input step. *)
Lemma agrees_fed R st c :
  wf None st ->
  agrees bytecode_ input_ R None st ->
  active_threads_ st = [] ->
  FindNextMatch_cond input_ st = true ->
  vec_at input_ (input_index_ st) = Some c ->
  agrees bytecode_ input_ R None (fed bytecode_ c st).
Proof.
  intros Hwf [[n Hout] _ Hlast] Hnil Hcond Hc.
  apply FindNextMatch_cond_true in Hcond as [Hne _].
  pose proof (wf_index _ _ _ _ Hwf) as Hidx.
  rewrite outcome_eq, pending_None, Hnil in Hout. simpl in Hout.
  constructor.
  - exists n. rewrite outcome_eq, (pending_fed c st Hnil), first_match_app.
    change (blocked_threads_ (fed bytecode_ c st)) with (@nil InterpreterThread).
    change (input_index_ (fed bytecode_ c st)) with (input_index_ st + 1).
    cbn [first_match].
    destruct (fm n (input_index_ st) (blocked_threads_ st)) as [ro |] eqn:EB;
      [| discriminate Hout].
    rewrite (first_match_unblocked n _ c _ (wf_blocked _ _ _ _ Hwf) Hc ro EB).
    destruct ro as [m |]; [exact Hout |].
    unfold fallback in *.
    change (best_match_ (fed bytecode_ c st)) with (best_match_ st).
    change (input_index_ (fed bytecode_ c st)) with (input_index_ st + 1).
    destruct (best_match_ st) as [m |]; [exact Hout |]. cbn [has_value first_match pc].
    replace (Z.to_nat (Z.of_nat (length input_) - input_index_ st))
      with (S (Z.to_nat (Z.of_nat (length input_) - (input_index_ st + 1)))) in Hout
      by lia.
    cbn [BacktrackSearch] in Hout.
    destruct (bt n 0 (input_index_ st + 1)) as [[e |] |]; exact Hout.
  - left. intros q n0 r Hq _ _. exfalso.
    unfold processed in Hq. apply vec_at_Some in Hq as [_ Hq].
    apply Hlast in Hq. simpl in Hq. lia.
  - intros k v Hk. apply Hlast in Hk. simpl. lia.
Qed.

(** The invariant holds when the search starts. *)
Lemma agrees_seeded R st (n : nat) :
  ready bytecode_ input_ st ->
  BacktrackFindNextMatch bytecode_ input_ n (input_index_ st) = Some R ->
  agrees bytecode_ input_ R None (seeded st).
Proof.
  intros [Hlen Hidx Hact Hblk Hbest] Hbt. unfold BacktrackFindNextMatch in Hbt.
  replace (Z.to_nat (Z.of_nat (length input_) - input_index_ st + 1))
    with (S (Z.to_nat (Z.of_nat (length input_) - input_index_ st))) in Hbt by lia.
  cbn [BacktrackSearch] in Hbt.
  constructor.
  - exists n. rewrite outcome_eq, pending_None. unfold fallback.
    change (blocked_threads_ (seeded st)) with (blocked_threads_ st).
    change (best_match_ (seeded st)) with (best_match_ st).
    change (input_index_ (seeded st)) with (input_index_ st).
    change (active_threads_ (seeded st))
      with (active_threads_ st ++ [{| pc := 0; match_begin := input_index_ st |}]).
    rewrite Hblk, Hbest, Hact. simpl.
    destruct (bt n 0 (input_index_ st)) as [[e |] |]; exact Hbt.
  - left. intros q n0 r Hq _ _. exfalso.
    unfold processed in Hq. apply vec_at_Some in Hq as [_ Hq]. simpl in Hq.
    apply lookup_replicate in Hq as [Hq _]. lia.
  - intros k v Hk. simpl in Hk. apply lookup_replicate in Hk as [-> _]. simpl. lia.
Qed.

(** When the [while] of [FindNextMatch] ends, [best_match_] is the result of
    the backtracking VM. *)
Lemma agrees_final R st :
  wf None st ->
  agrees bytecode_ input_ R None st ->
  active_threads_ st = [] ->
  FindNextMatch_cond input_ st = false ->
  best_match_ st = R.
Proof.
  intros Hwf [[n Hout] _ _] Hnil Hcond.
  rewrite outcome_eq, pending_None, Hnil in Hout. simpl in Hout.
  unfold FindNextMatch_cond in Hcond. unfold fallback in Hout.
  apply andb_false_iff in Hcond as [Hend | Hdone].
  - apply negb_false_iff, Z.eqb_eq in Hend.
    assert (Hc : vec_at input_ (input_index_ st) = None).
    { unfold vec_at. destruct (Z.ltb_spec (input_index_ st) 0); [reflexivity |].
      apply lookup_ge_None. lia. }
    destruct (fm n (input_index_ st) (blocked_threads_ st)) as [ro |] eqn:EB;
      [| discriminate Hout].
    pose proof (first_match_at_end n _ _ (wf_blocked _ _ _ _ Hwf) Hc ro EB) as ->.
    destruct (best_match_ st) as [m |]; [congruence |].
    replace (Z.to_nat (Z.of_nat (length input_) - input_index_ st)) with O in Hout by lia.
    simpl in Hout. congruence.
  - apply negb_false_iff, andb_true_iff in Hdone as [Hbest Hblk].
    destruct (blocked_threads_ st); [| discriminate].
    destruct (best_match_ st) as [m |]; [| discriminate].
    simpl in Hout. congruence.
Qed.

End Refinement.

(** C1, as the code has it.  For a valid program and an input on which the
    backtracking VM, started at the same index, comes to a result with some
    amount of fuel, a single-match search of the interpreter returns the same
    match, or likewise none. *)
Theorem FindNextMatch_refines_Backtrack (bytecode_ : list RegExpInstruction)
    (input_ : list Z) (gas fuel : nat) (st : NfaInterpreter) (R : option MatchRange) :
  valid_program bytecode_ ->
  ready bytecode_ input_ st ->
  (3 * length bytecode_ + length input_ + 2 <= gas)%nat ->
  BacktrackFindNextMatch bytecode_ input_ fuel (input_index_ st) = Some R ->
  exists st', FindNextMatch bytecode_ input_ gas st = Some (R, st').
Proof.
  intros Hvalid Hready Hgas Hbt.
  destruct (FindNextMatch_total bytecode_ input_ gas Hvalid st Hgas Hready)
    as (r & st1 & Hrun & _ & _).
  destruct (FindNextMatch_rule bytecode_ input_ gas Hvalid (agrees bytecode_ input_ R))
    with (st := st) (r := r) (st' := cleaned st1)
    as (st2 & Hwf2 & Hag2 & Hnil2 & Hcond2 & Hr & _); auto.
  - intros t s x. apply agrees_step.
  - intros s rest t _. apply agrees_pop.
  - intros s c. apply agrees_fed.
  - eapply agrees_seeded; eauto.
  - exists (cleaned st1). rewrite Hrun, Hr.
    rewrite (agrees_final bytecode_ input_ R st2 Hwf2 Hag2 Hnil2 Hcond2). reflexivity.
Qed.

Lemma FindNextMatch_refines_Backtrack_witness :
  exists st',
    FindNextMatch [FORK 3; CONSUME_RANGE 97 97; JMP 0; ACCEPT] [97; 97; 97] 17
      (NfaInterpreter_new [FORK 3; CONSUME_RANGE 97 97; JMP 0; ACCEPT] 0)
    = Some (Some {| begin := 0; end_ := 3 |}, st').
Proof.
  apply (FindNextMatch_refines_Backtrack
           [FORK 3; CONSUME_RANGE 97 97; JMP 0; ACCEPT] [97; 97; 97] 17 12
           (NfaInterpreter_new [FORK 3; CONSUME_RANGE 97 97; JMP 0; ACCEPT] 0)).
  - reflexivity.
  - constructor; simpl; auto; lia.
  - simpl. lia.
  - reflexivity.
Defined.

(** A valid program on which the two differ: on [FORK 2; JMP 1; ACCEPT] the
    backtracking VM follows the continuation of the [FORK] into the loop
    [JMP 1] and has no result, whatever its fuel, while the interpreter drops
    the looping thread at the processed program counter and returns the
    match [(0, 0)] of the forked thread. *)
Lemma Backtrack_diverges_FindNextMatch_matches :
  FindNextMatch [FORK 2; JMP 1; ACCEPT] [] 11 (NfaInterpreter_new [FORK 2; JMP 1; ACCEPT] 0)
  = Some (Some {| begin := 0; end_ := 0 |},
          {| input_index_ := 0; pc_last_input_index_ := [0; 0; 0];
             active_threads_ := []; blocked_threads_ := []; best_match_ := None |}) /\
  forall fuel, BacktrackFindNextMatch [FORK 2; JMP 1; ACCEPT] [] fuel 0 = None.
Proof.
  split; [reflexivity |].
  assert (Hloop : forall fuel, Backtrack [FORK 2; JMP 1; ACCEPT] [] fuel 1 0 = None).
  { induction fuel as [| fuel IH]; [reflexivity | exact IH]. }
  assert (Hfork : forall fuel, Backtrack [FORK 2; JMP 1; ACCEPT] [] fuel 0 0 = None).
  { intros [| fuel]; [reflexivity |].
    change (Backtrack [FORK 2; JMP 1; ACCEPT] [] (S fuel) 0 0)
      with (match Backtrack [FORK 2; JMP 1; ACCEPT] [] fuel 1 0 with
            | None => None
            | Some (Some e) => Some (Some e)
            | Some None => Backtrack [FORK 2; JMP 1; ACCEPT] [] fuel 2 0
            end).
    rewrite Hloop. reflexivity. }
  intros fuel.
  change (BacktrackFindNextMatch [FORK 2; JMP 1; ACCEPT] [] fuel 0)
    with (match Backtrack [FORK 2; JMP 1; ACCEPT] [] fuel 0 0 with
          | None => None
          | Some (Some e) => Some (Some {| begin := 0; end_ := e |})
          | Some None => BacktrackSearch [FORK 2; JMP 1; ACCEPT] [] fuel 0 (0 + 1)
          end).
  rewrite Hfork. reflexivity.
Qed.

(** The backtracking VM on the first scenario. *)
Example Backtrack_scenario1 :
  BacktrackFindNextMatch (scenario1_program 13) scenario1_input 12 0
  = Some (Some {| begin := 0; end_ := 3 |}).
Proof. reflexivity. Qed.

(** ** The matches of a program and the result of a search *)

Section Acceptance.

Variable bytecode_ : list RegExpInstruction.
Variable input_ : list Z.

Local Abbreviation acc := (Accepts bytecode_ input_).
Local Abbreviation within := (accepts_within bytecode_ input_).

Lemma accepts_within_mono (n : nat) :
  forall m p pos e, (n <= m)%nat -> within n p pos e -> within m p pos e.
Proof.
  induction n as [| n IH]; intros m p pos e Hle H; [contradiction |].
  destruct m as [| m]; [lia |]. simpl in *.
  destruct (vec_at bytecode_ p) as [[lo hi | target | target |] |]; auto.
  - destruct (vec_at input_ pos); [| contradiction].
    destruct H as [Hc H]. split; [exact Hc |]. apply IH; [lia | exact H].
  - destruct H as [H | H]; [left | right]; (apply IH; [lia | exact H]).
  - apply IH; [lia | exact H].
Qed.

Lemma Accepts_within (p pos e : Z) :
  acc p pos e <-> exists n, within n p pos e.
Proof.
  split.
  - induction 1 as [p pos Hi | p pos lo hi c e Hi Hc Hr _ [n IH]
                    | p pos target e Hi _ [n IH] | p pos target e Hi _ [n IH]
                    | p pos target e Hi _ [n IH]];
      [exists 1%nat | exists (S n) ..]; simpl; rewrite Hi; auto.
    rewrite Hc. auto.
  - intros [n H]. revert p pos e H.
    induction n as [| n IH]; intros p pos e H; [contradiction |].
    simpl in H.
    destruct (vec_at bytecode_ p) as [[lo hi | target | target |] |] eqn:Hi;
      try contradiction.
    + destruct (vec_at input_ pos) as [c |] eqn:Hc; [| contradiction].
      destruct H as [Hr H]. eapply Accepts_consume; eauto.
    + destruct H as [H | H];
        [eapply Accepts_fork_next | eapply Accepts_fork_target]; eauto.
    + eapply Accepts_jmp; eauto.
    + subst e. apply Accepts_accept, Hi.
Qed.

Lemma Accepts_consume_inv (p pos e lo hi : Z) :
  vec_at bytecode_ p = Some (CONSUME_RANGE lo hi) ->
  acc p pos e ->
  exists c, vec_at input_ pos = Some c /\ lo <= c <= hi /\ acc (p + 1) (pos + 1) e.
Proof.
  intros Hi H. inversion H; subst; try congruence.
  replace lo with min by congruence. replace hi with max by congruence. eauto.
Qed.

Lemma Accepts_fork_inv (p pos e target : Z) :
  vec_at bytecode_ p = Some (FORK target) ->
  acc p pos e ->
  acc (p + 1) pos e \/ acc target pos e.
Proof.
  intros Hi H. inversion H; subst; try congruence.
  - left. assumption.
  - right. congruence.
Qed.

Lemma Accepts_jmp_inv (p pos e target : Z) :
  vec_at bytecode_ p = Some (JMP target) ->
  acc p pos e ->
  acc target pos e.
Proof.
  intros Hi H. inversion H; subst; congruence.
Qed.

Lemma takes_true (c : Z) (t : InterpreterThread) :
  takes bytecode_ c t = true <->
  exists lo hi, vec_at bytecode_ (pc t) = Some (CONSUME_RANGE lo hi) /\ lo <= c <= hi.
Proof.
  unfold takes. split.
  - destruct (vec_at bytecode_ (pc t)) as [[lo hi | | |] |]; try discriminate.
    intros H. apply andb_true_iff in H as [H1 H2]. exists lo, hi. split; [reflexivity | lia].
  - intros (lo & hi & -> & H). apply andb_true_iff. split; lia.
Qed.

Lemma elem_of_unblocked (c : Z) (ts : list InterpreterThread) (u : InterpreterThread) :
  u ∈ unblocked bytecode_ c ts <->
  exists t, t ∈ ts /\ takes bytecode_ c t = true /\ u = with_pc (pc t + 1) t.
Proof.
  unfold unblocked. rewrite list_elem_of_fmap. split.
  - intros (t & -> & Ht). apply list_elem_of_In, List.filter_In in Ht as [Ht Hc].
    exists t. split; [apply list_elem_of_In, Ht | auto].
  - intros (t & Ht & Hc & ->). exists t. split; [reflexivity |].
    apply list_elem_of_In, List.filter_In. split; [apply list_elem_of_In, Ht | exact Hc].
Qed.

End Acceptance.

Section Soundness.

Variable bytecode_ : list RegExpInstruction.
Variable input_ : list Z.

Local Abbreviation acc := (Accepts bytecode_ input_).
Local Abbreviation ok := (sound bytecode_ input_).

Lemma sound_step t st r :
  ok (Some t) st ->
  RunActiveThread_case bytecode_ t st r ->
  match r with
  | Return st' => ok None st'
  | Continue (t', st') => ok (Some t') st'
  end.
Proof.
  intros [Hth Hbest] Hcase. rewrite pending_Some in Hth.
  apply Forall_app in Hth as [Hblk Hpend]. apply Forall_cons in Hpend as [Ht Hact].
  destruct Hcase as [Hp | lo hi Hnp Hwt Hi | target Hnp Hwt Hi | target Hnp Hwt Hi | Hnp Hwt Hi];
    constructor; simpl; auto; rewrite ?pending_None, ?pending_Some; simpl.
  - apply Forall_app. auto.
  - rewrite <- app_assoc. apply Forall_app. split; [exact Hblk |]. constructor; assumption.
  - rewrite rev_app_distr. simpl. apply Forall_app. split; [exact Hblk |].
    constructor; [| constructor; [| exact Hact]]; intros e He; apply Ht.
    + eapply Accepts_fork_next; eauto.
    + eapply Accepts_fork_target; eauto.
  - apply Forall_app. split; [exact Hblk |].
    constructor; [| exact Hact]. intros e He. apply Ht. eapply Accepts_jmp; eauto.
  - rewrite app_nil_r. exact Hblk.
  - intros m [= <-]. simpl. apply Ht. apply Accepts_accept, Hi.
Qed.

Lemma sound_pop st rest t :
  ok None st ->
  active_threads_ st = rest ++ [t] ->
  ok (Some t) (set_active_threads rest st).
Proof.
  intros [Hth Hbest] Hpop. constructor; [| exact Hbest].
  rewrite pending_None, Hpop, rev_app_distr in Hth. exact Hth.
Qed.

Lemma sound_fed st c :
  ok None st ->
  active_threads_ st = [] ->
  vec_at input_ (input_index_ st) = Some c ->
  ok None (fed bytecode_ c st).
Proof.
  intros [Hth Hbest] Hnil Hc. constructor; [| exact Hbest].
  rewrite (pending_fed bytecode_ c st Hnil).
  change (blocked_threads_ (fed bytecode_ c st)) with (@nil InterpreterThread).
  change (input_index_ (fed bytecode_ c st)) with (input_index_ st + 1).
  apply Forall_app in Hth as [Hblk _]. rewrite Forall_forall in Hblk.
  simpl. apply Forall_app. split.
  - apply Forall_forall. intros u Hu.
    apply elem_of_unblocked in Hu as (t & Ht & Htakes & ->).
    apply takes_true in Htakes as (lo & hi & Hi & Hr).
    intros e He. apply (Hblk t Ht). eapply Accepts_consume; eauto.
  - destruct (best_match_ st); simpl; constructor; [| constructor].
    intros e He. exact He.
Qed.

Lemma sound_seeded st :
  active_threads_ st = [] -> blocked_threads_ st = [] -> best_match_ st = None ->
  ok None (seeded st).
Proof.
  intros Hact Hblk Hbest. constructor.
  - rewrite pending_None. simpl. rewrite Hact, Hblk. simpl.
    constructor; [| constructor]. intros e He. exact He.
  - simpl. rewrite Hbest. discriminate.
Qed.

End Soundness.

(** ** The result of a search is the leftmost match *)

Section Leftmost.

Variable bytecode_ : list RegExpInstruction.
Variable input_ : list Z.

Local Abbreviation acc := (Accepts bytecode_ input_).
Local Abbreviation within := (accepts_within bytecode_ input_).
Local Abbreviation lm := (leftmost bytecode_ input_).

Lemma sorted_same_begin (b : Z) (ts : list InterpreterThread) :
  Forall (fun u => match_begin u = b) ts -> StronglySorted by_begin ts.
Proof.
  induction 1 as [| u ts Hu Hts IH]; constructor; [exact IH |].
  eapply Forall_impl; [exact Hts |]. intros v Hv. unfold by_begin. simpl in Hv. lia.
Qed.

(** Threads that begin where [t] does can take the place of [t]. *)
Lemma sorted_replace (B A ts : list InterpreterThread) (t : InterpreterThread) :
  StronglySorted by_begin (B ++ t :: A) ->
  Forall (fun u => match_begin u = match_begin t) ts ->
  StronglySorted by_begin (B ++ ts ++ A).
Proof.
  rewrite !StronglySorted_app, StronglySorted_cons.
  intros (H1 & HB & Ht & HA) Hts.
  pose proof (sorted_same_begin _ _ Hts) as Hsame.
  rewrite Forall_forall in Ht, Hts.
  split; [| split; [exact HB | split; [| split; [exact Hsame | exact HA]]]].
  - intros x1 x2 Hx1 Hx2. apply elem_of_app in Hx2 as [Hx2 | Hx2].
    + pose proof (H1 x1 t Hx1 ltac:(left)) as H. pose proof (Hts x2 Hx2) as E.
      unfold by_begin in *. lia.
    + apply H1; [exact Hx1 | right; exact Hx2].
  - intros x1 x2 Hx1 Hx2. pose proof (Ht x2 Hx2) as H. pose proof (Hts x1 Hx1) as E.
    unfold by_begin in *. lia.
Qed.

Lemma Forall_replace (P : InterpreterThread -> Prop) (B A ts : list InterpreterThread)
    (t : InterpreterThread) :
  Forall P (B ++ t :: A) ->
  (P t -> Forall P ts) ->
  Forall P (B ++ ts ++ A).
Proof.
  rewrite !Forall_app, Forall_cons. intros (HB & Ht & HA) Hts. auto.
Qed.

(** The thread [t] has the highest priority of the pending threads. *)
Lemma sorted_head (B A : list InterpreterThread) (t : InterpreterThread) :
  StronglySorted by_begin (B ++ t :: A) ->
  Forall (by_begin t) (t :: A) /\ Forall (fun u => by_begin u t) B.
Proof.
  rewrite StronglySorted_app, StronglySorted_cons. intros (H1 & _ & Ht & _).
  split; [constructor; [unfold by_begin; lia | exact Ht] |].
  apply Forall_forall. intros u Hu. apply H1; [exact Hu | left].
Qed.

(** A thread that is dropped at a processed program counter is not needed:
    what it can accept, a blocked or a pending thread that does not begin
    later can accept. *)
Lemma closed_drop t st :
  closed bytecode_ input_ (Some t) st ->
  processed st (pc t) ->
  forall n e,
    within n (pc t) (input_index_ st) e ->
    exists u e',
      by_begin u t /\
      Forall (by_begin u) (rev (active_threads_ st)) /\
      ((u ∈ blocked_threads_ st /\ within n (pc u) (input_index_ st) e') \/
       (u ∈ rev (active_threads_ st) /\
        exists n', n = S n' /\ within n' (pc u) (input_index_ st) e')).
Proof.
  intros Hcl Hp. induction n as [| n IH]; intros e He; [contradiction |].
  destruct (Hcl (pc t) (S n) e Hp He) as (u & e' & Hb & Hw).
  rewrite pending_Some in Hb, Hw. apply Forall_cons in Hb as [Hbt Hb].
  destruct Hw as [[Hu Hw] | (Hu & n' & Hn & Hw)].
  - exists u, e'. split; [exact Hbt |]. split; [exact Hb |]. left. auto.
  - injection Hn as <-. apply elem_of_cons in Hu as [-> | Hu].
    + destruct (IH e' Hw) as (u' & e'' & Hb1 & Hb2 & [[Hu' Hw'] | (Hu' & n'' & -> & Hw')]).
      * exists u', e''. split; [exact Hb1 |]. split; [exact Hb2 |]. left.
        split; [exact Hu' |]. revert Hw'. apply accepts_within_mono. lia.
      * exists u', e''. split; [exact Hb1 |]. split; [exact Hb2 |]. right.
        split; [exact Hu' |]. exists (S n''). split; [reflexivity |].
        revert Hw'. apply accepts_within_mono. lia.
    + exists u, e'. split; [exact Hbt |]. split; [exact Hb |]. right.
      split; [exact Hu |]. exists n. auto.
Qed.

Lemma leftmost_processed start t st :
  lm start (Some t) st ->
  processed st (pc t) ->
  lm start None st.
Proof.
  intros [Hs Hb Hbest Halive [Hcl | [Hc _]] Hlast] Hp; [| discriminate].
  rewrite pending_Some in Hs, Hb, Hbest, Halive.
  constructor; rewrite ?pending_None.
  - apply (sorted_replace _ _ [] t Hs). constructor.
  - apply (Forall_replace _ _ _ [] t Hb). constructor.
  - intros m Hm. destruct (Hbest m Hm) as [H1 H2]. split; [exact H1 |].
    apply (Forall_replace _ _ _ [] t H2). constructor.
  - intros s e Hse Hm.
    destruct (Halive s e Hse Hm) as [Hok | (u & e' & Hu & Hle & Hacc)]; [left; exact Hok |].
    right. apply elem_of_app in Hu as [Hu | Hu].
    { exists u, e'. split; [apply elem_of_app; left; exact Hu | auto]. }
    apply elem_of_cons in Hu as [-> | Hu].
    2: { exists u, e'. split; [apply elem_of_app; right; exact Hu | auto]. }
    apply Accepts_within in Hacc as [n Hw].
    destruct (closed_drop t st Hcl Hp n e' Hw)
      as (u' & e'' & Hb1 & _ & [[Hu' Hw'] | (Hu' & n' & _ & Hw')]);
      exists u', e''; unfold by_begin in Hb1.
    + split; [apply elem_of_app; left; exact Hu' |]. split; [lia |].
      apply Accepts_within. eauto.
    + split; [apply elem_of_app; right; exact Hu' |]. split; [lia |].
      apply Accepts_within. eauto.
  - left. intros q n e Hq He.
    destruct (Hcl q n e Hq He) as (u & e' & Hbd & Hw).
    rewrite pending_Some in Hbd, Hw. apply Forall_cons in Hbd as [_ Hbd].
    destruct Hw as [[Hu Hw] | (Hu & n' & -> & Hw)].
    { exists u, e'. split; [exact Hbd |]. left. auto. }
    apply elem_of_cons in Hu as [-> | Hu].
    2: { exists u, e'. split; [exact Hbd |]. right. split; [exact Hu |]. exists n'. auto. }
    destruct (closed_drop t st Hcl Hp n' e' Hw)
      as (u' & e'' & _ & Hb2 & [[Hu' Hw'] | (Hu' & n'' & -> & Hw')]);
      exists u', e''; (split; [exact Hb2 |]).
    + left. split; [exact Hu' |]. revert Hw'. apply accepts_within_mono. lia.
    + right. split; [exact Hu' |]. exists (S n''). split; [reflexivity |].
      revert Hw'. apply accepts_within_mono. lia.
  - exact Hlast.
Qed.

(** A thread at a [CONSUME_RANGE] is blocked: it keeps its place in the
    order of priority. *)
Lemma leftmost_consume start t st lo hi :
  lm start (Some t) st ->
  vec_at bytecode_ (pc t) = Some (CONSUME_RANGE lo hi) ->
  length (pc_last_input_index_ st) = length bytecode_ ->
  lm start None (set_blocked_threads (blocked_threads_ st ++ [t]) (mark (pc t) st)).
Proof.
  intros [Hs Hb Hbest Halive [Hcl | [Hc _]] Hlast] Hi Hlen; [| discriminate].
  pose proof (vec_at_lt _ _ _ Hi) as Hr.
  rewrite pending_Some in Hs, Hb, Hbest, Halive.
  destruct (sorted_head _ _ _ Hs) as [Hhead _]. apply Forall_cons in Hhead as [_ Hhead].
  constructor; rewrite ?pending_None; simpl blocked_threads_; simpl input_index_;
    simpl best_match_; simpl active_threads_; rewrite <- ?app_assoc.
  - exact Hs.
  - exact Hb.
  - intros m Hm. rewrite <- ?app_assoc. apply (Hbest m Hm).
  - intros s e Hse Hm. rewrite <- ?app_assoc. apply (Halive s e Hse Hm).
  - left. intros q n e Hq He. rewrite pending_None.
    simpl blocked_threads_. simpl input_index_ in *. simpl active_threads_.
    change (processed (mark (pc t) st) q) in Hq.
    apply processed_mark in Hq; [| lia]. destruct Hq as [-> | Hq].
    + exists t, e. split; [exact Hhead |]. left.
      split; [apply elem_of_app; right; left | exact He].
    + destruct (Hcl q n e Hq He) as (u & e' & Hbd & Hw).
      rewrite pending_Some in Hbd, Hw. apply Forall_cons in Hbd as [_ Hbd].
      exists u, e'. split; [exact Hbd |].
      destruct Hw as [[Hu Hw] | (Hu & n' & -> & Hw)].
      * left. split; [apply elem_of_app; left; exact Hu | exact Hw].
      * apply elem_of_cons in Hu as [-> | Hu].
        -- left. split; [apply elem_of_app; right; left |].
           revert Hw. apply accepts_within_mono. lia.
        -- right. split; [exact Hu |]. exists n'. auto.
  - exact (last_mark (pc t) st Hlast).
Qed.

(** A thread that goes on without input: the threads [ts] it is replaced by
    begin where it began, and what it can accept one of them can accept in
    fewer instructions. *)
Lemma leftmost_move start t st cur' st' (ts : list InterpreterThread) :
  lm start (Some t) st ->
  input_index_ st' = input_index_ st ->
  blocked_threads_ st' = blocked_threads_ st ->
  best_match_ st' = best_match_ st ->
  pending cur' st' = ts ++ rev (active_threads_ st) ->
  (forall q, processed st' q -> q = pc t \/ processed st q) ->
  (forall (k : nat) (v : Z),
      pc_last_input_index_ st' !! k = Some v -> v <= input_index_ st) ->
  Forall (fun u => match_begin u = match_begin t) ts ->
  (forall n e,
      within n (pc t) (input_index_ st) e ->
      exists u n', u ∈ ts /\ n = S n' /\ within n' (pc u) (input_index_ st) e) ->
  lm start cur' st'.
Proof.
  intros [Hs Hb Hbest Halive [Hcl | [Hc _]] Hlast] Hidx Hblk Hbm Hpend Hproc Hlast'
    Hsame Hchild; [| discriminate].
  rewrite pending_Some in Hs, Hb, Hbest, Halive.
  destruct (sorted_head _ _ _ Hs) as [Hhead _]. apply Forall_cons in Hhead as [_ Hhead].
  assert (Hbound : forall u, by_begin u t ->
                             Forall (by_begin u) (ts ++ rev (active_threads_ st))).
  { intros u Hu. apply Forall_app. split.
    - eapply Forall_impl; [exact Hsame |]. intros v Hv. unfold by_begin in *. simpl in Hv. lia.
    - eapply Forall_impl; [exact Hhead |]. intros v Hv. unfold by_begin in *. lia. }
  assert (Hin : forall u, u ∈ ts -> by_begin u t).
  { intros u Hu. rewrite Forall_forall in Hsame. specialize (Hsame u Hu).
    unfold by_begin. lia. }
  constructor; rewrite ?Hidx, ?Hblk, ?Hbm, ?Hpend.
  - apply (sorted_replace _ _ ts t Hs Hsame).
  - apply (Forall_replace _ _ _ ts t Hb). intros Ht.
    eapply Forall_impl; [exact Hsame |]. intros v Hv. simpl in Hv. lia.
  - intros m Hm. destruct (Hbest m Hm) as [H1 H2]. split; [exact H1 |].
    apply (Forall_replace _ _ _ ts t H2). intros Ht.
    eapply Forall_impl; [exact Hsame |]. intros v Hv. simpl in Hv. lia.
  - intros s e Hse Hm.
    destruct (Halive s e Hse Hm) as [Hok | (u & e' & Hu & Hle & Hacc)]; [left; exact Hok |].
    right. apply elem_of_app in Hu as [Hu | Hu].
    { exists u, e'. split; [apply elem_of_app; left; exact Hu | auto]. }
    apply elem_of_cons in Hu as [-> | Hu].
    2: { exists u, e'. split; [| auto]. rewrite !elem_of_app. auto. }
    apply Accepts_within in Hacc as [n Hw].
    destruct (Hchild n e' Hw) as (u & n' & Hu & -> & Hw').
    exists u, e'. split; [rewrite !elem_of_app; auto |].
    split; [specialize (Hin u Hu); unfold by_begin in Hin; lia |].
    apply Accepts_within. eauto.
  - left. intros q n e Hq He. rewrite Hidx in *. rewrite Hblk, Hpend.
    destruct (Hproc q Hq) as [-> | Hq'].
    + destruct (Hchild n e He) as (u & n' & Hu & -> & Hw').
      exists u, e. split; [apply Hbound, Hin, Hu |]. right.
      split; [apply elem_of_app; left; exact Hu |]. exists n'. auto.
    + destruct (Hcl q n e Hq' He) as (u & e' & Hbd & Hw).
      rewrite pending_Some in Hbd, Hw. apply Forall_cons in Hbd as [Hbt _].
      destruct Hw as [[Hu Hw] | (Hu & n' & -> & Hw)].
      { exists u, e'. split; [apply Hbound, Hbt |]. left. auto. }
      apply elem_of_cons in Hu as [-> | Hu].
      2: { exists u, e'. split; [apply Hbound, Hbt |]. right.
           split; [apply elem_of_app; right; exact Hu |]. exists n'. auto. }
      destruct (Hchild n' e' Hw) as (u & n'' & Hu & -> & Hw').
      exists u, e'. split; [apply Hbound, Hin, Hu |]. right.
      split; [apply elem_of_app; left; exact Hu |]. exists (S n''). split; [reflexivity |].
      revert Hw'. apply accepts_within_mono. lia.
  - exact Hlast'.
Qed.

Lemma processed_mark_inv (p q : Z) (st st' : NfaInterpreter) :
  0 <= p < Z.of_nat (length (pc_last_input_index_ st)) ->
  input_index_ st' = input_index_ st ->
  pc_last_input_index_ st' = pc_last_input_index_ (mark p st) ->
  processed st' q -> q = p \/ processed st q.
Proof.
  intros Hp Hidx Hl Hq. apply (processed_mark p q st Hp).
  unfold processed in *. rewrite <- Hl. simpl. rewrite <- Hidx. exact Hq.
Qed.

Lemma leftmost_fork start t st target :
  lm start (Some t) st ->
  vec_at bytecode_ (pc t) = Some (FORK target) ->
  length (pc_last_input_index_ st) = length bytecode_ ->
  lm start (Some (with_pc (pc t + 1) t))
    (set_active_threads (active_threads_ st ++ [with_pc target t]) (mark (pc t) st)).
Proof.
  intros Hlm Hi Hlen. pose proof (vec_at_lt _ _ _ Hi) as Hr.
  apply (leftmost_move start t st _ _ [with_pc (pc t + 1) t; with_pc target t] Hlm);
    try reflexivity.
  - unfold pending. simpl. rewrite rev_app_distr. reflexivity.
  - intros q. apply processed_mark_inv; [lia | reflexivity | reflexivity].
  - exact (last_mark (pc t) st (lm_last _ _ _ _ _ Hlm)).
  - repeat constructor.
  - intros [| n] e He; [contradiction |]. simpl in He. rewrite Hi in He.
    destruct He as [He | He].
    + exists (with_pc (pc t + 1) t), n. split; [left | split; [reflexivity | exact He]].
    + exists (with_pc target t), n.
      split; [right; left | split; [reflexivity | exact He]].
Qed.

Lemma leftmost_jmp start t st target :
  lm start (Some t) st ->
  vec_at bytecode_ (pc t) = Some (JMP target) ->
  length (pc_last_input_index_ st) = length bytecode_ ->
  lm start (Some (with_pc target t)) (mark (pc t) st).
Proof.
  intros Hlm Hi Hlen. pose proof (vec_at_lt _ _ _ Hi) as Hr.
  apply (leftmost_move start t st _ _ [with_pc target t] Hlm); try reflexivity.
  - intros q. apply processed_mark_inv; [lia | reflexivity | reflexivity].
  - exact (last_mark (pc t) st (lm_last _ _ _ _ _ Hlm)).
  - repeat constructor.
  - intros [| n] e He; [contradiction |]. simpl in He. rewrite Hi in He.
    exists (with_pc target t), n. split; [left | split; [reflexivity | exact He]].
Qed.

(** A thread that accepts: its match does not begin later than the match
    it replaces, nor than any thread that is dropped. *)
Lemma leftmost_accept start t st :
  lm start (Some t) st ->
  lm start None
    (set_active_threads []
       (set_best_match (Some {| begin := match_begin t; end_ := input_index_ st |})
          (mark (pc t) st))).
Proof.
  intros [Hs Hb Hbest Halive _ Hlast].
  rewrite pending_Some in Hs, Hb, Hbest, Halive.
  destruct (sorted_head _ _ _ Hs) as [Hhead Hblk].
  rewrite Forall_forall in Hhead.
  constructor; rewrite ?pending_None; simpl blocked_threads_; simpl input_index_;
    simpl best_match_; simpl active_threads_; simpl rev; rewrite ?app_nil_r.
  - apply StronglySorted_app in Hs. apply Hs.
  - apply Forall_app in Hb. apply Hb.
  - intros m [= <-]. simpl. rewrite ?app_nil_r. split; [| exact Hblk].
    apply Forall_app in Hb as [_ Hb]. apply Forall_cons in Hb as [Hb _]. exact Hb.
  - intros s e Hse Hm.
    destruct (Halive s e Hse Hm) as [(m & Hm0 & Hle) | (u & e' & Hu & Hle & Hacc)].
    + left. eexists. split; [reflexivity |]. simpl.
      destruct (Hbest m Hm0) as [_ H]. apply Forall_app in H as [_ H].
      apply Forall_cons in H as [H _]. lia.
    + apply elem_of_app in Hu as [Hu | Hu].
      * right. exists u, e'. rewrite ?app_nil_r. auto.
      * left. eexists. split; [reflexivity |]. simpl.
        specialize (Hhead u Hu). unfold by_begin in Hhead. lia.
  - right. split; reflexivity.
  - exact (last_mark (pc t) st Hlast).
Qed.

Lemma leftmost_step start t st r :
  wf_state bytecode_ input_ (Some t) st ->
  lm start (Some t) st ->
  RunActiveThread_case bytecode_ t st r ->
  match r with
  | Return st' => lm start None st'
  | Continue (t', st') => lm start (Some t') st'
  end.
Proof.
  intros Hwf Hlm Hcase. pose proof (wf_last _ _ _ _ Hwf) as Hlen.
  destruct Hcase.
  - eapply leftmost_processed; eauto.
  - eapply leftmost_consume; eauto.
  - apply leftmost_fork; assumption.
  - apply leftmost_jmp; assumption.
  - apply leftmost_accept; assumption.
Qed.

Lemma leftmost_pop start st rest t :
  lm start None st ->
  active_threads_ st = rest ++ [t] ->
  lm start (Some t) (set_active_threads rest st).
Proof.
  intros [Hs Hb Hbest Halive Hcl Hlast] Hpop.
  assert (Hpend : pending None st = pending (Some t) (set_active_threads rest st)).
  { unfold pending. rewrite Hpop, rev_app_distr. reflexivity. }
  constructor; rewrite <- ?Hpend; auto.
  left. destruct Hcl as [Hcl | [_ Hnil]].
  - intros q n e Hq He. rewrite <- Hpend. apply (Hcl q n e Hq He).
  - rewrite Hnil in Hpop. destruct rest; discriminate.
Qed.

Lemma sorted_unblocked (c : Z) (ts : list InterpreterThread) :
  StronglySorted by_begin ts -> StronglySorted by_begin (unblocked bytecode_ c ts).
Proof.
  induction 1 as [| t ts Hts IH Ht]; [constructor |].
  rewrite unblocked_cons. destruct (takes bytecode_ c t); [| exact IH].
  constructor; [exact IH |]. apply Forall_forall. intros u Hu.
  apply elem_of_unblocked in Hu as (t' & Ht' & _ & ->).
  rewrite Forall_forall in Ht. apply (Ht t' Ht').
Qed.

(** An input step keeps the order: the threads that take the code unit keep
    theirs, and the fresh thread begins after all of them. *)
Lemma leftmost_fed start st c :
  wf_state bytecode_ input_ None st ->
  lm start None st ->
  active_threads_ st = [] ->
  vec_at input_ (input_index_ st) = Some c ->
  lm start None (fed bytecode_ c st).
Proof.
  intros Hwf [Hs Hb Hbest Halive _ Hlast] Hnil Hc.
  pose proof (wf_blocked _ _ _ _ Hwf) as Hpark.
  rewrite pending_None, Hnil in Hs, Hb, Hbest, Halive.
  simpl in Hs, Hb, Hbest, Halive. rewrite app_nil_r in Hs, Hb, Hbest, Halive.
  rewrite Forall_forall in Hb, Hpark.
  assert (Hfresh : forall u,
             u ∈ (if has_value (best_match_ st) then []
                  else [{| pc := 0; match_begin := input_index_ st + 1 |}]) ->
             best_match_ st = None /\ u = {| pc := 0; match_begin := input_index_ st + 1 |}).
  { intros u Hu. destruct (best_match_ st); simpl in Hu.
    - apply elem_of_nil in Hu. contradiction.
    - apply list_elem_of_singleton in Hu. auto. }
  constructor; rewrite ?(pending_fed bytecode_ c st Hnil);
    change (blocked_threads_ (fed bytecode_ c st)) with (@nil InterpreterThread);
    change (input_index_ (fed bytecode_ c st)) with (input_index_ st + 1);
    change (best_match_ (fed bytecode_ c st)) with (best_match_ st);
    rewrite ?app_nil_l.
  - apply StronglySorted_app. split; [| split].
    + intros x1 x2 Hx1 Hx2. apply Hfresh in Hx2 as [_ ->].
      apply elem_of_unblocked in Hx1 as (t & Ht & _ & ->).
      specialize (Hb t Ht). unfold by_begin. simpl in *. lia.
    + apply sorted_unblocked, Hs.
    + destruct (best_match_ st); simpl; repeat constructor.
  - apply Forall_forall. intros u Hu. apply elem_of_app in Hu as [Hu | Hu].
    + apply elem_of_unblocked in Hu as (t & Ht & _ & ->).
      specialize (Hb t Ht). simpl in *. lia.
    + apply Hfresh in Hu as [_ ->]. simpl. lia.
  - intros m Hm. destruct (Hbest m Hm) as [H1 H2]. split; [lia |].
    rewrite Forall_forall in H2.
    apply Forall_forall. intros u Hu. apply elem_of_app in Hu as [Hu | Hu].
    + apply elem_of_unblocked in Hu as (t & Ht & _ & ->). apply (H2 t Ht).
    + apply Hfresh in Hu as [Hnone _]. congruence.
  - intros s e Hse Hm.
    destruct (Z_le_gt_dec s (input_index_ st)) as [Hle | Hgt].
    + destruct (Halive s e ltac:(lia) Hm) as [Hok | (u & e' & Hu & Hus & Hacc)];
        [left; exact Hok |].
      right. destruct (Hpark u Hu) as (lo & hi & Hi).
      destruct (Accepts_consume_inv _ _ _ _ _ _ _ Hi Hacc) as (c' & Hc' & Hr & Hacc').
      assert (c' = c) by congruence. subst c'.
      exists (with_pc (pc u + 1) u), e'. split; [| split; [exact Hus | exact Hacc']].
      apply elem_of_app. left. apply elem_of_unblocked. exists u.
      split; [exact Hu |]. split; [| reflexivity].
      apply takes_true. eauto.
    + assert (s = input_index_ st + 1) by lia. subst s.
      destruct (best_match_ st) as [m |] eqn:Hbm.
      * left. exists m. split; [reflexivity |]. destruct (Hbest m eq_refl). lia.
      * right. exists {| pc := 0; match_begin := input_index_ st + 1 |}, e.
        split; [apply elem_of_app; right; left |]. split; [simpl; lia | exact Hm].
  - left. intros q n e Hq _. exfalso.
    unfold processed in Hq. apply vec_at_Some in Hq as [_ Hq].
    apply Hlast in Hq. simpl in Hq. lia.
  - intros k v Hk. apply Hlast in Hk. lia.
Qed.

Lemma leftmost_seeded st :
  ready bytecode_ input_ st ->
  lm (input_index_ st) None (seeded st).
Proof.
  intros [Hlen Hidx Hact Hblk Hbest].
  constructor; rewrite ?pending_None;
    change (blocked_threads_ (seeded st)) with (blocked_threads_ st);
    change (best_match_ (seeded st)) with (best_match_ st);
    change (input_index_ (seeded st)) with (input_index_ st);
    change (active_threads_ (seeded st))
      with (active_threads_ st ++ [{| pc := 0; match_begin := input_index_ st |}]);
    rewrite ?Hblk, ?Hbest, ?Hact; simpl.
  - repeat constructor.
  - repeat constructor. simpl. lia.
  - discriminate.
  - intros s e Hse Hm. right. exists {| pc := 0; match_begin := input_index_ st |}, e.
    split; [left |]. split; [simpl; lia |].
    replace (input_index_ st) with s by lia. exact Hm.
  - left. intros q n e Hq _. exfalso.
    unfold processed in Hq. apply vec_at_Some in Hq as [_ Hq]. simpl in Hq.
    apply lookup_replicate in Hq as [Hq _]. lia.
  - intros k v Hk. apply lookup_replicate in Hk as [-> _]. lia.
Qed.

(** When the [while] of [FindNextMatch] ends, every start position that has
    a match is at or after the begin of the best match. *)
Lemma leftmost_final start st :
  wf_state bytecode_ input_ None st ->
  lm start None st ->
  active_threads_ st = [] ->
  FindNextMatch_cond input_ st = false ->
  forall s e,
    start <= s <= Z.of_nat (length input_) ->
    Matches bytecode_ input_ s e ->
    exists m, best_match_ st = Some m /\ begin m <= s.
Proof.
  intros Hwf [_ _ Hbest Halive _ _] Hnil Hcond s e Hse Hm.
  pose proof (wf_blocked _ _ _ _ Hwf) as Hpark. rewrite Forall_forall in Hpark.
  pose proof (wf_index _ _ _ _ Hwf) as Hidx.
  rewrite pending_None, Hnil in Hbest, Halive. simpl in Hbest, Halive.
  rewrite app_nil_r in Hbest, Halive.
  unfold FindNextMatch_cond in Hcond. apply andb_false_iff in Hcond as [Hend | Hdone].
  - apply negb_false_iff, Z.eqb_eq in Hend.
    destruct (Halive s e ltac:(lia) Hm) as [Hok | (u & e' & Hu & _ & Hacc)]; [exact Hok |].
    exfalso. destruct (Hpark u Hu) as (lo & hi & Hi).
    destruct (Accepts_consume_inv _ _ _ _ _ _ _ Hi Hacc) as (c & Hc & _).
    apply vec_at_lt in Hc. lia.
  - apply negb_false_iff, andb_true_iff in Hdone as [Hhas Hblk].
    destruct (blocked_threads_ st) as [| b bs] eqn:EB; [| discriminate].
    destruct (best_match_ st) as [m |] eqn:Hbm; [| discriminate].
    exists m. split; [reflexivity |]. destruct (Hbest m eq_refl) as [Hle _].
    destruct (Z_le_gt_dec s (input_index_ st)) as [Hs | Hs]; [| lia].
    destruct (Halive s e ltac:(lia) Hm) as [(m' & [= <-] & Hok) | (u & e' & Hu & _)];
      [exact Hok |].
    apply elem_of_nil in Hu. contradiction.
Qed.

End Leftmost.

Section SearchResult.

Variable bytecode_ : list RegExpInstruction.
Variable input_ : list Z.
Variable gas : nat.
Hypothesis Hvalid : valid_program bytecode_.

(** A match that a search returns is a match of the program. *)
Lemma FindNextMatch_Matches st m st' :
  ready bytecode_ input_ st ->
  FindNextMatch bytecode_ input_ gas st = Some (Some m, st') ->
  Matches bytecode_ input_ (begin m) (end_ m).
Proof.
  intros Hready Hrun.
  destruct (FindNextMatch_rule bytecode_ input_ gas Hvalid (sound bytecode_ input_))
    with (st := st) (r := Some m) (st' := st')
    as (st1 & _ & HI1 & _ & _ & Hr & _); auto.
  - intros t s r _. apply sound_step.
  - intros s rest t _. apply sound_pop.
  - intros s c _ HI Hnil _ Hc. apply sound_fed; assumption.
  - apply sound_seeded; apply Hready.
  - apply (sound_best _ _ _ _ HI1). symmetry. exact Hr.
Qed.

(** Every start position from the index of the search on that has a match
    is at or after the begin of the match the search returns. *)
Lemma FindNextMatch_first st r st' :
  ready bytecode_ input_ st ->
  FindNextMatch bytecode_ input_ gas st = Some (r, st') ->
  forall s e,
    input_index_ st <= s <= Z.of_nat (length input_) ->
    Matches bytecode_ input_ s e ->
    exists m, r = Some m /\ begin m <= s.
Proof.
  intros Hready Hrun s e Hse Hm.
  destruct (FindNextMatch_rule bytecode_ input_ gas Hvalid
              (leftmost bytecode_ input_ (input_index_ st)))
    with (st := st) (r := r) (st' := st')
    as (st1 & Hwf1 & HI1 & Hnil1 & Hcond1 & Hr & _); auto.
  - intros t s0 x. apply leftmost_step.
  - intros s0 rest t _. apply leftmost_pop.
  - intros s0 c Hwf HI Hnil _ Hc. apply leftmost_fed; assumption.
  - apply leftmost_seeded, Hready.
  - rewrite Hr.
    apply (leftmost_final bytecode_ input_ (input_index_ st) st1 Hwf1 HI1 Hnil1 Hcond1 s e);
      assumption.
Qed.

End SearchResult.

(** X1.  A match returned by a single-match search is a match of the
    program: for a valid program, an interpreter whose thread lists are empty
    and enough gas, [FindNextMatch] returns, and if it returns the range
    [(b, e)] then some run of the program as an automaton, started at
    instruction [0] with the input read up to [b], follows [FORK]s and [JMP]s,
    consumes exactly the code units from [b] to [e], each in the range of
    its [CONSUME_RANGE], and ends at an [ACCEPT]. *)
Theorem FindNextMatch_sound (bytecode_ : list RegExpInstruction) (input_ : list Z)
    (gas : nat) (st : NfaInterpreter) :
  valid_program bytecode_ ->
  ready bytecode_ input_ st ->
  (3 * length bytecode_ + length input_ + 2 <= gas)%nat ->
  exists r st',
    FindNextMatch bytecode_ input_ gas st = Some (r, st') /\
    forall m, r = Some m -> Matches bytecode_ input_ (begin m) (end_ m).
Proof.
  intros Hvalid Hready Hgas.
  destruct (FindNextMatch_total bytecode_ input_ gas Hvalid st Hgas Hready)
    as (r & st1 & Hrun & _ & _).
  exists r, (cleaned st1). split; [exact Hrun |].
  intros m ->. exact (FindNextMatch_Matches bytecode_ input_ gas Hvalid st m _ Hready Hrun).
Qed.

Lemma FindNextMatch_sound_witness :
  exists r st',
    FindNextMatch [CONSUME_RANGE 97 98; FORK 0; ACCEPT] [99; 97; 98; 99] 15
      (NfaInterpreter_new [CONSUME_RANGE 97 98; FORK 0; ACCEPT] 0) = Some (r, st') /\
    forall m, r = Some m ->
      Matches [CONSUME_RANGE 97 98; FORK 0; ACCEPT] [99; 97; 98; 99] (begin m) (end_ m).
Proof.
  apply (FindNextMatch_sound [CONSUME_RANGE 97 98; FORK 0; ACCEPT] [99; 97; 98; 99] 15
           (NfaInterpreter_new [CONSUME_RANGE 97 98; FORK 0; ACCEPT] 0)).
  - reflexivity.
  - constructor; simpl; auto; lia.
  - simpl. lia.
Defined.

(** X2.  A single-match search finds a match exactly when there is one: for
    a valid program, [FindNextMatch] returns no match if and only if the
    program matches no range of the input that begins at or after the index
    the search starts at. *)
Theorem FindNextMatch_none_iff (bytecode_ : list RegExpInstruction) (input_ : list Z)
    (gas : nat) (st : NfaInterpreter) :
  valid_program bytecode_ ->
  ready bytecode_ input_ st ->
  (3 * length bytecode_ + length input_ + 2 <= gas)%nat ->
  exists r st',
    FindNextMatch bytecode_ input_ gas st = Some (r, st') /\
    (r = None <->
     forall s e, input_index_ st <= s <= Z.of_nat (length input_) ->
                 ~ Matches bytecode_ input_ s e).
Proof.
  intros Hvalid Hready Hgas.
  destruct (FindNextMatch_total bytecode_ input_ gas Hvalid st Hgas Hready)
    as (r & st1 & Hrun & _ & _).
  exists r, (cleaned st1). split; [exact Hrun |]. split.
  - intros -> s e Hse Hm.
    destruct (FindNextMatch_first bytecode_ input_ gas Hvalid st None _ Hready Hrun s e Hse Hm)
      as (m & Hm' & _).
    discriminate.
  - intros Hnone. destruct r as [m |]; [| reflexivity]. exfalso.
    pose proof (FindNextMatch_Matches bytecode_ input_ gas Hvalid st m _ Hready Hrun) as Hm.
    pose proof (FindNextMatch_bounds bytecode_ input_ gas Hvalid st m _ Hready Hrun) as Hb.
    apply (Hnone (begin m) (end_ m)); [lia | exact Hm].
Qed.

Lemma FindNextMatch_none_iff_witness :
  exists r st',
    FindNextMatch [CONSUME_RANGE 97 98; FORK 0; ACCEPT] [99; 97; 98; 99] 15
      (NfaInterpreter_new [CONSUME_RANGE 97 98; FORK 0; ACCEPT] 0) = Some (r, st') /\
    (r = None <->
     forall s e, 0 <= s <= 4 ->
                 ~ Matches [CONSUME_RANGE 97 98; FORK 0; ACCEPT] [99; 97; 98; 99] s e).
Proof.
  apply (FindNextMatch_none_iff [CONSUME_RANGE 97 98; FORK 0; ACCEPT] [99; 97; 98; 99] 15
           (NfaInterpreter_new [CONSUME_RANGE 97 98; FORK 0; ACCEPT] 0)).
  - reflexivity.
  - constructor; simpl; auto; lia.
  - simpl. lia.
Defined.

(** X3.  The match a single-match search returns is a leftmost one: for a
    valid program, if [FindNextMatch] returns a match that begins at [b],
    the program matches no range of the input that begins at or after the
    index the search starts at and before [b]. *)
Theorem FindNextMatch_leftmost (bytecode_ : list RegExpInstruction) (input_ : list Z)
    (gas : nat) (st : NfaInterpreter) :
  valid_program bytecode_ ->
  ready bytecode_ input_ st ->
  (3 * length bytecode_ + length input_ + 2 <= gas)%nat ->
  exists r st',
    FindNextMatch bytecode_ input_ gas st = Some (r, st') /\
    forall m, r = Some m ->
      forall s e, input_index_ st <= s < begin m -> ~ Matches bytecode_ input_ s e.
Proof.
  intros Hvalid Hready Hgas.
  destruct (FindNextMatch_total bytecode_ input_ gas Hvalid st Hgas Hready)
    as (r & st1 & Hrun & _ & _).
  exists r, (cleaned st1). split; [exact Hrun |].
  intros m -> s e Hse Hm.
  pose proof (FindNextMatch_bounds bytecode_ input_ gas Hvalid st m _ Hready Hrun) as Hb.
  destruct (FindNextMatch_first bytecode_ input_ gas Hvalid st (Some m) _ Hready Hrun s e
              ltac:(lia) Hm) as (m' & [= <-] & Hle).
  lia.
Qed.

Lemma FindNextMatch_leftmost_witness :
  exists r st',
    FindNextMatch [CONSUME_RANGE 97 98; FORK 0; ACCEPT] [99; 97; 98; 99] 15
      (NfaInterpreter_new [CONSUME_RANGE 97 98; FORK 0; ACCEPT] 0) = Some (r, st') /\
    forall m, r = Some m ->
      forall s e, 0 <= s < begin m ->
                  ~ Matches [CONSUME_RANGE 97 98; FORK 0; ACCEPT] [99; 97; 98; 99] s e.
Proof.
  apply (FindNextMatch_leftmost [CONSUME_RANGE 97 98; FORK 0; ACCEPT] [99; 97; 98; 99] 15
           (NfaInterpreter_new [CONSUME_RANGE 97 98; FORK 0; ACCEPT] 0)).
  - reflexivity.
  - constructor; simpl; auto; lia.
  - simpl. lia.
Defined.

(** On the input ["cabc"] the program [CONSUME_RANGE 'a' 'b'; FORK 0; ACCEPT]
    (one or more of [a] and [b], as few as possible) matches from [1] to [3],
    and from [1] to [2]; nothing matches from [0].  The search returns the
    match from [1] to [2]: the leftmost begin, and the end that the
    continuation of the [FORK] gets to first. *)
Example Matches_from_1_to_3 :
  Matches [CONSUME_RANGE 97 98; FORK 0; ACCEPT] [99; 97; 98; 99] 1 3.
Proof.
  eapply Accepts_consume; [reflexivity | reflexivity | lia |].
  eapply Accepts_fork_target; [reflexivity |].
  eapply Accepts_consume; [reflexivity | reflexivity | lia |].
  eapply Accepts_fork_next; [reflexivity |].
  apply Accepts_accept. reflexivity.
Qed.

Example no_match_from_0 (e : Z) :
  ~ Matches [CONSUME_RANGE 97 98; FORK 0; ACCEPT] [99; 97; 98; 99] 0 e.
Proof.
  intros H.
  destruct (Accepts_consume_inv [CONSUME_RANGE 97 98; FORK 0; ACCEPT] [99; 97; 98; 99]
              0 0 e 97 98 eq_refl H) as (c & Hc & Hr & _).
  inversion Hc. lia.
Qed.

Example FindNextMatch_from_1_to_2 :
  exists st',
    FindNextMatch [CONSUME_RANGE 97 98; FORK 0; ACCEPT] [99; 97; 98; 99] 15
      (NfaInterpreter_new [CONSUME_RANGE 97 98; FORK 0; ACCEPT] 0)
    = Some (Some {| begin := 1; end_ := 2 |}, st').
Proof. eexists. reflexivity. Qed.

(** ** All the matches of a call of [FindMatches] *)

Section AllMatches.

Variable bytecode_ : list RegExpInstruction.
Variable input_ : list Z.
Variable gas : nat.
Hypothesis Hvalid : valid_program bytecode_.

(** The searches of the [for] of [FindMatches]: one for each match it
    writes, begun at the end of the match before, and, if it stops before
    [max] matches, a last one that finds nothing. *)
Lemma FindMatches_loop_searches (max : Z) (n : nat) :
  forall (k : Z) (out : list MatchRange) (st : NfaInterpreter) k' out' st',
    ready bytecode_ input_ st ->
    0 <= k ->
    FindMatches_loop bytecode_ input_ gas n k max out st = Some (k', out', st') ->
    k <= k' /\
    (forall i, i < k -> vec_at out' i = vec_at out i) /\
    forall i, k <= i <= k' ->
      exists st1 r st2,
        ready bytecode_ input_ st1 /\
        (i = k /\ input_index_ st1 = input_index_ st \/
         exists m0, k < i /\ vec_at out' (i - 1) = Some m0 /\ input_index_ st1 = end_ m0) /\
        (i = max \/ FindNextMatch bytecode_ input_ gas st1 = Some (r, st2)) /\
        (i < k' -> i <> max /\ exists m, r = Some m /\ vec_at out' i = Some m) /\
        (i = k' -> i <> max -> r = None).
Proof.
  induction n as [| n IH]; intros k out st k' out' st' Hready Hk Hrun; [discriminate |].
  cbn [FindMatches_loop] in Hrun. destruct (Z.eqb_spec k max) as [-> | Hne].
  { inversion Hrun; subst k' out' st'. split; [lia |]. split; [auto |].
    intros i Hi. exists st, None, st. split; [exact Hready |].
    split; [left; split; [lia | reflexivity] |]. split; [left; lia |].
    split; [lia | intros; lia]. }
  destruct (FindNextMatch bytecode_ input_ gas st) as [[r st1] |] eqn:Hone; [| discriminate].
  destruct r as [m |].
  2: { inversion Hrun; subst k' out' st'. split; [lia |]. split; [auto |].
       intros i Hi. exists st, None, st1. split; [exact Hready |].
       split; [left; split; [lia | reflexivity] |].
       replace i with k by lia. split; [right; exact Hone |].
       split; [lia | reflexivity]. }
  destruct (vec_store out k m) as [out1 |] eqn:Hstore; [| discriminate].
  pose proof (vec_store_inv _ _ _ _ Hstore) as [Hkr ->].
  destruct (FindNextMatch_bounds bytecode_ input_ gas Hvalid st m st1 Hready Hone)
    as (Hb1 & Hb2 & Hb3).
  destruct (FindNextMatch_rule bytecode_ input_ gas Hvalid (fun _ _ => True))
    with (st := st) (r := Some m) (st' := st1)
    as (st0 & Hwf0 & _ & _ & _ & _ & ->); auto.
  { intros t s x _ _ Hcase. destruct Hcase; exact I. }
  destruct (IH (k + 1) (<[Z.to_nat k := m]> out) (SetInputIndex (end_ m) (cleaned st0))
              k' out' st') as (Hle & Hbefore & Hsearch); [| lia | exact Hrun |].
  { apply ready_cleaned; [exact Hwf0 |]. pose proof (ready_index _ _ _ Hready). lia. }
  assert (Hat : vec_at out' k = Some m).
  { rewrite Hbefore by lia. apply vec_at_store_eq. lia. }
  split; [lia |]. split.
  { intros i Hi. rewrite Hbefore by lia.
    destruct (Z_lt_dec i 0).
    - unfold vec_at. destruct (Z.ltb_spec i 0); [reflexivity | lia].
    - apply vec_at_store_ne; lia. }
  intros i Hi. destruct (Z.eq_dec i k) as [-> | Hik].
  - exists st, (Some m), (cleaned st0). split; [exact Hready |].
    split; [left; split; reflexivity |]. split; [right; exact Hone |].
    split; [intros _; split; [exact Hne | eauto] | intros; lia].
  - destruct (Hsearch i ltac:(lia)) as (s1 & r & s2 & Hr1 & Hcur & Hfind & Hsome & Hnone).
    exists s1, r, s2. split; [exact Hr1 |]. split; [| auto].
    right. destruct Hcur as [[-> Hidx] | (m0 & Hlt & Hm0 & Hidx)].
    + exists m. split; [lia |]. replace (k + 1 - 1) with k by lia.
      split; [exact Hat | exact Hidx].
    + exists m0. split; [lia | auto].
Qed.

End AllMatches.

Lemma cursor_at_search (start : Z) (out : list MatchRange) (i : nat) (c : Z) :
  Z.of_nat i = 0 /\ c = start \/
  (exists m0, 0 < Z.of_nat i /\ vec_at out (Z.of_nat i - 1) = Some m0 /\ c = end_ m0) ->
  c = cursor_at start out i.
Proof.
  intros [[Hi ->] | (m0 & Hi & Hm0 & ->)]; destruct i as [| j]; try lia; [reflexivity |].
  apply vec_at_Some in Hm0 as [_ Hm0].
  replace (Z.to_nat (Z.of_nat (S j) - 1)) with j in Hm0 by lia.
  simpl. rewrite Hm0. reflexivity.
Qed.

(** X4.  [FindMatches] reports the matches from left to right and skips
    none: for a valid program, a start index of the input and a buffer with
    room for [max_match_num >= 0] matches, each match it writes is a match
    of the program, and the program matches no range that begins between the
    index the search for it started at (the start index for the first
    match, the end of the match before for the others) and its begin; and if
    it reports fewer than [max_match_num] matches, the program matches no
    range that begins at or after the end of the last one (the start index,
    if there is none). *)
Theorem FindMatches_leftmost (bytecode_ : list RegExpInstruction) (input_ : list Z)
    (gas : nat) (start max : Z) (out : list MatchRange) :
  valid_program bytecode_ ->
  0 <= start <= Z.of_nat (length input_) ->
  0 <= max ->
  max <= Z.of_nat (length out) ->
  enough_gas bytecode_ input_ max gas ->
  exists n out',
    FindMatchesNfa bytecode_ input_ gas start out max = Some (n, out') /\
    (forall (i : nat) (m : MatchRange),
        Z.of_nat i < n ->
        out' !! i = Some m ->
        cursor_at start out' i <= begin m /\
        Matches bytecode_ input_ (begin m) (end_ m) /\
        forall s e, cursor_at start out' i <= s < begin m ->
                    ~ Matches bytecode_ input_ s e) /\
    (n < max ->
     forall s e, cursor_at start out' (Z.to_nat n) <= s <= Z.of_nat (length input_) ->
                 ~ Matches bytecode_ input_ s e).
Proof.
  intros Hvalid Hstart Hmax Hout Hgas. unfold enough_gas in Hgas.
  destruct (FindMatches_loop_spec bytecode_ input_ gas Hvalid max gas ltac:(lia)
              0 out (NfaInterpreter_new bytecode_ start))
    as (ms & out' & st' & Hloop & Hle & _); try lia.
  { apply ready_new, Hstart. }
  destruct (FindMatches_loop_searches bytecode_ input_ gas Hvalid max gas
              0 out (NfaInterpreter_new bytecode_ start) (0 + Z.of_nat (length ms)) out' st')
    as (_ & _ & Hsearch); [apply ready_new, Hstart | lia | exact Hloop |].
  exists (0 + Z.of_nat (length ms)), out'.
  unfold FindMatchesNfa, FindMatches. rewrite Hloop. simpl fst.
  split; [reflexivity |]. split.
  - intros i m Hi Hm.
    destruct (Hsearch (Z.of_nat i) ltac:(lia))
      as (st1 & r & st2 & Hready & Hcur & Hfind & Hsome & _).
    destruct (Hsome Hi) as (Hne & m' & -> & Hm').
    apply vec_at_Some in Hm' as [_ Hm']. rewrite Nat2Z.id in Hm'.
    assert (m' = m) by congruence. subst m'.
    destruct Hfind as [Hfind | Hfind]; [contradiction |].
    assert (Hc : input_index_ st1 = cursor_at start out' i).
    { apply cursor_at_search. destruct Hcur as [[H0 H1] | (m0 & H0 & H1 & H2)].
      - left. split; [exact H0 | exact H1].
      - right. exists m0. auto. }
    rewrite <- Hc.
    pose proof (FindNextMatch_bounds bytecode_ input_ gas Hvalid st1 m st2 Hready Hfind)
      as Hb.
    split; [lia |]. split.
    + exact (FindNextMatch_Matches bytecode_ input_ gas Hvalid st1 m st2 Hready Hfind).
    + intros s e Hse HM.
      destruct (FindNextMatch_first bytecode_ input_ gas Hvalid st1 (Some m) st2 Hready
                  Hfind s e ltac:(lia) HM) as (m' & [= <-] & Hlt).
      lia.
  - intros Hlt s e Hse HM.
    destruct (Hsearch (0 + Z.of_nat (length ms)) ltac:(lia))
      as (st1 & r & st2 & Hready & Hcur & Hfind & _ & Hnone).
    destruct Hfind as [Hfind | Hfind]; [lia |].
    rewrite (Hnone eq_refl ltac:(lia)) in Hfind.
    assert (Hc : input_index_ st1 = cursor_at start out' (Z.to_nat (0 + Z.of_nat (length ms)))).
    { apply cursor_at_search. rewrite Z2Nat.id by lia.
      destruct Hcur as [[H0 H1] | (m0 & H0 & H1 & H2)].
      - left. split; [exact H0 | exact H1].
      - right. exists m0. auto. }
    rewrite <- Hc in Hse.
    destruct (FindNextMatch_first bytecode_ input_ gas Hvalid st1 None st2 Hready
                Hfind s e Hse HM) as (m' & Hm' & _).
    discriminate.
Qed.

Lemma FindMatches_leftmost_witness :
  exists n out',
    FindMatchesNfa [CONSUME_RANGE 97 97; ACCEPT] [97; 98; 97; 99; 97; 100] 18 0
      [{| begin := -1; end_ := -1 |}; {| begin := -1; end_ := -1 |};
       {| begin := -1; end_ := -1 |}; {| begin := -1; end_ := -1 |}] 4 = Some (n, out') /\
    (n < 4 ->
     forall s e, cursor_at 0 out' (Z.to_nat n) <= s <= 6 ->
                 ~ Matches [CONSUME_RANGE 97 97; ACCEPT] [97; 98; 97; 99; 97; 100] s e).
Proof.
  destruct (FindMatches_leftmost [CONSUME_RANGE 97 97; ACCEPT] [97; 98; 97; 99; 97; 100] 18 0 4
              [{| begin := -1; end_ := -1 |}; {| begin := -1; end_ := -1 |};
               {| begin := -1; end_ := -1 |}; {| begin := -1; end_ := -1 |}])
    as (n & out' & Hrun & _ & Hlast).
  - reflexivity.
  - simpl. lia.
  - lia.
  - simpl. lia.
  - unfold enough_gas. simpl. lia.
  - exists n, out'. split; [exact Hrun | exact Hlast].
Defined.

(** ** What the [DCHECK]s ask for *)

Section Checks.

Variable bytecode_ : list RegExpInstruction.
Variable input_ : list Z.
Variable st0 : NfaInterpreter.
Hypothesis Hvalid : valid_program bytecode_.
Hypothesis Hready : ready bytecode_ input_ st0.

Local Abbreviation bounded st :=
  (input_index_ st <= Z.of_nat (length input_) /\
   forall (k : nat) (v : Z),
     pc_last_input_index_ st !! k = Some v -> -1 <= v <= input_index_ st).

Lemma bounded_mark (p : Z) (st : NfaInterpreter) :
  0 <= input_index_ st -> bounded st -> bounded (mark p st).
Proof.
  intros Hidx [Hlen Hlast]. split; [exact Hlen |]. intros k v. simpl. intros Hk.
  destruct (decide (Z.to_nat p = k)) as [<- | Hne].
  - destruct (decide (Z.to_nat p < length (pc_last_input_index_ st))%nat).
    + rewrite list_lookup_insert_eq in Hk by assumption. inversion Hk. lia.
    + rewrite list_insert_ge in Hk by lia. eapply Hlast; eauto.
  - rewrite list_lookup_insert_ne in Hk by assumption. eapply Hlast; eauto.
Qed.

Lemma in_search_flush (start : Z) (i : nat) (c : Z) (st st' : NfaInterpreter) :
  in_search start None st ->
  FlushBlockedThreads_body bytecode_ (S i) c st = Some st' ->
  in_search start None st'.
Proof.
  intros [Hidx Hcur Hact Hblk Hbest]. unfold FlushBlockedThreads_body.
  destruct (blocked_threads_ st !! (S i - 1)%nat) as [t |] eqn:Ht; [| discriminate].
  destruct (vec_at bytecode_ (pc t)) as [[lo hi | | |] |]; try discriminate.
  destruct ((lo <=? c) && (c <=? hi)); intros [= <-]; constructor; simpl; auto.
  apply Forall_app. split; [exact Hact |]. constructor; [| constructor]. simpl.
  eapply Forall_lookup_1 in Hblk; [| exact Ht]. exact Hblk.
Qed.

(** Where the index, the entries of [pc_last_input_index_], the threads and
    the best match lie at every moment of a search. *)
Lemma bounded_moment (place : Place) (st : NfaInterpreter) :
  moment bytecode_ input_ st0 place st ->
  bounded st /\ in_search (input_index_ st0) (current place) st.
Proof.
  pose proof (ready_index _ _ _ Hready) as Hidx0.
  intros Hm.
  pose proof (sized_moment bytecode_ input_ st0 Hvalid Hready place st Hm) as Hsized.
  revert Hsized.
  induction Hm as [| st rest t Hm IH Hpop | t st t' st' Hm IH Hbody | t st st' Hm IH Hbody
                   | st c Hm IH Hpop Hcond Hc | i c st st' Hm IH Hbody | c st Hm IH];
    intros Hsized;
    try (pose proof (sized_moment bytecode_ input_ st0 Hvalid Hready _ _ Hm) as Hprev;
         destruct (IH Hprev) as [[Hlen Hlast] Hin]).
  - split; [split |].
    + simpl. lia.
    + intros k v Hk. simpl in Hk. apply lookup_replicate in Hk as [-> _]. simpl. lia.
    + exact (in_search_seeded bytecode_ input_ st0 Hready).
  - apply pop_back_Some in Hpop. split; [split; assumption |].
    apply in_search_pop; assumption.
  - pose proof (RunActiveThread_body_case bytecode_ t st _ (sized_last _ _ _ Hprev) Hbody)
      as Hcase.
    pose proof (in_search_step bytecode_ _ t st _ Hin Hcase) as Hin'.
    pose proof (search_index _ _ _ Hin) as Hge.
    split; [| exact Hin'].
    inversion Hcase; subst; try (apply (bounded_mark (pc t) st); [lia | split; assumption]).
  - pose proof (RunActiveThread_body_case bytecode_ t st _ (sized_last _ _ _ Hprev) Hbody)
      as Hcase.
    pose proof (in_search_step bytecode_ _ t st _ Hin Hcase) as Hin'.
    pose proof (search_index _ _ _ Hin) as Hge.
    split; [| exact Hin'].
    inversion Hcase; subst; try (split; assumption);
      apply (bounded_mark (pc t) st); try lia; split; assumption.
  - apply vec_at_lt in Hc. destruct Hin as [Hi1 Hi2 Hi3 Hi4 Hi5].
    unfold advanced. simpl. destruct (best_match_ st) as [m |] eqn:Hbm; simpl.
    + split; [split; [lia | intros k v Hk; apply Hlast in Hk; lia] |].
      constructor; simpl; try rewrite Hbm; auto; try discriminate; try lia.
      * eapply Forall_impl; [exact Hi3 |]. simpl. intros; lia.
      * eapply Forall_impl; [exact Hi4 |]. simpl. intros; lia.
      * intros m' [= <-]. specialize (Hi5 m eq_refl). lia.
    + split; [split; [lia | intros k v Hk; apply Hlast in Hk; lia] |].
      constructor; simpl; try rewrite Hbm; auto; try discriminate; try lia.
      * apply Forall_app. split.
        -- eapply Forall_impl; [exact Hi3 |]. simpl. intros; lia.
        -- constructor; [simpl; lia | constructor].
      * eapply Forall_impl; [exact Hi4 |]. simpl. intros; lia.
  - split; [| eapply in_search_flush; eauto].
    unfold FlushBlockedThreads_body in Hbody.
    destruct (blocked_threads_ st !! (S i - 1)%nat) as [t |]; [| discriminate].
    destruct (vec_at bytecode_ (pc t)) as [[lo hi | | |] |]; try discriminate.
    destruct ((lo <=? c) && (c <=? hi)); inversion Hbody; subst; split; assumption.
  - split; [split; assumption |].
    destruct Hin as [Hi1 Hi2 Hi3 Hi4 Hi5]. constructor; simpl; auto.
Qed.

End Checks.

(** X5.  No [DCHECK] of the class fails and no vector is read outside its
    bounds during a search: at every moment of a single-match search of a
    valid program, [input_index_] is an index of the input or its length
    (and not before the index the search started at);
    [pc_last_input_index_] has one entry for each instruction, each between
    [-1] and [input_index_], as [IsPcProcessed] and [MarkPcProcessed] assert;
    every blocked thread is at a [CONSUME_RANGE], as [FlushBlockedThreads]
    asserts, and the thread its [for] visits next exists; and the program
    counter of every active thread and of the thread [RunActiveThread] works
    on is an index of the program. *)
Theorem search_checks (bytecode_ : list RegExpInstruction) (input_ : list Z)
    (st0 : NfaInterpreter) (place : Place) (st : NfaInterpreter) :
  valid_program bytecode_ ->
  ready bytecode_ input_ st0 ->
  moment bytecode_ input_ st0 place st ->
  input_index_ st0 <= input_index_ st <= Z.of_nat (length input_) /\
  length (pc_last_input_index_ st) = length bytecode_ /\
  (forall p v, vec_at (pc_last_input_index_ st) p = Some v ->
               -1 <= v <= input_index_ st) /\
  Forall (parked bytecode_) (blocked_threads_ st) /\
  (forall i c, place = InFlushBlockedThreads (S i) c ->
               exists t, blocked_threads_ st !! i = Some t /\ parked bytecode_ t) /\
  Forall (wf_thread bytecode_) (active_threads_ st) /\
  (forall t, place = InRunActiveThread t -> wf_thread bytecode_ t).
Proof.
  intros Hvalid Hready Hm.
  pose proof (sized_moment bytecode_ input_ st0 Hvalid Hready place st Hm)
    as [Hlen Hcur Hact Hpark _ _ Hplace].
  destruct (bounded_moment bytecode_ input_ st0 Hvalid Hready place st Hm)
    as [[Hle Hlast] Hin].
  pose proof (search_index _ _ _ Hin) as Hge.
  split; [lia |]. split; [exact Hlen |]. split; [| split; [exact Hpark | split; [| split]]].
  - intros p v Hv. apply vec_at_Some in Hv as [_ Hv]. eapply Hlast; eauto.
  - intros i c ->. simpl in Hplace. destruct Hplace as [Hi _].
    destruct (lookup_lt_is_Some_2 (blocked_threads_ st) i) as [t Ht]; [lia |].
    exists t. split; [exact Ht |]. eapply Forall_lookup_1; eauto.
  - exact Hact.
  - intros t ->. apply Hcur. reflexivity.
Qed.

Lemma search_checks_witness :
  Forall (parked [FORK 1; CONSUME_RANGE 97 97; ACCEPT]) [{| pc := 1; match_begin := 0 |}] /\
  Forall (wf_thread [FORK 1; CONSUME_RANGE 97 97; ACCEPT]) [{| pc := 1; match_begin := 0 |}].
Proof.
  destruct (search_checks [FORK 1; CONSUME_RANGE 97 97; ACCEPT] []
              (NfaInterpreter_new [FORK 1; CONSUME_RANGE 97 97; ACCEPT] 0)
              AtRunActiveThreads
              {| input_index_ := 0; pc_last_input_index_ := [0; 0; -1];
                 active_threads_ := [{| pc := 1; match_begin := 0 |}];
                 blocked_threads_ := [{| pc := 1; match_begin := 0 |}];
                 best_match_ := None |})
    as (_ & _ & _ & Hblk & _ & Hact & _).
  - reflexivity.
  - constructor; simpl; auto; lia.
  - eapply moment_return.
    + eapply moment_continue.
      * eapply moment_pop; [apply moment_seeded | reflexivity].
      * reflexivity.
    + reflexivity.
  - split; [exact Hblk | exact Hact].
Defined.

(** X6.  At every moment of a single-match search of a valid program, every
    thread, blocked, active or being run, began its match between the index
    the search started at and the current input index, and so did the best
    match, which ends at or before the current input index. *)
Theorem search_positions (bytecode_ : list RegExpInstruction) (input_ : list Z)
    (st0 : NfaInterpreter) (place : Place) (st : NfaInterpreter) :
  valid_program bytecode_ ->
  ready bytecode_ input_ st0 ->
  moment bytecode_ input_ st0 place st ->
  Forall (fun t => input_index_ st0 <= match_begin t <= input_index_ st)
    (blocked_threads_ st ++ active_threads_ st) /\
  (forall t, place = InRunActiveThread t ->
             input_index_ st0 <= match_begin t <= input_index_ st) /\
  (forall m, best_match_ st = Some m ->
             input_index_ st0 <= begin m /\ begin m <= end_ m /\
             end_ m <= input_index_ st).
Proof.
  intros Hvalid Hready Hm.
  destruct (bounded_moment bytecode_ input_ st0 Hvalid Hready place st Hm)
    as [_ [Hidx Hcur Hact Hblk Hbest]].
  split; [apply Forall_app; split; assumption |]. split; [| exact Hbest].
  intros t ->. apply Hcur. reflexivity.
Qed.

Lemma search_positions_witness :
  Forall (fun t => 0 <= match_begin t <= 0)
    ([{| pc := 1; match_begin := 0 |}] ++ [{| pc := 1; match_begin := 0 |}]).
Proof.
  destruct (search_positions [FORK 1; CONSUME_RANGE 97 97; ACCEPT] []
              (NfaInterpreter_new [FORK 1; CONSUME_RANGE 97 97; ACCEPT] 0)
              AtRunActiveThreads
              {| input_index_ := 0; pc_last_input_index_ := [0; 0; -1];
                 active_threads_ := [{| pc := 1; match_begin := 0 |}];
                 blocked_threads_ := [{| pc := 1; match_begin := 0 |}];
                 best_match_ := None |})
    as (Hall & _).
  - reflexivity.
  - constructor; simpl; auto; lia.
  - eapply moment_return.
    + eapply moment_continue.
      * eapply moment_pop; [apply moment_seeded | reflexivity].
      * reflexivity.
    + reflexivity.
  - exact Hall.
Defined.

(** ** One call for many matches, or one call for each *)

(** [FindNextMatch] resets [pc_last_input_index_], so an interpreter that
    has been used searches like a new one at the same index. *)
Lemma FindNextMatch_fresh (bytecode_ : list RegExpInstruction) (input_ : list Z)
    (gas : nat) (st : NfaInterpreter) :
  ready bytecode_ input_ st ->
  FindNextMatch bytecode_ input_ gas st
  = FindNextMatch bytecode_ input_ gas (NfaInterpreter_new bytecode_ (input_index_ st)).
Proof.
  intros [Hlen _ Hact Hblk Hbest]. destruct st as [idx last act blk best].
  simpl in *. subst act blk best.
  unfold FindNextMatch, FindNextMatch_init. simpl.
  rewrite Hlen, length_replicate. reflexivity.
Qed.

Lemma FindMatchesNfa_one (bytecode_ : list RegExpInstruction) (input_ : list Z)
    (gas : nat) (st st' : NfaInterpreter) (r : option MatchRange) (slot : MatchRange) :
  (2 <= gas)%nat ->
  ready bytecode_ input_ st ->
  FindNextMatch bytecode_ input_ gas st = Some (r, st') ->
  FindMatchesNfa bytecode_ input_ gas (input_index_ st) [slot] 1
  = Some (match r with Some m => (1, [m]) | None => (0, [slot]) end).
Proof.
  intros Hgas Hready Hfind. rewrite (FindNextMatch_fresh _ _ _ _ Hready) in Hfind.
  unfold FindMatchesNfa, FindMatches.
  destruct gas as [| [| g]]; try lia.
  cbn [FindMatches_loop]. rewrite Hfind. destruct r as [m |]; reflexivity.
Qed.

(** X7.  One call of [FindMatches] for many matches gives what one call for
    each match gives: for a valid program, the [i]-th match it writes is the
    match that a new interpreter, started at the end of the match before (at
    the start index for the first) and asked for one match, writes to its
    buffer; and if it stops before [max_match_num] matches, a new
    interpreter started at the end of the last match finds none and leaves
    its buffer as it is. *)
Theorem FindMatches_one_by_one (bytecode_ : list RegExpInstruction) (input_ : list Z)
    (gas : nat) (start max : Z) (out : list MatchRange) (slot : MatchRange) :
  valid_program bytecode_ ->
  0 <= start <= Z.of_nat (length input_) ->
  0 <= max ->
  max <= Z.of_nat (length out) ->
  enough_gas bytecode_ input_ max gas ->
  exists n out',
    FindMatchesNfa bytecode_ input_ gas start out max = Some (n, out') /\
    (forall (i : nat) (m : MatchRange),
        Z.of_nat i < n ->
        out' !! i = Some m ->
        FindMatchesNfa bytecode_ input_ gas (cursor_at start out' i) [slot] 1
        = Some (1, [m])) /\
    (n < max ->
     FindMatchesNfa bytecode_ input_ gas (cursor_at start out' (Z.to_nat n)) [slot] 1
     = Some (0, [slot])).
Proof.
  intros Hvalid Hstart Hmax Hout Hgas. unfold enough_gas in Hgas.
  pose proof (valid_program_nonempty _ Hvalid) as Hpos.
  destruct (FindMatches_loop_spec bytecode_ input_ gas Hvalid max gas ltac:(lia)
              0 out (NfaInterpreter_new bytecode_ start))
    as (ms & out' & st' & Hloop & Hle & _); try lia.
  { apply ready_new, Hstart. }
  destruct (FindMatches_loop_searches bytecode_ input_ gas Hvalid max gas
              0 out (NfaInterpreter_new bytecode_ start) (0 + Z.of_nat (length ms)) out' st')
    as (_ & _ & Hsearch); [apply ready_new, Hstart | lia | exact Hloop |].
  exists (0 + Z.of_nat (length ms)), out'.
  unfold FindMatchesNfa at 1. unfold FindMatches. rewrite Hloop. simpl fst.
  split; [reflexivity |]. split.
  - intros i m Hi Hm.
    destruct (Hsearch (Z.of_nat i) ltac:(lia))
      as (st1 & r & st2 & Hready & Hcur & Hfind & Hsome & _).
    destruct (Hsome Hi) as (Hne & m' & -> & Hm').
    apply vec_at_Some in Hm' as [_ Hm']. rewrite Nat2Z.id in Hm'.
    assert (m' = m) by congruence. subst m'.
    destruct Hfind as [Hfind | Hfind]; [contradiction |].
    assert (Hc : input_index_ st1 = cursor_at start out' i).
    { apply cursor_at_search. destruct Hcur as [[H0 H1] | (m0 & H0 & H1 & H2)].
      - left. split; [exact H0 | exact H1].
      - right. exists m0. auto. }
    rewrite <- Hc.
    apply (FindMatchesNfa_one bytecode_ input_ gas st1 st2 (Some m) slot ltac:(lia)
             Hready Hfind).
  - intros Hlt.
    destruct (Hsearch (0 + Z.of_nat (length ms)) ltac:(lia))
      as (st1 & r & st2 & Hready & Hcur & Hfind & _ & Hnone).
    destruct Hfind as [Hfind | Hfind]; [lia |].
    rewrite (Hnone eq_refl ltac:(lia)) in Hfind.
    assert (Hc : input_index_ st1 = cursor_at start out' (Z.to_nat (0 + Z.of_nat (length ms)))).
    { apply cursor_at_search. rewrite Z2Nat.id by lia.
      destruct Hcur as [[H0 H1] | (m0 & H0 & H1 & H2)].
      - left. split; [exact H0 | exact H1].
      - right. exists m0. auto. }
    rewrite <- Hc.
    apply (FindMatchesNfa_one bytecode_ input_ gas st1 st2 None slot ltac:(lia)
             Hready Hfind).
Qed.

Lemma FindMatches_one_by_one_witness :
  exists n out',
    FindMatchesNfa [CONSUME_RANGE 97 97; ACCEPT] [97; 98; 97; 99; 97; 100] 18 0
      [{| begin := -1; end_ := -1 |}; {| begin := -1; end_ := -1 |};
       {| begin := -1; end_ := -1 |}; {| begin := -1; end_ := -1 |}] 4 = Some (n, out') /\
    (n < 4 ->
     FindMatchesNfa [CONSUME_RANGE 97 97; ACCEPT] [97; 98; 97; 99; 97; 100] 18
       (cursor_at 0 out' (Z.to_nat n)) [{| begin := -1; end_ := -1 |}] 1
     = Some (0, [{| begin := -1; end_ := -1 |}])).
Proof.
  destruct (FindMatches_one_by_one [CONSUME_RANGE 97 97; ACCEPT] [97; 98; 97; 99; 97; 100]
              18 0 4
              [{| begin := -1; end_ := -1 |}; {| begin := -1; end_ := -1 |};
               {| begin := -1; end_ := -1 |}; {| begin := -1; end_ := -1 |}]
              {| begin := -1; end_ := -1 |})
    as (n & out' & Hrun & _ & Hlast).
  - reflexivity.
  - simpl. lia.
  - lia.
  - simpl. lia.
  - unfold enough_gas. simpl. lia.
  - exists n, out'. split; [exact Hrun | exact Hlast].
Defined.

(** ** The input before the start index is not read *)

Section Behind.

Variable bytecode_ : list RegExpInstruction.
Variable input_ input' : list Z.
Variable gas : nat.
Variable start : Z.
Hypothesis Hvalid : valid_program bytecode_.
Hypothesis Hlength : length input' = length input_.
Hypothesis Hsame : forall i, start <= i -> vec_at input' i = vec_at input_ i.

Lemma FlushBlockedThreads_loop_index (c : Z) (i : nat) :
  forall st st',
    FlushBlockedThreads_loop bytecode_ i c st = Some st' ->
    input_index_ st' = input_index_ st.
Proof.
  induction i as [| i IH]; intros st st' Hrun; [inversion Hrun; reflexivity |].
  cbn [FlushBlockedThreads_loop] in Hrun.
  destruct (FlushBlockedThreads_body bytecode_ (S i) c st) as [st1 |] eqn:Hbody;
    [| discriminate].
  rewrite (IH st1 st' Hrun). unfold FlushBlockedThreads_body in Hbody.
  destruct (blocked_threads_ st !! (S i - 1)%nat) as [t |]; [| discriminate].
  destruct (vec_at bytecode_ (pc t)) as [[lo hi | | |] |]; try discriminate.
  destruct ((lo <=? c) && (c <=? hi)); inversion Hbody; reflexivity.
Qed.

Lemma FindNextMatch_body_behind (st : NfaInterpreter) :
  start <= input_index_ st ->
  FindNextMatch_body bytecode_ input' gas st = FindNextMatch_body bytecode_ input_ gas st /\
  forall st', FindNextMatch_body bytecode_ input_ gas st = Some st' ->
              start <= input_index_ st'.
Proof.
  intros Hidx. unfold FindNextMatch_body. rewrite (Hsame _ Hidx).
  split; [reflexivity |]. intros st'.
  destruct (vec_at input_ (input_index_ st)) as [c |]; [| discriminate].
  match goal with
  | |- context [FlushBlockedThreads bytecode_ c ?s] =>
      destruct (FlushBlockedThreads bytecode_ c s) as [st1 |] eqn:Hflush;
      [| discriminate];
      assert (Hi1 : input_index_ st1 = input_index_ s)
  end.
  { unfold FlushBlockedThreads in Hflush.
    match type of Hflush with
    | context [FlushBlockedThreads_loop bytecode_ ?i c ?s] =>
        destruct (FlushBlockedThreads_loop bytecode_ i c s) as [st2 |] eqn:Hloop;
        [| discriminate]
    end.
    inversion Hflush; subst. simpl.
    exact (FlushBlockedThreads_loop_index c _ _ _ Hloop). }
  intros Hrun. apply RunActiveThreads_loop_index in Hrun. rewrite Hrun, Hi1.
  simpl. destruct (best_match_ st); simpl; lia.
Qed.

Lemma FindNextMatch_loop_behind (n : nat) :
  forall st,
    start <= input_index_ st ->
    FindNextMatch_loop bytecode_ input' gas n st
    = FindNextMatch_loop bytecode_ input_ gas n st.
Proof.
  induction n as [| n IH]; intros st Hidx; [reflexivity |].
  cbn [FindNextMatch_loop]. unfold FindNextMatch_cond. rewrite Hlength.
  destruct (FindNextMatch_body_behind st Hidx) as [-> Hnext].
  destruct (FindNextMatch_body bytecode_ input_ gas st) as [st1 |]; [| reflexivity].
  rewrite (IH st1 (Hnext st1 eq_refl)). reflexivity.
Qed.

Lemma FindNextMatch_behind (st : NfaInterpreter) :
  start <= input_index_ st ->
  FindNextMatch bytecode_ input' gas st = FindNextMatch bytecode_ input_ gas st.
Proof.
  intros Hidx. unfold FindNextMatch.
  destruct (FindNextMatch_init bytecode_ gas st) as [st0 |] eqn:Hinit; [| reflexivity].
  unfold FindNextMatch_init in Hinit. apply RunActiveThreads_loop_index in Hinit.
  rewrite FindNextMatch_loop_behind; [reflexivity |]. rewrite Hinit. simpl. exact Hidx.
Qed.

Lemma FindMatches_loop_behind (max : Z) (n : nat) :
  forall k out st,
    ready bytecode_ input_ st ->
    start <= input_index_ st ->
    FindMatches_loop bytecode_ input' gas n k max out st
    = FindMatches_loop bytecode_ input_ gas n k max out st.
Proof.
  induction n as [| n IH]; intros k out st Hready Hidx; [reflexivity |].
  cbn [FindMatches_loop]. destruct (k =? max); [reflexivity |].
  rewrite (FindNextMatch_behind st Hidx).
  destruct (FindNextMatch bytecode_ input_ gas st) as [[[m |] st1] |] eqn:Hone;
    try reflexivity.
  destruct (vec_store out k m) as [out1 |]; [| reflexivity].
  destruct (FindNextMatch_bounds bytecode_ input_ gas Hvalid st m st1 Hready Hone)
    as (Hb1 & Hb2 & Hb3).
  destruct (FindNextMatch_rule bytecode_ input_ gas Hvalid (fun _ _ => True))
    with (st := st) (r := Some m) (st' := st1)
    as (st0 & Hwf0 & _ & _ & _ & _ & ->); auto.
  { intros t s x _ _ Hcase. destruct Hcase; exact I. }
  apply IH; [| simpl; lia].
  apply ready_cleaned; [exact Hwf0 |]. pose proof (ready_index _ _ _ Hready). lia.
Qed.

End Behind.

(** X8.  A search never looks behind its start index: for a valid program
    and a start index of the input, two inputs of the same length that have
    the same code units from the start index on give the same number of
    matches and the same buffer, whatever they hold before the start
    index. *)
Theorem FindMatchesNfa_ignores_prefix (bytecode_ : list RegExpInstruction)
    (input_ input' : list Z) (gas : nat) (start max : Z) (out : list MatchRange) :
  valid_program bytecode_ ->
  0 <= start <= Z.of_nat (length input_) ->
  length input' = length input_ ->
  (forall i, start <= i -> vec_at input' i = vec_at input_ i) ->
  FindMatchesNfa bytecode_ input' gas start out max
  = FindMatchesNfa bytecode_ input_ gas start out max.
Proof.
  intros Hvalid Hstart Hlength Hsame. unfold FindMatchesNfa, FindMatches.
  rewrite (FindMatches_loop_behind bytecode_ input_ input' gas start Hvalid Hlength Hsame
             max gas 0 out (NfaInterpreter_new bytecode_ start)); [reflexivity | |].
  - apply ready_new, Hstart.
  - simpl. lia.
Qed.

Lemma FindMatchesNfa_ignores_prefix_witness :
  FindMatchesNfa [CONSUME_RANGE 97 97; ACCEPT] [97; 97; 98; 97] 12 2
    [{| begin := -1; end_ := -1 |}; {| begin := -1; end_ := -1 |}] 2
  = FindMatchesNfa [CONSUME_RANGE 97 97; ACCEPT] [100; 101; 98; 97] 12 2
      [{| begin := -1; end_ := -1 |}; {| begin := -1; end_ := -1 |}] 2.
Proof.
  apply (FindMatchesNfa_ignores_prefix [CONSUME_RANGE 97 97; ACCEPT]
           [100; 101; 98; 97] [97; 97; 98; 97] 12 2 2
           [{| begin := -1; end_ := -1 |}; {| begin := -1; end_ := -1 |}]).
  - reflexivity.
  - simpl. lia.
  - reflexivity.
  - intros i Hi. unfold vec_at.
    destruct (Z.ltb_spec i 0); [reflexivity |].
    destruct (Z.to_nat i) as [| [| k]] eqn:E; try lia. reflexivity.
Defined.

(** ** The marks of processed program counters *)

(** X9.  [MarkPcProcessed] and [IsPcProcessed] go together: for a program
    counter [p] that is an index of [pc_last_input_index_],
    [MarkPcProcessed(p)] changes that vector only; afterwards
    [IsPcProcessed(p)] is true and [IsPcProcessed(q)] is, for every other
    [q], what it was before.  For a [p] that is not an index, both read or
    write outside the vector. *)
Theorem MarkPcProcessed_IsPcProcessed (p : Z) (st : NfaInterpreter) :
  (0 <= p < Z.of_nat (length (pc_last_input_index_ st)) ->
   exists st',
     MarkPcProcessed p st = Some st' /\
     IsPcProcessed p st' = Some true /\
     (forall q, q <> p -> IsPcProcessed q st' = IsPcProcessed q st) /\
     length (pc_last_input_index_ st') = length (pc_last_input_index_ st) /\
     input_index_ st' = input_index_ st /\
     active_threads_ st' = active_threads_ st /\
     blocked_threads_ st' = blocked_threads_ st /\
     best_match_ st' = best_match_ st) /\
  (~ 0 <= p < Z.of_nat (length (pc_last_input_index_ st)) ->
   MarkPcProcessed p st = None /\ IsPcProcessed p st = None).
Proof.
  split.
  - intros Hp. exists (mark p st). split; [apply MarkPcProcessed_Some, Hp |].
    split; [| split; [| split; [| repeat split]]].
    + apply IsPcProcessed_true, processed_mark_same, Hp.
    + intros q Hq. unfold IsPcProcessed, mark. simpl.
      destruct (Z_lt_dec q 0).
      * unfold vec_at. destruct (Z.ltb_spec q 0); [reflexivity | lia].
      * rewrite vec_at_store_ne by lia. reflexivity.
    + simpl. apply length_insert.
  - intros Hp. split.
    + unfold MarkPcProcessed, vec_store.
      destruct (Z.leb_spec 0 p);
        destruct (Z.ltb_spec p (Z.of_nat (length (pc_last_input_index_ st))));
        simpl; try reflexivity; lia.
    + unfold IsPcProcessed, vec_at. destruct (Z.ltb_spec p 0); [reflexivity |].
      rewrite (proj2 (lookup_ge_None _ _)) by lia. reflexivity.
Qed.

Lemma MarkPcProcessed_IsPcProcessed_witness :
  exists st',
    MarkPcProcessed 1 (NfaInterpreter_new [FORK 2; JMP 0; ACCEPT] 4) = Some st' /\
    IsPcProcessed 1 st' = Some true.
Proof.
  destruct (proj1 (MarkPcProcessed_IsPcProcessed 1
                     (NfaInterpreter_new [FORK 2; JMP 0; ACCEPT] 4)))
    as (st' & Hmark & His & _).
  - simpl. lia.
  - exists st'. split; [exact Hmark | exact His].
Defined.

(** X10.  The marks of one input index need no clearing for the next: at
    every moment of a single-match search of a valid program, once
    [input_index_] is incremented no program counter of the program is
    processed. *)
Theorem IsPcProcessed_after_increment (bytecode_ : list RegExpInstruction)
    (input_ : list Z) (st0 : NfaInterpreter) (place : Place) (st : NfaInterpreter) (q : Z) :
  valid_program bytecode_ ->
  ready bytecode_ input_ st0 ->
  moment bytecode_ input_ st0 place st ->
  0 <= q < Z.of_nat (length bytecode_) ->
  IsPcProcessed q (set_input_index (input_index_ st + 1) st) = Some false.
Proof.
  intros Hvalid Hready Hm Hq.
  pose proof (sized_last _ _ _ (sized_moment bytecode_ input_ st0 Hvalid Hready place st Hm))
    as Hlen.
  destruct (bounded_moment bytecode_ input_ st0 Hvalid Hready place st Hm)
    as [[_ Hlast] _].
  unfold IsPcProcessed. simpl.
  destruct (vec_at_is_Some (pc_last_input_index_ st) q) as [v Hv]; [lia |].
  rewrite Hv. apply vec_at_Some in Hv as [_ Hv]. apply Hlast in Hv.
  destruct (Z.eqb_spec v (input_index_ st + 1)); [lia | reflexivity].
Qed.

Lemma IsPcProcessed_after_increment_witness :
  IsPcProcessed 1
    (set_input_index (0 + 1)
       {| input_index_ := 0; pc_last_input_index_ := [0; 0; -1];
          active_threads_ := [{| pc := 1; match_begin := 0 |}];
          blocked_threads_ := [{| pc := 1; match_begin := 0 |}];
          best_match_ := None |}) = Some false.
Proof.
  apply (IsPcProcessed_after_increment [FORK 1; CONSUME_RANGE 97 97; ACCEPT] []
           (NfaInterpreter_new [FORK 1; CONSUME_RANGE 97 97; ACCEPT] 0)
           AtRunActiveThreads
           {| input_index_ := 0; pc_last_input_index_ := [0; 0; -1];
              active_threads_ := [{| pc := 1; match_begin := 0 |}];
              blocked_threads_ := [{| pc := 1; match_begin := 0 |}];
              best_match_ := None |} 1).
  - reflexivity.
  - constructor; simpl; auto; lia.
  - eapply moment_return.
    + eapply moment_continue.
      * eapply moment_pop; [apply moment_seeded | reflexivity].
      * reflexivity.
    + reflexivity.
  - simpl. lia.
Defined.

(** ** What the drain and the search leave behind *)

Section Contracts.

Variable bytecode_ : list RegExpInstruction.
Variable input_ : list Z.
Variable gas : nat.
Hypothesis Hvalid : valid_program bytecode_.

Lemma drained_step (st : NfaInterpreter) t s r :
  wf_state bytecode_ input_ (Some t) s ->
  drained st s ->
  RunActiveThread_case bytecode_ t s r ->
  drained st (state_after r).
Proof.
  intros Hwf (Hidx & [more Hblk] & Hproc & Hbest) Hcase.
  pose proof (wf_last _ _ _ _ Hwf) as Hlen.
  assert (Hmark : forall q, processed st q -> processed (mark (pc t) s) q).
  { intros q Hq. apply processed_mark; [| right; apply Hproc, Hq].
    pose proof (wf_cur _ _ _ _ Hwf t eq_refl) as Ht. unfold wf_thread in Ht. lia. }
  destruct Hcase; simpl; unfold drained; simpl.
  - repeat split; eauto.
  - split; [exact Hidx |]. split; [| split; [exact Hmark | exact Hbest]].
    exists (more ++ [t]). rewrite Hblk, app_assoc. reflexivity.
  - split; [exact Hidx |]. split; [eauto |]. split; [exact Hmark | exact Hbest].
  - split; [exact Hidx |]. split; [eauto |]. split; [exact Hmark | exact Hbest].
  - split; [exact Hidx |]. split; [eauto |]. split; [exact Hmark |].
    right. exists (match_begin t). rewrite Hidx. reflexivity.
Qed.

End Contracts.

(** X11.  What [RunActiveThreads] does to the interpreter: for a valid
    program, a well-formed state and enough gas, it returns with
    [active_threads_] empty; [input_index_] is unchanged;
    [blocked_threads_] has only grown at its end; every program counter
    that was processed still is; and [best_match_] is either unchanged or a
    match that ends at the current input index. *)
Theorem RunActiveThreads_contract (bytecode_ : list RegExpInstruction) (input_ : list Z)
    (gas : nat) (st : NfaInterpreter) :
  valid_program bytecode_ ->
  wf_state bytecode_ input_ None st ->
  (length (active_threads_ st) + 2 * length bytecode_ < gas)%nat ->
  exists st',
    RunActiveThreads bytecode_ gas st = Some st' /\
    active_threads_ st' = [] /\
    input_index_ st' = input_index_ st /\
    (exists more, blocked_threads_ st' = blocked_threads_ st ++ more) /\
    (forall q, processed st q -> processed st' q) /\
    (best_match_ st' = best_match_ st \/
     exists b, best_match_ st' = Some {| begin := b; end_ := input_index_ st |}).
Proof.
  intros Hvalid Hwf Hgas.
  destruct (RunActiveThreads_loop_total bytecode_ input_ gas Hvalid gas ltac:(lia) st Hwf)
    as (st' & Hrun & _ & _).
  { pose proof (unprocessed_le bytecode_ st). lia. }
  exists st'. split; [exact Hrun |].
  destruct (RunActiveThreads_loop_rule bytecode_ input_ gas Hvalid (fun _ => drained st))
    with (n := gas) (st := st) (st' := st') as (_ & Hd & Hnil);
    [| intros; assumption | assumption | | exact Hrun |].
  - intros t s r Hwfs Hd Hcase.
    pose proof (drained_step bytecode_ input_ st t s r Hwfs Hd Hcase) as H.
    destruct r as [[t1 s1] | s1]; exact H.
  - unfold drained. repeat split; auto. exists []. rewrite app_nil_r. reflexivity.
  - split; [exact Hnil | exact Hd].
Qed.

Lemma RunActiveThreads_contract_witness :
  exists st',
    RunActiveThreads [FORK 2; CONSUME_RANGE 97 97; ACCEPT] 8
      {| input_index_ := 0; pc_last_input_index_ := [-1; -1; -1];
         active_threads_ := [{| pc := 0; match_begin := 0 |}];
         blocked_threads_ := []; best_match_ := None |} = Some st' /\
    active_threads_ st' = [].
Proof.
  destruct (RunActiveThreads_contract [FORK 2; CONSUME_RANGE 97 97; ACCEPT] [97] 8
              {| input_index_ := 0; pc_last_input_index_ := [-1; -1; -1];
                 active_threads_ := [{| pc := 0; match_begin := 0 |}];
                 blocked_threads_ := []; best_match_ := None |})
    as (st' & Hrun & Hnil & _).
  - reflexivity.
  - constructor; simpl.
    + reflexivity.
    + lia.
    + discriminate.
    + constructor; [| constructor]. unfold wf_thread. simpl. lia.
    + constructor.
    + unfold unprocessed. simpl. lia.
  - simpl. lia.
  - exists st'. split; [exact Hrun | exact Hnil].
Defined.

(** X12.  [FindNextMatch] leaves the interpreter as the next call expects
    it: for a valid program, an interpreter whose thread lists are empty and
    enough gas, it returns with both thread lists empty and no best match,
    [pc_last_input_index_] of the size of the program and [input_index_] an
    index of the input or its length, not before the index the search
    started at.  If it returns a match, the input has been read at least to
    the end of the match; if it returns none, to the end of the input. *)
Theorem FindNextMatch_leaves_ready (bytecode_ : list RegExpInstruction) (input_ : list Z)
    (gas : nat) (st : NfaInterpreter) :
  valid_program bytecode_ ->
  ready bytecode_ input_ st ->
  (3 * length bytecode_ + length input_ + 2 <= gas)%nat ->
  exists r st',
    FindNextMatch bytecode_ input_ gas st = Some (r, st') /\
    ready bytecode_ input_ st' /\
    input_index_ st <= input_index_ st' /\
    (forall m, r = Some m -> end_ m <= input_index_ st') /\
    (r = None -> input_index_ st' = Z.of_nat (length input_)).
Proof.
  intros Hvalid Hready Hgas.
  destruct (FindNextMatch_total bytecode_ input_ gas Hvalid st Hgas Hready)
    as (r & st1 & Hrun & _ & _).
  destruct (FindNextMatch_rule bytecode_ input_ gas Hvalid (in_search (input_index_ st)))
    with (st := st) (r := r) (st' := cleaned st1)
    as (st2 & Hwf2 & HI2 & _ & Hcond & Hr & Hst); auto.
  - intros t s x _. apply in_search_step.
  - intros s rest t _. apply in_search_pop.
  - intros s c _ HI _ _ _. apply in_search_fed, HI.
  - exact (in_search_seeded bytecode_ input_ st Hready).
  - exists r, (cleaned st1). split; [exact Hrun |]. rewrite Hst.
    split; [| split; [| split]].
    + constructor; simpl; auto; apply Hwf2.
    + simpl. apply (search_index _ _ _ HI2).
    + intros m Hm. simpl. apply (search_best _ _ _ HI2 m). congruence.
    + intros Hnone. simpl. subst r.
      unfold FindNextMatch_cond in Hcond. rewrite Hnone in Hcond. simpl in Hcond.
      rewrite andb_true_r in Hcond. apply negb_false_iff, Z.eqb_eq in Hcond. exact Hcond.
Qed.

Lemma FindNextMatch_leaves_ready_witness :
  exists r st',
    FindNextMatch [CONSUME_RANGE 97 98; FORK 0; ACCEPT] [99; 97; 98; 99] 15
      (NfaInterpreter_new [CONSUME_RANGE 97 98; FORK 0; ACCEPT] 0) = Some (r, st') /\
    ready [CONSUME_RANGE 97 98; FORK 0; ACCEPT] [99; 97; 98; 99] st'.
Proof.
  destruct (FindNextMatch_leaves_ready [CONSUME_RANGE 97 98; FORK 0; ACCEPT] [99; 97; 98; 99]
              15 (NfaInterpreter_new [CONSUME_RANGE 97 98; FORK 0; ACCEPT] 0))
    as (r & st' & Hrun & Hready & _).
  - reflexivity.
  - constructor; simpl; auto; lia.
  - simpl. lia.
  - exists r, st'. split; [exact Hrun | exact Hready].
Defined.

(** X13.  An interpreter can be used again: [FindMatches] on an interpreter
    whose thread lists are empty, whatever earlier searches left in
    [pc_last_input_index_], returns the number of matches and the buffer
    that the entry point returns with a new interpreter at the same
    index. *)
Theorem FindMatches_reuse (bytecode_ : list RegExpInstruction) (input_ : list Z)
    (gas : nat) (st : NfaInterpreter) (out : list MatchRange) (max : Z) :
  ready bytecode_ input_ st ->
  option_map fst (FindMatches bytecode_ input_ gas out max st)
  = FindMatchesNfa bytecode_ input_ gas (input_index_ st) out max.
Proof.
  intros Hready. unfold FindMatchesNfa, FindMatches.
  destruct gas as [| g]; [reflexivity |]. cbn [FindMatches_loop].
  destruct (0 =? max); [reflexivity |].
  rewrite (FindNextMatch_fresh _ _ _ _ Hready).
  destruct (FindNextMatch bytecode_ input_ (S g)
              (NfaInterpreter_new bytecode_ (input_index_ st))) as [[[m |] st1] |];
    reflexivity.
Qed.

Lemma FindMatches_reuse_witness :
  option_map fst
    (FindMatches [CONSUME_RANGE 97 97; ACCEPT] [97; 98; 97] 12
       [{| begin := -1; end_ := -1 |}; {| begin := -1; end_ := -1 |}] 2
       {| input_index_ := 1; pc_last_input_index_ := [1; 1];
          active_threads_ := []; blocked_threads_ := []; best_match_ := None |})
  = FindMatchesNfa [CONSUME_RANGE 97 97; ACCEPT] [97; 98; 97] 12 1
      [{| begin := -1; end_ := -1 |}; {| begin := -1; end_ := -1 |}] 2.
Proof.
  apply (FindMatches_reuse [CONSUME_RANGE 97 97; ACCEPT] [97; 98; 97] 12
           {| input_index_ := 1; pc_last_input_index_ := [1; 1];
              active_threads_ := []; blocked_threads_ := []; best_match_ := None |}).
  constructor; simpl; auto; lia.
Defined.

(** ** The work of a search is linear in the length of the input *)

Section Work.

Variable bytecode_ : list RegExpInstruction.
Variable input_ : list Z.
Variable gas : nat.
Hypothesis Hvalid : valid_program bytecode_.

Local Abbreviation wf := (wf_state bytecode_ input_).

(** What a drain can still cost: every thread to run ends in one iteration
    more than the program counters it processes, and a processed [FORK]
    adds one thread. *)
Local Abbreviation potential st :=
  (length (active_threads_ st) + 2 * unprocessed bytecode_ st)%nat.

Lemma RunActiveThread_count_le (n : nat) :
  forall (t : InterpreterThread) (st : NfaInterpreter),
    wf (Some t) st ->
    (unprocessed bytecode_ st < n)%nat ->
    exists st',
      RunActiveThread_loop bytecode_ n t st = Some st' /\
      wf None st' /\
      (1 <= RunActiveThread_count bytecode_ n t st)%nat /\
      (RunActiveThread_count bytecode_ n t st + potential st' <= potential st + 1)%nat.
Proof.
  induction n as [| n IH]; intros t st Hwf Hn; [lia |].
  destruct (RunActiveThread_body_is_Some bytecode_ t st) as [r Hr].
  { apply Hwf. } { eapply wf_cur; eauto. }
  pose proof (RunActiveThread_body_case bytecode_ t st r (wf_last _ _ _ _ Hwf) Hr) as Hcase.
  pose proof (wf_step bytecode_ input_ Hvalid t st r Hwf Hcase) as Hwf'.
  cbn [RunActiveThread_loop RunActiveThread_count]. rewrite Hr.
  destruct Hcase as [Hp | lo hi Hnp Hwt Hi | target Hnp Hwt Hi | target Hnp Hwt Hi | Hnp Hwt Hi];
    try pose proof (unprocessed_mark bytecode_ (pc t) st (wf_last _ _ _ _ Hwf) Hwt Hnp) as Hm.
  - exists st. split; [reflexivity |]. split; [exact Hwf' |]. lia.
  - eexists. split; [reflexivity |]. split; [exact Hwf' |].
    unfold unprocessed in *. simpl in *. lia.
  - destruct (IH _ _ Hwf') as (st' & Hrun & Hwf'' & _ & Hle).
    { unfold unprocessed in *. simpl in *. lia. }
    exists st'. split; [exact Hrun |]. split; [exact Hwf'' |].
    simpl in Hle. rewrite length_app in Hle. simpl in Hle.
    unfold unprocessed in *. simpl in *. lia.
  - destruct (IH _ _ Hwf') as (st' & Hrun & Hwf'' & _ & Hle).
    { unfold unprocessed in *. simpl in *. lia. }
    exists st'. split; [exact Hrun |]. split; [exact Hwf'' |].
    unfold unprocessed in *. simpl in *. lia.
  - eexists. split; [reflexivity |]. split; [exact Hwf' |].
    unfold unprocessed in *. simpl in *. lia.
Qed.

Lemma RunActiveThreads_count_le (n : nat) :
  (length bytecode_ < gas)%nat ->
  forall st : NfaInterpreter,
    wf None st ->
    (potential st < n)%nat ->
    exists st',
      RunActiveThreads_loop bytecode_ gas n st = Some st' /\
      wf None st' /\
      active_threads_ st' = [] /\
      (RunActiveThreads_count bytecode_ gas n st + potential st' <= potential st)%nat.
Proof.
  intros Hgas. induction n as [| n IH]; intros st Hwf Hn; [lia |].
  cbn [RunActiveThreads_loop RunActiveThreads_count].
  destruct (pop_back (active_threads_ st)) as [[rest t] |] eqn:Hpop.
  - apply pop_back_Some in Hpop.
    pose proof (wf_pop bytecode_ input_ st rest t Hwf Hpop) as Hwf1.
    destruct (RunActiveThread_count_le gas t _ Hwf1) as (st1 & Hrun & Hwf2 & Hone & Hle).
    { pose proof (unprocessed_le bytecode_ (set_active_threads rest st)). lia. }
    unfold RunActiveThread. rewrite Hrun.
    rewrite Hpop, length_app in Hn. simpl in Hn, Hle.
    change (unprocessed bytecode_ (set_active_threads rest st))
      with (unprocessed bytecode_ st) in Hle.
    destruct (IH st1 Hwf2) as (st' & Hloop & Hwf' & Hnil & Hle'); [lia |].
    exists st'. split; [exact Hloop |]. split; [exact Hwf' |]. split; [exact Hnil |].
    rewrite Hpop, length_app. simpl. lia.
  - apply pop_back_None in Hpop. exists st.
    split; [reflexivity |]. split; [exact Hwf |]. split; [exact Hpop |]. simpl. lia.
Qed.

Lemma FlushBlockedThreads_advanced (st : NfaInterpreter) (c : Z) :
  Forall (parked bytecode_) (blocked_threads_ st) ->
  FlushBlockedThreads bytecode_ c (advanced st) = Some (fed bytecode_ c st).
Proof.
  intros Hpark. rewrite FlushBlockedThreads_eq.
  - unfold fed, advanced. simpl. destruct (best_match_ st); simpl; [| reflexivity].
    rewrite app_nil_r. reflexivity.
  - rewrite blocked_threads_advanced. exact Hpark.
Qed.

(** One input step costs at most [4 * size + 1] iterations. *)
Lemma FindNextMatch_body_count_le (st : NfaInterpreter) :
  (3 * length bytecode_ + 2 <= gas)%nat ->
  wf None st ->
  active_threads_ st = [] ->
  (FindNextMatch_body_count bytecode_ input_ gas st <= 4 * length bytecode_ + 1)%nat.
Proof.
  intros Hgas Hwf Hnil. unfold FindNextMatch_body_count.
  destruct (vec_at input_ (input_index_ st)) as [c |] eqn:Hc; [| lia].
  rewrite (FlushBlockedThreads_advanced st c (wf_blocked _ _ _ _ Hwf)).
  rewrite blocked_threads_advanced.
  pose proof (wf_count _ _ _ _ Hwf) as Hcount.
  assert (Hne : input_index_ st <> Z.of_nat (length input_)).
  { apply vec_at_lt in Hc. lia. }
  pose proof (wf_fed bytecode_ input_ Hvalid c st Hwf Hnil Hne) as Hwf1.
  assert (Hpot : (potential (fed bytecode_ c st)
                  <= 1 + length (blocked_threads_ st) + 2 * length bytecode_)%nat).
  { pose proof (unprocessed_le bytecode_ (fed bytecode_ c st)).
    pose proof (unblocked_length bytecode_ c (rev (blocked_threads_ st))).
    rewrite length_rev in *. simpl. rewrite Hnil, !length_app. simpl.
    destruct (best_match_ st); simpl; lia. }
  destruct (RunActiveThreads_count_le gas ltac:(lia) (fed bytecode_ c st) Hwf1)
    as (st' & _ & _ & _ & Hle); lia.
Qed.

Lemma FindNextMatch_loop_count_le (n : nat) :
  (3 * length bytecode_ + 2 <= gas)%nat ->
  forall st : NfaInterpreter,
    wf None st ->
    active_threads_ st = [] ->
    (FindNextMatch_loop_count bytecode_ input_ gas n st
     <= (4 * length bytecode_ + 1)
        * Z.to_nat (Z.of_nat (length input_) - input_index_ st))%nat.
Proof.
  intros Hgas. induction n as [| n IH]; intros st Hwf Hnil; [apply Nat.le_0_l |].
  cbn [FindNextMatch_loop_count].
  destruct (FindNextMatch_cond input_ st) eqn:Hcond; [| apply Nat.le_0_l].
  apply FindNextMatch_cond_true in Hcond as [Hne _].
  pose proof (FindNextMatch_body_count_le st Hgas Hwf Hnil) as Hbody.
  destruct (FindNextMatch_body_total bytecode_ input_ gas Hvalid st Hgas Hwf Hnil Hne)
    as (c & st1 & _ & Hrun & _ & Hwf1 & Hnil1 & Hidx).
  rewrite Hrun. specialize (IH st1 Hwf1 Hnil1). rewrite Hidx in IH.
  pose proof (wf_index _ _ _ _ Hwf) as Hrange.
  replace (Z.to_nat (Z.of_nat (length input_) - input_index_ st))
    with (S (Z.to_nat (Z.of_nat (length input_) - (input_index_ st + 1)))) by lia.
  rewrite Nat.mul_succ_r. lia.
Qed.

Lemma FindNextMatch_count_le (st : NfaInterpreter) :
  (3 * length bytecode_ + 2 <= gas)%nat ->
  ready bytecode_ input_ st ->
  (FindNextMatch_count bytecode_ input_ gas st
   <= (4 * length bytecode_ + 1)
      * (Z.to_nat (Z.of_nat (length input_) - input_index_ st) + 1))%nat.
Proof.
  intros Hgas Hready. unfold FindNextMatch_count.
  change (FindNextMatch_init bytecode_ gas st)
    with (RunActiveThreads_loop bytecode_ gas gas (seeded st)).
  pose proof (wf_seeded bytecode_ input_ Hvalid st Hready) as Hwf.
  assert (Hpot : (potential (seeded st) <= 1 + 2 * length bytecode_)%nat).
  { pose proof (unprocessed_le bytecode_ (seeded st)).
    simpl. rewrite (ready_active _ _ _ Hready). simpl. lia. }
  destruct (RunActiveThreads_count_le gas ltac:(lia) (seeded st) Hwf)
    as (st0 & Hrun & Hwf0 & Hnil0 & Hle); [lia |].
  rewrite Hrun.
  pose proof (FindNextMatch_loop_count_le gas Hgas st0 Hwf0 Hnil0) as Hloop.
  rewrite (RunActiveThreads_loop_index _ _ _ _ _ Hrun) in Hloop.
  change (input_index_ (seeded st)) with (input_index_ st) in Hloop.
  rewrite Nat.mul_add_distr_l, Nat.mul_1_r. lia.
Qed.

End Work.

(** X14.  A single-match search takes time linear in the length of the
    input: for a valid program, the iterations of the [while (true)] of
    [RunActiveThread] (each checks one program counter and executes at most
    one instruction) and of the [for] of [FlushBlockedThreads] in one call
    of [FindNextMatch], which returns, are together at most
    [(4 * size + 1) * (length - input_index_ + 1)], for a program of [size]
    instructions and an input of [length] code units. *)
Theorem FindNextMatch_linear (bytecode_ : list RegExpInstruction) (input_ : list Z)
    (gas : nat) (st : NfaInterpreter) :
  valid_program bytecode_ ->
  ready bytecode_ input_ st ->
  (3 * length bytecode_ + length input_ + 2 <= gas)%nat ->
  (exists r st', FindNextMatch bytecode_ input_ gas st = Some (r, st')) /\
  (FindNextMatch_count bytecode_ input_ gas st
   <= (4 * length bytecode_ + 1)
      * (Z.to_nat (Z.of_nat (length input_) - input_index_ st) + 1))%nat.
Proof.
  intros Hvalid Hready Hgas. split.
  - destruct (FindNextMatch_total bytecode_ input_ gas Hvalid st Hgas Hready)
      as (r & st1 & Hrun & _ & _).
    eauto.
  - apply (FindNextMatch_count_le bytecode_ input_ gas Hvalid st); [lia | exact Hready].
Qed.

Lemma FindNextMatch_linear_witness :
  Nat.le
    (FindNextMatch_count [FORK 3; CONSUME_RANGE 97 97; JMP 0; ACCEPT] [97; 97; 97] 17
       (NfaInterpreter_new [FORK 3; CONSUME_RANGE 97 97; JMP 0; ACCEPT] 0))
    ((4 * 4 + 1) * (3 + 1)).
Proof.
  apply (FindNextMatch_linear [FORK 3; CONSUME_RANGE 97 97; JMP 0; ACCEPT] [97; 97; 97] 17
           (NfaInterpreter_new [FORK 3; CONSUME_RANGE 97 97; JMP 0; ACCEPT] 0)).
  - reflexivity.
  - constructor; simpl; auto; lia.
  - simpl. lia.
Defined.

(** ** Outside the preconditions of the constructor *)

(** X15.  The constructor only asserts that the program is not empty; with
    an empty program every call of an entry point that asks for a match
    reads [pc_last_input_index_[0]], which does not exist. *)
Theorem FindMatchesNfa_empty_program (input_ : list Z) (gas : nat) (start max : Z)
    (out : list MatchRange) :
  max <> 0 ->
  FindMatchesNfa [] input_ gas start out max = None.
Proof.
  intros Hmax. unfold FindMatchesNfa, FindMatches.
  destruct gas as [| g]; [reflexivity |]. cbn [FindMatches_loop].
  destruct (Z.eqb_spec 0 max) as [E | _]; [congruence |].
  reflexivity.
Qed.

Lemma FindMatchesNfa_empty_program_witness :
  FindMatchesNfa [] [97; 98] 5 0 [{| begin := -1; end_ := -1 |}] 1 = None.
Proof.
  apply (FindMatchesNfa_empty_program [97; 98] 5 0 1 [{| begin := -1; end_ := -1 |}]).
  lia.
Defined.

(** X16.  The constructor only asserts that the start index is not beyond
    the input.  For a valid program, a search started beyond the end of the
    input never returns that there is no match: either the program accepts
    without input and the search returns the empty match at the start
    index, or its [while] reads [input_[input_index_]] outside the input. *)
Theorem FindNextMatch_start_beyond_input (bytecode_ : list RegExpInstruction)
    (input_ : list Z) (gas : nat) (start : Z) :
  valid_program bytecode_ ->
  Z.of_nat (length input_) < start ->
  (3 * length bytecode_ + 2 <= gas)%nat ->
  FindNextMatch bytecode_ input_ gas (NfaInterpreter_new bytecode_ start) = None \/
  exists st',
    FindNextMatch bytecode_ input_ gas (NfaInterpreter_new bytecode_ start)
    = Some (Some {| begin := start; end_ := start |}, st').
Proof.
  intros Hvalid Hstart Hgas.
  set (st := NfaInterpreter_new bytecode_ start).
  set (longer := replicate (Z.to_nat start) 0).
  assert (Hready : ready bytecode_ longer st).
  { apply ready_new. unfold longer. rewrite length_replicate. lia. }
  destruct (FindNextMatch_init_total bytecode_ longer gas Hvalid st Hgas Hready)
    as (st0 & Hinit & Hwf0 & Hnil0).
  destruct (RunActiveThreads_loop_rule bytecode_ longer gas Hvalid (in_search start))
    with (n := gas) (st := seeded st) (st' := st0) as (_ & Hin & _).
  - intros t s r _. apply in_search_step.
  - intros s rest t _. apply in_search_pop.
  - apply wf_seeded; assumption.
  - exact (in_search_seeded bytecode_ longer st Hready).
  - exact Hinit.
  - assert (Hidx : input_index_ st0 = start).
    { rewrite (RunActiveThreads_loop_index _ _ _ _ _ Hinit). reflexivity. }
    unfold FindNextMatch. rewrite Hinit.
    destruct gas as [| g]; [lia |]. cbn [FindNextMatch_loop].
    unfold FindNextMatch_cond, FindNextMatch_body. rewrite Hidx.
    destruct (Z.eqb_spec start (Z.of_nat (length input_))) as [E | _]; [lia |].
    assert (Hc : vec_at input_ start = None).
    { unfold vec_at. destruct (Z.ltb_spec start 0); [reflexivity |].
      apply lookup_ge_None. lia. }
    rewrite Hc. simpl.
    destruct (best_match_ st0) as [m |] eqn:Hbest; simpl; [| left; reflexivity].
    destruct (blocked_threads_ st0); simpl; [| left; reflexivity].
    right. eexists. f_equal. f_equal.
    pose proof (search_best _ _ _ Hin m Hbest) as Hm. rewrite Hidx in Hm.
    destruct m as [b e]. simpl in Hm.
    assert (Hb : b = start) by lia. assert (He : e = start) by lia.
    rewrite Hbest, Hb, He. reflexivity.
Qed.

Lemma FindNextMatch_start_beyond_input_witness :
  FindNextMatch [FORK 2; ACCEPT; CONSUME_RANGE 97 97; ACCEPT] [97] 14
    (NfaInterpreter_new [FORK 2; ACCEPT; CONSUME_RANGE 97 97; ACCEPT] 3) = None \/
  exists st',
    FindNextMatch [FORK 2; ACCEPT; CONSUME_RANGE 97 97; ACCEPT] [97] 14
      (NfaInterpreter_new [FORK 2; ACCEPT; CONSUME_RANGE 97 97; ACCEPT] 3)
    = Some (Some {| begin := 3; end_ := 3 |}, st').
Proof.
  apply (FindNextMatch_start_beyond_input
           [FORK 2; ACCEPT; CONSUME_RANGE 97 97; ACCEPT] [97] 14 3).
  - reflexivity.
  - simpl. lia.
  - simpl. lia.
Defined.

(** ** The order of the threads *)

Section Order.

Variable bytecode_ : list RegExpInstruction.
Variable input_ : list Z.
Variable st0 : NfaInterpreter.
Hypothesis Hvalid : valid_program bytecode_.
Hypothesis Hready : ready bytecode_ input_ st0.

Lemma ordered_step (t : InterpreterThread) (st : NfaInterpreter) r :
  ordered (InRunActiveThread t) st ->
  RunActiveThread_case bytecode_ t st r ->
  match r with
  | Return st' => ordered AtRunActiveThreads st'
  | Continue (t', st') => ordered (InRunActiveThread t') st'
  end.
Proof.
  intros [Hblk Hpend Hbtw Hbest] Hcase. simpl current in *.
  rewrite pending_Some in Hpend, Hbtw, Hbest.
  pose proof (proj1 (StronglySorted_cons _ _ _) Hpend) as [Hhead Hrest].
  rewrite Forall_forall in Hhead.
  destruct Hcase as [Hp | lo hi Hnp Hwt Hi | target Hnp Hwt Hi | target Hnp Hwt Hi | Hnp Hwt Hi];
    constructor; simpl current; rewrite ?pending_None, ?pending_Some;
    simpl blocked_threads_; simpl active_threads_; simpl best_match_.
  - exact Hblk.
  - exact Hrest.
  - intros b u Hb Hu. apply Hbtw; [exact Hb | right; exact Hu].
  - intros m Hm. specialize (Hbest m Hm). rewrite Forall_app, Forall_cons in Hbest.
    apply Forall_app. split; apply Hbest.
  - apply StronglySorted_app. split; [| split; [exact Hblk | repeat constructor]].
    intros b u Hb Hu. apply list_elem_of_singleton in Hu as ->. apply Hbtw; [exact Hb | left].
  - exact Hrest.
  - intros b u Hb Hu. apply elem_of_app in Hb as [Hb | Hb].
    + apply Hbtw; [exact Hb | right; exact Hu].
    + apply list_elem_of_singleton in Hb as ->. apply Hhead, Hu.
  - intros m Hm. specialize (Hbest m Hm). rewrite <- app_assoc. exact Hbest.
  - exact Hblk.
  - rewrite rev_app_distr. simpl.
    apply (sorted_replace [] _ [with_pc (pc t + 1) t; with_pc target t] t Hpend).
    repeat constructor.
  - rewrite rev_app_distr. simpl. intros b u Hb Hu.
    pose proof (Hbtw b t Hb ltac:(left)) as Hbt.
    apply elem_of_cons in Hu as [-> | Hu]; [exact Hbt |].
    apply elem_of_cons in Hu as [-> | Hu]; [exact Hbt |].
    apply Hbtw; [exact Hb | right; exact Hu].
  - rewrite rev_app_distr. simpl. intros m Hm. specialize (Hbest m Hm).
    apply (Forall_replace _ _ _ [with_pc (pc t + 1) t; with_pc target t] t Hbest).
    intros Ht. repeat constructor; exact Ht.
  - exact Hblk.
  - apply (sorted_replace [] _ [with_pc target t] t Hpend). repeat constructor.
  - intros b u Hb Hu. pose proof (Hbtw b t Hb ltac:(left)) as Hbt.
    apply elem_of_cons in Hu as [-> | Hu]; [exact Hbt |].
    apply Hbtw; [exact Hb | right; exact Hu].
  - intros m Hm. specialize (Hbest m Hm).
    apply (Forall_replace _ _ _ [with_pc target t] t Hbest).
    intros Ht. repeat constructor; exact Ht.
  - exact Hblk.
  - constructor.
  - intros b u _ Hu. apply elem_of_nil in Hu. contradiction.
  - intros m [= <-]. simpl. rewrite app_nil_r. apply Forall_forall.
    intros b Hb. apply (Hbtw b t Hb). left.
Qed.

(** At every moment of a search the threads are in the order of their start
    positions. *)
Lemma ordered_moment (place : Place) (st : NfaInterpreter) :
  moment bytecode_ input_ st0 place st -> ordered place st.
Proof.
  intros Hm.
  induction Hm as [| st rest t Hm IH Hpop | t st t' st' Hm IH Hbody | t st st' Hm IH Hbody
                   | st c Hm IH Hpop Hcond Hc | i c st st' Hm IH Hbody | c st Hm IH];
    try pose proof (sized_moment bytecode_ input_ st0 Hvalid Hready _ _ Hm) as Hsized;
    try (destruct (bounded_moment bytecode_ input_ st0 Hvalid Hready _ _ Hm)
           as [_ Hin]).
  - destruct Hready as [_ _ Hact Hblk Hbest].
    constructor; simpl current; rewrite ?pending_None; simpl; rewrite ?Hact, ?Hblk, ?Hbest;
      simpl.
    + constructor.
    + repeat constructor.
    + intros b t Hb. apply elem_of_nil in Hb. contradiction.
    + discriminate.
  - apply pop_back_Some in Hpop. destruct IH as [Hblk Hpend Hbtw Hbest].
    simpl current in *.
    assert (Hp : pending None st = pending (Some t) (set_active_threads rest st)).
    { unfold pending. rewrite Hpop, rev_app_distr. reflexivity. }
    constructor; simpl current; rewrite <- ?Hp; assumption.
  - pose proof (RunActiveThread_body_case bytecode_ t st _ (sized_last _ _ _ Hsized) Hbody)
      as Hcase.
    apply (ordered_step t st _ IH Hcase).
  - pose proof (RunActiveThread_body_case bytecode_ t st _ (sized_last _ _ _ Hsized) Hbody)
      as Hcase.
    apply (ordered_step t st _ IH Hcase).
  - apply pop_back_None in Hpop. destruct IH as [Hblk Hpend Hbtw Hbest].
    simpl current in *. rewrite pending_None, Hpop in Hbest. simpl in Hbest.
    pose proof (search_blocked _ _ _ Hin) as Hle. rewrite Forall_forall in Hle.
    unfold advanced. simpl. destruct (best_match_ st) as [m |] eqn:Hbm; simpl;
      constructor; simpl current; rewrite ?pending_None; simpl; rewrite ?Hpop, ?Hbm;
      simpl; try exact Hblk; try repeat constructor.
    + intros b t _ Ht. apply elem_of_nil in Ht. contradiction.
    + intros m' [= <-]. apply (Hbest m eq_refl).
    + intros b t Hb Ht. apply list_elem_of_singleton in Ht as ->.
      rewrite firstn_all in Hb. specialize (Hle b Hb). unfold by_begin. simpl. lia.
    + discriminate.
  - destruct IH as [Hblk Hpend Hbtw Hbest]. simpl current in *.
    rewrite pending_None in Hpend, Hbtw, Hbest.
    destruct (sized_place _ _ _ Hsized) as [Hi _].
    destruct (lookup_lt_is_Some_2 (blocked_threads_ st) i) as [t Ht]; [lia |].
    assert (Hp : parked bytecode_ t).
    { eapply Forall_lookup_1; [apply (sized_parked _ _ _ Hsized) | exact Ht]. }
    rewrite (FlushBlockedThreads_body_eq bytecode_ i c st t Ht Hp) in Hbody.
    inversion Hbody; subst st'. clear Hbody.
    assert (Hti : t ∈ take (S i) (blocked_threads_ st)).
    { rewrite (take_S_r _ _ _ Ht). apply elem_of_app. right. left. }
    assert (Hlow : forall b, b ∈ take i (blocked_threads_ st) -> by_begin b t).
    { intros b Hb. rewrite <- (take_drop_middle _ _ _ Ht) in Hblk.
      apply (StronglySorted_app_1_elem_of _ _ _ b t Hblk Hb). left. }
    assert (Hsub : forall b, b ∈ take i (blocked_threads_ st) ->
                             b ∈ take (S i) (blocked_threads_ st)).
    { intros b Hb. rewrite (take_S_r _ _ _ Ht). apply elem_of_app. left. exact Hb. }
    assert (Hnew : forall u, u ∈ rev (unblocked bytecode_ c [t]) ->
                             match_begin u = match_begin t).
    { intros u Hu. apply list_elem_of_In, in_rev, list_elem_of_In in Hu.
      apply elem_of_unblocked in Hu as (t1 & Ht1 & _ & ->).
      apply list_elem_of_singleton in Ht1 as ->. reflexivity. }
    constructor; simpl current; rewrite ?pending_None; simpl blocked_threads_;
      simpl active_threads_; simpl best_match_; rewrite ?rev_app_distr.
    + exact Hblk.
    + apply StronglySorted_app. split; [| split; [| exact Hpend]].
      * intros u v Hu Hv. pose proof (Hbtw t v Hti Hv) as H. pose proof (Hnew u Hu) as E.
        unfold by_begin in *. lia.
      * apply (sorted_same_begin (match_begin t)). apply Forall_forall. exact Hnew.
    + intros b u Hb Hu. apply elem_of_app in Hu as [Hu | Hu].
      * pose proof (Hlow b Hb) as H. pose proof (Hnew u Hu) as E.
        unfold by_begin in *. lia.
      * apply Hbtw; [apply Hsub, Hb | exact Hu].
    + intros m Hmb. specialize (Hbest m Hmb). rewrite Forall_app in Hbest.
      destruct Hbest as [HB HA]. apply Forall_app. split; [exact HB |].
      apply Forall_app. split; [| exact HA].
      apply Forall_forall. intros u Hu. rewrite (Hnew u Hu).
      rewrite Forall_forall in HB. apply HB. eapply list_elem_of_lookup_2; eauto.
  - destruct IH as [Hblk Hpend Hbtw Hbest]. simpl current in *.
    constructor; simpl current; simpl blocked_threads_.
    + constructor.
    + exact Hpend.
    + intros b t Hb. apply elem_of_nil in Hb. contradiction.
    + intros m Hmb. specialize (Hbest m Hmb). apply Forall_app in Hbest. apply Hbest.
Qed.

End Order.

(** X17.  The order of priority is the order of start positions: at every
    moment of a single-match search of a valid program, the threads in the
    order of their priority, that is [blocked_threads_] from first to last,
    then the thread being run, then [active_threads_] from last to first,
    have start positions that never decrease (in [FlushBlockedThreads],
    where threads are moved from one list to the other, each list by
    itself); and no thread begins after the best match. *)
Theorem threads_in_start_order (bytecode_ : list RegExpInstruction) (input_ : list Z)
    (st0 : NfaInterpreter) (place : Place) (st : NfaInterpreter) :
  valid_program bytecode_ ->
  ready bytecode_ input_ st0 ->
  moment bytecode_ input_ st0 place st ->
  match place with
  | InFlushBlockedThreads _ _ =>
      StronglySorted by_begin (blocked_threads_ st) /\
      StronglySorted by_begin (rev (active_threads_ st))
  | _ =>
      StronglySorted by_begin (blocked_threads_ st ++ pending (current place) st)
  end /\
  forall m, best_match_ st = Some m ->
    Forall (fun u => match_begin u <= begin m)
      (blocked_threads_ st ++ pending (current place) st).
Proof.
  intros Hvalid Hready Hm.
  destruct (ordered_moment bytecode_ input_ st0 Hvalid Hready place st Hm)
    as [Hblk Hpend Hbtw Hbest].
  split; [| exact Hbest].
  destruct place; simpl current in *; try (split; assumption);
    apply StronglySorted_app; auto.
Qed.

Lemma threads_in_start_order_witness :
  StronglySorted by_begin
    ([{| pc := 1; match_begin := 0 |}] ++ [{| pc := 1; match_begin := 0 |}]).
Proof.
  destruct (threads_in_start_order [FORK 1; CONSUME_RANGE 97 97; ACCEPT] []
              (NfaInterpreter_new [FORK 1; CONSUME_RANGE 97 97; ACCEPT] 0)
              AtRunActiveThreads
              {| input_index_ := 0; pc_last_input_index_ := [0; 0; -1];
                 active_threads_ := [{| pc := 1; match_begin := 0 |}];
                 blocked_threads_ := [{| pc := 1; match_begin := 0 |}];
                 best_match_ := None |})
    as (Hall & _).
  - reflexivity.
  - constructor; simpl; auto; lia.
  - eapply moment_return.
    + eapply moment_continue.
      * eapply moment_pop; [apply moment_seeded | reflexivity].
      * reflexivity.
    + reflexivity.
  - exact Hall.
Defined.

(** ** The input a search reads *)

Section Ahead.

Variable bytecode_ : list RegExpInstruction.
Variable input_ input' : list Z.
Variable gas : nat.

Lemma FindNextMatch_body_index (st st' : NfaInterpreter) :
  FindNextMatch_body bytecode_ input_ gas st = Some st' ->
  input_index_ st' = input_index_ st + 1.
Proof.
  unfold FindNextMatch_body.
  destruct (vec_at input_ (input_index_ st)) as [c |]; [| discriminate].
  fold (advanced st).
  destruct (FlushBlockedThreads bytecode_ c (advanced st)) as [st1 |] eqn:Hflush;
    [| discriminate].
  intros Hrun. apply RunActiveThreads_loop_index in Hrun. rewrite Hrun.
  unfold FlushBlockedThreads in Hflush.
  destruct (FlushBlockedThreads_loop bytecode_ (length (blocked_threads_ (advanced st)))
              c (advanced st)) as [st2 |] eqn:Hloop; [| discriminate].
  inversion Hflush; subst. simpl.
  rewrite (FlushBlockedThreads_loop_index bytecode_ c _ _ _ Hloop).
  unfold advanced. simpl. destruct (best_match_ st); reflexivity.
Qed.

Lemma FindNextMatch_loop_index (n : nat) :
  forall st st',
    FindNextMatch_loop bytecode_ input_ gas n st = Some st' ->
    input_index_ st <= input_index_ st'.
Proof.
  induction n as [| n IH]; intros st st' Hrun; [discriminate |].
  cbn [FindNextMatch_loop] in Hrun.
  destruct (FindNextMatch_cond input_ st); [| inversion Hrun; lia].
  destruct (FindNextMatch_body bytecode_ input_ gas st) as [st1 |] eqn:Hbody;
    [| discriminate].
  apply FindNextMatch_body_index in Hbody. apply IH in Hrun. lia.
Qed.

Lemma FindNextMatch_loop_ahead (n : nat) :
  forall st st',
    FindNextMatch_loop bytecode_ input_ gas n st = Some st' ->
    (forall i, input_index_ st <= i < input_index_ st' ->
               vec_at input' i = vec_at input_ i) ->
    (input_index_ st' = Z.of_nat (length input_) -> length input' = length input_) ->
    FindNextMatch_loop bytecode_ input' gas n st = Some st'.
Proof.
  induction n as [| n IH]; intros st st' Hrun Hsame Hend; [discriminate |].
  cbn [FindNextMatch_loop] in *. unfold FindNextMatch_cond in *.
  destruct (negb (has_value (best_match_ st) && is_nil (blocked_threads_ st))) eqn:Hgo.
  - rewrite andb_true_r in *.
    destruct (Z.eqb_spec (input_index_ st) (Z.of_nat (length input_))) as [E | Hne];
      simpl in Hrun.
    + inversion Hrun; subst st'. rewrite (Hend E), <- E, Z.eqb_refl. reflexivity.
    + destruct (FindNextMatch_body bytecode_ input_ gas st) as [st1 |] eqn:Hbody;
        [| discriminate].
      pose proof (FindNextMatch_body_index st st1 Hbody) as Hidx.
      pose proof (FindNextMatch_loop_index n st1 st' Hrun) as Hle.
      assert (Hc : vec_at input' (input_index_ st) = vec_at input_ (input_index_ st)).
      { apply Hsame. lia. }
      assert (Hbody' : FindNextMatch_body bytecode_ input' gas st = Some st1).
      { unfold FindNextMatch_body in *. rewrite Hc. exact Hbody. }
      assert (Hin : input_index_ st <> Z.of_nat (length input')).
      { unfold FindNextMatch_body in Hbody.
        destruct (vec_at input_ (input_index_ st)) as [c |]; [| discriminate].
        apply vec_at_lt in Hc. lia. }
      destruct (Z.eqb_spec (input_index_ st) (Z.of_nat (length input'))); [contradiction |].
      simpl. rewrite Hbody'. apply IH; [exact Hrun | | exact Hend].
      intros i Hi. apply Hsame. lia.
  - rewrite andb_false_r in *. exact Hrun.
Qed.

End Ahead.

(** X18.  A search reads the input only between the index it starts at and
    the index it stops at: if [FindNextMatch] returns on one input, it
    returns the same result and leaves the same state on every other input
    that has the same code units between these two indices and, in case the
    search stopped at the end of the input, ends there too. *)
Theorem FindNextMatch_reads_scanned_only (bytecode_ : list RegExpInstruction)
    (input_ input' : list Z) (gas : nat) (st st' : NfaInterpreter)
    (r : option MatchRange) :
  FindNextMatch bytecode_ input_ gas st = Some (r, st') ->
  (forall i, input_index_ st <= i < input_index_ st' ->
             vec_at input' i = vec_at input_ i) ->
  (input_index_ st' = Z.of_nat (length input_) -> length input' = length input_) ->
  FindNextMatch bytecode_ input' gas st = Some (r, st').
Proof.
  unfold FindNextMatch. intros Hrun Hsame Hend.
  destruct (FindNextMatch_init bytecode_ gas st) as [st0 |] eqn:Hinit; [| discriminate].
  destruct (FindNextMatch_loop bytecode_ input_ gas gas st0) as [st1 |] eqn:Hloop;
    [| discriminate].
  inversion Hrun; subst r st'. simpl in Hsame, Hend.
  unfold FindNextMatch_init in Hinit. apply RunActiveThreads_loop_index in Hinit.
  simpl in Hinit.
  rewrite (FindNextMatch_loop_ahead bytecode_ input_ input' gas gas st0 st1 Hloop);
    [reflexivity | | exact Hend].
  intros i Hi. apply Hsame. lia.
Qed.

Lemma FindNextMatch_reads_scanned_only_witness :
  FindNextMatch [CONSUME_RANGE 97 97; ACCEPT] [100; 98; 97] 12
    {| input_index_ := 1; pc_last_input_index_ := [-1; -1];
       active_threads_ := []; blocked_threads_ := []; best_match_ := None |}
  = Some (Some {| begin := 2; end_ := 3 |},
          {| input_index_ := 3; pc_last_input_index_ := [2; 3];
             active_threads_ := []; blocked_threads_ := []; best_match_ := None |}).
Proof.
  apply (FindNextMatch_reads_scanned_only [CONSUME_RANGE 97 97; ACCEPT]
           [98; 98; 97; 99; 99] [100; 98; 97] 12).
  - reflexivity.
  - intros i Hi. simpl in Hi. unfold vec_at.
    destruct (Z.ltb_spec i 0); [lia |].
    destruct (Z.to_nat i) as [| [| [| k]]] eqn:E; try lia; reflexivity.
  - simpl. lia.
Defined.

(** ** The matches of a call of [FindMatches], one by one *)

(** C2.  For a valid program, a start index of the input, [max_match_num >= 0]
    and a buffer with room for that many matches, [FindMatches] returns a
    number [n] with [0 <= n <= max_match_num] and has written [n] matches to
    the start of the buffer; the rest of the buffer is unchanged.  Each
    match [out[i]] has [begin <= end], is the result of a search begun at
    index [start] for [i = 0] and at [out[i-1].end] for [i > 0], and begins
    at or after the index its search started at; so the matches are in
    input order and [out[i].begin >= out[i-1].end].  Each is a match of the
    program, and the first one at or after the index its search started at.
    The number [n] is as large as it can be: if [n < max_match_num], the
    search begun at the end of the last match (at [start], if there is
    none) returns no match, and the program has no match from there on. *)
Theorem FindMatches_spec (bytecode_ : list RegExpInstruction) (input_ : list Z)
    (gas : nat) (start max : Z) (out : list MatchRange) :
  valid_program bytecode_ ->
  0 <= start <= Z.of_nat (length input_) ->
  0 <= max ->
  max <= Z.of_nat (length out) ->
  enough_gas bytecode_ input_ max gas ->
  exists n out',
    FindMatchesNfa bytecode_ input_ gas start out max = Some (n, out') /\
    0 <= n <= max /\
    length out' = length out /\
    (forall i, n <= i -> vec_at out' i = vec_at out i) /\
    (forall i, 0 <= i < n ->
      exists m cursor,
        vec_at out' i = Some m /\
        begin m <= end_ m /\ end_ m <= Z.of_nat (length input_) /\
        (i = 0 /\ cursor = start \/
         exists m0, 0 < i /\ vec_at out' (i - 1) = Some m0 /\ cursor = end_ m0) /\
        cursor <= begin m /\
        (exists st st',
            ready bytecode_ input_ st /\ input_index_ st = cursor /\
            FindNextMatch bytecode_ input_ gas st = Some (Some m, st')) /\
        Matches bytecode_ input_ (begin m) (end_ m) /\
        forall s e, cursor <= s < begin m -> ~ Matches bytecode_ input_ s e) /\
    (n < max ->
      exists cursor,
        (n = 0 /\ cursor = start \/
         exists m0, 0 < n /\ vec_at out' (n - 1) = Some m0 /\ cursor = end_ m0) /\
        (exists st st',
            ready bytecode_ input_ st /\ input_index_ st = cursor /\
            FindNextMatch bytecode_ input_ gas st = Some (None, st')) /\
        forall s e, cursor <= s <= Z.of_nat (length input_) ->
                    ~ Matches bytecode_ input_ s e).
Proof.
  intros Hvalid Hstart Hmax Hout Hgas. unfold enough_gas in Hgas.
  destruct (FindMatches_loop_spec bytecode_ input_ gas Hvalid max gas ltac:(lia)
              0 out (NfaInterpreter_new bytecode_ start))
    as (ms & out' & st' & Hloop & Hle & Hlen & Hin & _ & _); try lia.
  { apply ready_new, Hstart. }
  destruct (FindMatches_loop_searches bytecode_ input_ gas Hvalid max gas
              0 out (NfaInterpreter_new bytecode_ start) (0 + Z.of_nat (length ms)) out' st')
    as (_ & _ & Hsearch); [apply ready_new, Hstart | lia | exact Hloop |].
  exists (0 + Z.of_nat (length ms)), out'.
  unfold FindMatchesNfa, FindMatches. rewrite Hloop. simpl fst.
  split; [reflexivity |]. split; [lia |]. split; [exact Hlen |].
  split; [| split].
  - intros i Hi. specialize (Hin (Z.to_nat i)).
    replace (0 + Z.of_nat (Z.to_nat i)) with i in Hin by lia.
    destruct (decide (Z.to_nat i < length ms)%nat); [lia | exact Hin].
  - intros i Hi.
    destruct (Hsearch i ltac:(lia))
      as (st1 & r & st2 & Hready & Hcur & Hfind & Hsome & _).
    destruct (Hsome ltac:(lia)) as (Hne & m & -> & Hm).
    destruct Hfind as [Hfind | Hfind]; [contradiction |].
    destruct (FindNextMatch_bounds bytecode_ input_ gas Hvalid st1 m st2 Hready Hfind)
      as (Hb1 & Hb2 & Hb3).
    exists m, (input_index_ st1).
    split; [exact Hm |]. split; [exact Hb2 |]. split; [exact Hb3 |].
    split; [| split; [exact Hb1 | split; [| split]]].
    + destruct Hcur as [[H0 H1] | (m0 & H0 & H1 & H2)].
      * left. split; [exact H0 | exact H1].
      * right. exists m0. split; [lia |]. split; [exact H1 | exact H2].
    + exists st1, st2. split; [exact Hready |]. split; [reflexivity | exact Hfind].
    + exact (FindNextMatch_Matches bytecode_ input_ gas Hvalid st1 m st2 Hready Hfind).
    + intros s e Hse HM.
      destruct (FindNextMatch_first bytecode_ input_ gas Hvalid st1 (Some m) st2 Hready
                  Hfind s e ltac:(lia) HM) as (m' & [= <-] & Hlt).
      lia.
  - intros Hlt.
    destruct (Hsearch (0 + Z.of_nat (length ms)) ltac:(lia))
      as (st1 & r & st2 & Hready & Hcur & Hfind & _ & Hnone).
    destruct Hfind as [Hfind | Hfind]; [lia |].
    rewrite (Hnone eq_refl ltac:(lia)) in Hfind.
    exists (input_index_ st1). split; [| split].
    + destruct Hcur as [[H0 H1] | (m0 & H0 & H1 & H2)].
      * left. split; [exact H0 | exact H1].
      * right. exists m0. split; [lia |]. split; [exact H1 | exact H2].
    + exists st1, st2. split; [exact Hready |]. split; [reflexivity | exact Hfind].
    + intros s e Hse HM.
      destruct (FindNextMatch_first bytecode_ input_ gas Hvalid st1 None st2 Hready
                  Hfind s e Hse HM) as (m' & Hm' & _).
      discriminate.
Qed.

Lemma FindMatches_spec_witness :
  exists n out',
    FindMatchesNfa [CONSUME_RANGE 97 97; ACCEPT] [97; 98; 97; 99; 97; 100] 18 0
      [{| begin := -1; end_ := -1 |}; {| begin := -1; end_ := -1 |};
       {| begin := -1; end_ := -1 |}; {| begin := -1; end_ := -1 |}] 4 = Some (n, out') /\
    n = 3 /\
    out' = [{| begin := 0; end_ := 1 |}; {| begin := 2; end_ := 3 |};
            {| begin := 4; end_ := 5 |}; {| begin := -1; end_ := -1 |}] /\
    (forall i, 0 <= i < n ->
      exists m cursor,
        vec_at out' i = Some m /\
        (i = 0 /\ cursor = 0 \/
         exists m0, 0 < i /\ vec_at out' (i - 1) = Some m0 /\ cursor = end_ m0) /\
        cursor <= begin m /\
        Matches [CONSUME_RANGE 97 97; ACCEPT] [97; 98; 97; 99; 97; 100] (begin m) (end_ m) /\
        forall s e, cursor <= s < begin m ->
                    ~ Matches [CONSUME_RANGE 97 97; ACCEPT] [97; 98; 97; 99; 97; 100] s e) /\
    (n < 4 ->
      exists cursor,
        (n = 0 /\ cursor = 0 \/
         exists m0, 0 < n /\ vec_at out' (n - 1) = Some m0 /\ cursor = end_ m0) /\
        forall s e, cursor <= s <= 6 ->
                    ~ Matches [CONSUME_RANGE 97 97; ACCEPT] [97; 98; 97; 99; 97; 100] s e).
Proof.
  destruct (FindMatches_spec [CONSUME_RANGE 97 97; ACCEPT] [97; 98; 97; 99; 97; 100] 18 0 4
              [{| begin := -1; end_ := -1 |}; {| begin := -1; end_ := -1 |};
               {| begin := -1; end_ := -1 |}; {| begin := -1; end_ := -1 |}])
    as (n & out' & Hrun & Hn & Hlen & Hrest & Heach & Hlast).
  - reflexivity.
  - simpl. lia.
  - lia.
  - simpl. lia.
  - unfold enough_gas. simpl. lia.
  - exists n, out'. split; [exact Hrun |].
    assert (E : Some (n, out')
                = Some (3, [{| begin := 0; end_ := 1 |}; {| begin := 2; end_ := 3 |};
                            {| begin := 4; end_ := 5 |}; {| begin := -1; end_ := -1 |}])).
    { rewrite <- Hrun. reflexivity. }
    split; [congruence |]. split; [congruence |]. split.
    + intros i Hi. destruct (Heach i Hi)
        as (m & cursor & H1 & _ & _ & H2 & H3 & _ & H4 & H5).
      exists m, cursor. auto.
    + intros Hlt. destruct (Hlast Hlt) as (cursor & H1 & _ & H2).
      exists cursor. auto.
Defined.

(** ** The condition of the loop of a search *)

Section Tests.

Variable bytecode_ : list RegExpInstruction.
Variable input_ : list Z.
Variable gas : nat.

(** The tests of the condition of a loop that returns: each but the last
    finds the condition true, reads the code unit at the index and runs the
    body; the last finds it false, in the state the loop returns. *)
Lemma FindNextMatch_tests_loop (n : nat) :
  forall st st1,
    FindNextMatch_loop bytecode_ input_ gas n st = Some st1 ->
    forall (k : nat) (h : NfaInterpreter),
      FindNextMatch_tests bytecode_ input_ gas n st !! k = Some h ->
      input_index_ h = input_index_ st + Z.of_nat k /\
      (FindNextMatch_cond input_ h = true ->
         exists c h',
           vec_at input_ (input_index_ h) = Some c /\
           FindNextMatch_body bytecode_ input_ gas h = Some h' /\
           FindNextMatch_tests bytecode_ input_ gas n st !! S k = Some h') /\
      (FindNextMatch_cond input_ h = false ->
         FindNextMatch_tests bytecode_ input_ gas n st !! S k = None /\ st1 = h).
Proof.
  induction n as [| n IH]; intros st st1 Hrun k h Hk; [discriminate |].
  cbn [FindNextMatch_loop] in Hrun. cbn [FindNextMatch_tests] in Hk |- *.
  destruct k as [| k].
  - simpl in Hk. inversion Hk; subst h. clear Hk.
    split; [lia |].
    destruct (FindNextMatch_cond input_ st) eqn:Hcond.
    + destruct (FindNextMatch_body bytecode_ input_ gas st) as [st' |] eqn:Hbody;
        [| discriminate].
      split; [| discriminate]. intros _.
      assert (Hc : exists c, vec_at input_ (input_index_ st) = Some c).
      { unfold FindNextMatch_body in Hbody.
        destruct (vec_at input_ (input_index_ st)) as [c |]; [eauto | discriminate]. }
      destruct Hc as [c Hc]. exists c, st'.
      split; [exact Hc |]. split; [reflexivity |].
      destruct n as [| n]; [discriminate |]. reflexivity.
    + split; [discriminate |]. intros _. split; [reflexivity | congruence].
  - simpl in Hk.
    destruct (FindNextMatch_cond input_ st) eqn:Hcond; [| discriminate].
    destruct (FindNextMatch_body bytecode_ input_ gas st) as [st' |] eqn:Hbody;
      [| discriminate].
    destruct (IH st' st1 Hrun k h Hk) as (Hi & Htrue & Hfalse).
    apply FindNextMatch_body_index in Hbody.
    split; [lia |]. split; [exact Htrue | exact Hfalse].
Qed.

(** C3.  A search ([FindNextMatch]) of a valid program returns.  The
    condition of its loop is first tested in the state the initial
    [RunActiveThreads] leaves, and the [k]-th test is at the input index
    [k] symbols after the start.  Each test succeeds exactly when the input
    index is strictly below the length of the input and it is not the case
    that the best match is set and the blocked list is empty.  A test that
    succeeds reads the symbol at the index, runs the body, and is followed
    by the next test; a test that fails is the last one, and the search
    returns the best match of that state, with the input index of that
    state.  In particular, once the best match is set and the blocked list
    is empty at a test, no further symbol is consumed, and the search
    returns this best match. *)
Theorem FindNextMatch_loop_condition (st : NfaInterpreter) :
  valid_program bytecode_ ->
  ready bytecode_ input_ st ->
  (3 * length bytecode_ + length input_ + 2 <= gas)%nat ->
  exists st0 r st',
    FindNextMatch_init bytecode_ gas st = Some st0 /\
    FindNextMatch bytecode_ input_ gas st = Some (r, st') /\
    FindNextMatch_tests bytecode_ input_ gas gas st0 !! 0%nat = Some st0 /\
    forall (k : nat) (h : NfaInterpreter),
      FindNextMatch_tests bytecode_ input_ gas gas st0 !! k = Some h ->
      input_index_ h = input_index_ st + Z.of_nat k /\
      (FindNextMatch_cond input_ h = true <->
         input_index_ h < Z.of_nat (length input_) /\
         ~ (best_match_ h <> None /\ blocked_threads_ h = [])) /\
      (FindNextMatch_cond input_ h = true ->
         exists c h',
           vec_at input_ (input_index_ h) = Some c /\
           FindNextMatch_body bytecode_ input_ gas h = Some h' /\
           FindNextMatch_tests bytecode_ input_ gas gas st0 !! S k = Some h') /\
      (FindNextMatch_cond input_ h = false ->
         FindNextMatch_tests bytecode_ input_ gas gas st0 !! S k = None /\
         r = best_match_ h /\ st' = cleaned h) /\
      (forall m,
         best_match_ h = Some m -> blocked_threads_ h = [] ->
         FindNextMatch_tests bytecode_ input_ gas gas st0 !! S k = None /\
         r = Some m /\ input_index_ st' = input_index_ h).
Proof.
  intros Hvalid Hready Hgas.
  destruct (FindNextMatch_total bytecode_ input_ gas Hvalid st Hgas Hready)
    as (r & st1 & Hrun & Hr & _).
  pose proof Hrun as Hrun'. unfold FindNextMatch in Hrun'.
  destruct (FindNextMatch_init bytecode_ gas st) as [st0 |] eqn:Hinit; [| discriminate].
  simpl in Hrun'.
  destruct (FindNextMatch_loop bytecode_ input_ gas gas st0) as [st2 |] eqn:Hloop;
    [| discriminate].
  simpl in Hrun'.
  assert (Hidx0 : input_index_ st0 = input_index_ st).
  { unfold FindNextMatch_init in Hinit.
    apply RunActiveThreads_loop_index in Hinit. exact Hinit. }
  exists st0, (best_match_ st2), (cleaned st2).
  split; [reflexivity |]. split.
  { unfold FindNextMatch. rewrite Hinit. simpl. rewrite Hloop. reflexivity. }
  split.
  { destruct gas; [discriminate | reflexivity]. }
  intros k h Hk.
  destruct (FindNextMatch_tests_loop gas st0 st2 Hloop k h Hk) as (Hi & Htrue & Hfalse).
  assert (Hstop : forall m, best_match_ h = Some m -> blocked_threads_ h = [] ->
                            FindNextMatch_cond input_ h = false).
  { intros m Hm Hb. unfold FindNextMatch_cond. rewrite Hm, Hb. simpl.
    apply andb_false_r. }
  split; [lia |]. split; [| split; [exact Htrue | split]].
  - split.
    + intros Hcond. destruct (Htrue Hcond) as (c & _ & Hc & _).
      apply FindNextMatch_cond_true in Hcond as [_ Hnot].
      split; [| exact Hnot].
      apply vec_at_lt in Hc. lia.
    + intros [Hlt Hnot]. apply FindNextMatch_cond_true. split; [lia | exact Hnot].
  - intros Hcond. destruct (Hfalse Hcond) as [Hlast ->]. auto.
  - intros m Hm Hb. destruct (Hfalse (Hstop m Hm Hb)) as [Hlast ->].
    split; [exact Hlast |]. split; [exact Hm | reflexivity].
Qed.

End Tests.

Lemma FindNextMatch_loop_condition_witness :
  exists st0 r st',
    FindNextMatch_init [CONSUME_RANGE 97 97; ACCEPT] 16
      (NfaInterpreter_new [CONSUME_RANGE 97 97; ACCEPT] 0) = Some st0 /\
    FindNextMatch [CONSUME_RANGE 97 97; ACCEPT] [98; 97; 99; 100] 16
      (NfaInterpreter_new [CONSUME_RANGE 97 97; ACCEPT] 0) = Some (r, st') /\
    r = Some {| begin := 1; end_ := 2 |} /\
    input_index_ st' = 2 /\
    map input_index_
      (FindNextMatch_tests [CONSUME_RANGE 97 97; ACCEPT] [98; 97; 99; 100] 16 16 st0)
    = [0; 1; 2] /\
    forall (k : nat) (h : NfaInterpreter),
      FindNextMatch_tests [CONSUME_RANGE 97 97; ACCEPT] [98; 97; 99; 100] 16 16 st0 !! k
      = Some h ->
      (FindNextMatch_cond [98; 97; 99; 100] h = true <->
         input_index_ h < 4 /\ ~ (best_match_ h <> None /\ blocked_threads_ h = [])) /\
      (forall m,
         best_match_ h = Some m -> blocked_threads_ h = [] ->
         r = Some m /\ input_index_ st' = input_index_ h).
Proof.
  destruct (FindNextMatch_loop_condition [CONSUME_RANGE 97 97; ACCEPT] [98; 97; 99; 100] 16
              (NfaInterpreter_new [CONSUME_RANGE 97 97; ACCEPT] 0))
    as (st0 & r & st' & Hinit & Hrun & Hfirst & Htests).
  - reflexivity.
  - apply ready_new. simpl. lia.
  - simpl. lia.
  - exists st0, r, st'. split; [exact Hinit |]. split; [exact Hrun |].
    assert (E0 : Some st0
                 = FindNextMatch_init [CONSUME_RANGE 97 97; ACCEPT] 16
                     (NfaInterpreter_new [CONSUME_RANGE 97 97; ACCEPT] 0)).
    { symmetry. exact Hinit. }
    assert (E : Some (r, st')
                = FindNextMatch [CONSUME_RANGE 97 97; ACCEPT] [98; 97; 99; 100] 16
                    (NfaInterpreter_new [CONSUME_RANGE 97 97; ACCEPT] 0)).
    { symmetry. exact Hrun. }
    vm_compute in E0. vm_compute in E. inversion E0; subst st0. inversion E; subst r st'.
    split; [reflexivity |]. split; [reflexivity |]. split; [reflexivity |].
    intros k h Hk. destruct (Htests k h Hk) as (_ & Hiff & _ & _ & Hstop).
    split; [exact Hiff |]. intros m Hm Hb. destruct (Hstop m Hm Hb) as (_ & H1 & H2).
    split; [exact H1 | exact H2].
Defined.

(** ** The closure of the continuation of a [FORK] *)

Section Fork.

Variable bytecode_ : list RegExpInstruction.
Variable input_ : list Z.
Variable gas : nat.
Hypothesis Hvalid : valid_program bytecode_.

Variable old : Z -> Prop.
Variables p b i0 : Z.
Variable best0 : option MatchRange.

Local Abbreviation wf := (wf_state bytecode_ input_).
Local Abbreviation inv := (closure_inv bytecode_ old p b i0 best0).

Lemma in_hand_weaken cur st cur' st' x :
  (forall q, processed st q -> processed st' q) ->
  (forall u, u ∈ pending cur st -> processed st' (pc u) \/ u ∈ pending cur' st') ->
  in_hand cur st x -> in_hand cur' st' x.
Proof.
  intros Hm Hp [H | H]; [left; auto |].
  apply list_elem_of_fmap in H as (u & -> & Hu).
  destruct (Hp u Hu) as [H | H]; [left; exact H |].
  right. apply list_elem_of_fmap. eauto.
Qed.

Lemma closure_step_weaken cur st cur' st' q :
  (forall q, processed st q -> processed st' q) ->
  (forall u, u ∈ pending cur st -> processed st' (pc u) \/ u ∈ pending cur' st') ->
  (forall u, u ∈ blocked_threads_ st -> u ∈ blocked_threads_ st') ->
  closure_step bytecode_ b cur st q -> closure_step bytecode_ b cur' st' q.
Proof.
  intros Hm Hp Hb. unfold closure_step.
  destruct (vec_at bytecode_ q) as [[lo hi | target | target |] |]; auto.
  - intros [H1 H2]. split; eapply in_hand_weaken; eauto.
  - eapply in_hand_weaken; eauto.
Qed.

Lemma closure_inv_pop st rest t :
  inv None st ->
  active_threads_ st = rest ++ [t] ->
  inv (Some t) (set_active_threads rest st).
Proof.
  intros [H1 H2 H3 H4 H5] Hact.
  assert (E : pending (Some t) (set_active_threads rest st) = pending None st).
  { rewrite pending_Some, pending_None. simpl. rewrite Hact, rev_app_distr. reflexivity. }
  constructor; auto.
  - rewrite E. exact H4.
  - unfold closure_step, in_hand in *. rewrite E. exact H5.
Qed.

Lemma closure_inv_step t st r :
  wf (Some t) st ->
  inv (Some t) st ->
  RunActiveThread_case bytecode_ t st r ->
  match r with
  | Return st' => inv None st'
  | Continue (t', st') => inv (Some t') st'
  end.
Proof.
  intros Hwf [Hidx Hold Hnew Hpend Hcases] Hcase.
  destruct Hcases as [(_ & _ & Hnil) | (Hbest & Hp & Hclosed)]; [discriminate |].
  rewrite pending_Some in Hpend. apply Forall_cons in Hpend as [[Hb Hct] Hrest].
  assert (Hr : 0 <= pc t < Z.of_nat (length (pc_last_input_index_ st))).
  { rewrite (wf_last _ _ _ _ Hwf). apply (wf_cur _ _ _ _ Hwf t eq_refl). }
  assert (Hm : forall q, processed st q -> processed (mark (pc t) st) q).
  { intros q Hq. apply (processed_mark (pc t) q st Hr). right. exact Hq. }
  assert (Ht : t = {| pc := pc t; match_begin := b |}).
  { destruct t; simpl in *; subst; reflexivity. }
  destruct Hcase as [Hproc | lo hi Hnp Hwt Hi | target Hnp Hwt Hi | target Hnp Hwt Hi
                    | Hnp Hwt Hi].
  - (* processed *)
    assert (Hpd : forall u, u ∈ pending (Some t) st ->
                            processed st (pc u) \/ u ∈ pending None st).
    { intros u Hu. rewrite pending_Some in Hu.
      apply elem_of_cons in Hu as [-> | Hu]; [left; exact Hproc | right; exact Hu]. }
    constructor; auto. right. split; [exact Hbest |]. split.
    + eapply in_hand_weaken; eauto.
    + intros q Hq Hnq. eapply closure_step_weaken; eauto.
  - (* CONSUME_RANGE *)
    assert (Hnold : ~ old (pc t)) by (intros H; apply Hnp, Hold, H).
    set (st' := set_blocked_threads (blocked_threads_ (mark (pc t) st) ++ [t])
                  (mark (pc t) st)).
    assert (Hm' : forall q, processed st q -> processed st' q) by exact Hm.
    assert (Hpd : forall u, u ∈ pending (Some t) st ->
                            processed st' (pc u) \/ u ∈ pending None st').
    { intros u Hu. rewrite pending_Some in Hu.
      apply elem_of_cons in Hu as [-> | Hu]; [left | right; exact Hu].
      apply (processed_mark_same (pc t) st Hr). }
    assert (Hbl : forall u, u ∈ blocked_threads_ st -> u ∈ blocked_threads_ st').
    { intros u Hu. simpl. apply elem_of_app. left. exact Hu. }
    constructor; auto.
    + intros q Hq. apply (processed_mark (pc t) q st Hr) in Hq as [-> | Hq]; auto.
    + right. split; [exact Hbest |]. split.
      * eapply in_hand_weaken; eauto.
      * intros q Hq Hnq. apply (processed_mark (pc t) q st Hr) in Hq as [-> | Hq].
        -- unfold closure_step. rewrite Hi. simpl. apply elem_of_app. right.
           rewrite <- Ht. apply list_elem_of_singleton. reflexivity.
        -- eapply closure_step_weaken; eauto.
  - (* FORK *)
    assert (Hnold : ~ old (pc t)) by (intros H; apply Hnp, Hold, H).
    set (st' := set_active_threads (active_threads_ st ++ [with_pc target t])
                  (mark (pc t) st)).
    set (t' := with_pc (pc t + 1) t).
    assert (E : pending (Some t') st' = t' :: with_pc target t :: rev (active_threads_ st)).
    { rewrite pending_Some. simpl. rewrite rev_app_distr. reflexivity. }
    assert (Hm' : forall q, processed st q -> processed st' q) by exact Hm.
    assert (Hpd : forall u, u ∈ pending (Some t) st ->
                            processed st' (pc u) \/ u ∈ pending (Some t') st').
    { intros u Hu. rewrite pending_Some in Hu. rewrite E.
      apply elem_of_cons in Hu as [-> | Hu].
      - left. apply (processed_mark_same (pc t) st Hr).
      - right. apply elem_of_cons. right. apply elem_of_cons. right. exact Hu. }
    constructor; auto.
    + intros q Hq. apply (processed_mark (pc t) q st Hr) in Hq as [-> | Hq]; auto.
    + rewrite E. apply Forall_cons. split; [| apply Forall_cons; split; [| exact Hrest]].
      * split; [exact Hb |]. simpl. eapply Closure_fork_next; eauto.
      * split; [exact Hb |]. simpl. eapply Closure_fork_target; eauto.
    + right. split; [exact Hbest |]. split.
      * eapply in_hand_weaken; eauto.
      * intros q Hq Hnq. apply (processed_mark (pc t) q st Hr) in Hq as [-> | Hq].
        -- unfold closure_step. rewrite Hi. unfold in_hand. rewrite E. simpl.
           split; right.
           ++ apply elem_of_cons. left. reflexivity.
           ++ apply elem_of_cons. right. apply elem_of_cons. left. reflexivity.
        -- eapply closure_step_weaken; eauto.
  - (* JMP *)
    assert (Hnold : ~ old (pc t)) by (intros H; apply Hnp, Hold, H).
    set (st' := mark (pc t) st).
    set (t' := with_pc target t).
    assert (E : pending (Some t') st' = t' :: rev (active_threads_ st)).
    { reflexivity. }
    assert (Hpd : forall u, u ∈ pending (Some t) st ->
                            processed st' (pc u) \/ u ∈ pending (Some t') st').
    { intros u Hu. rewrite pending_Some in Hu. rewrite E.
      apply elem_of_cons in Hu as [-> | Hu].
      - left. apply (processed_mark_same (pc t) st Hr).
      - right. apply elem_of_cons. right. exact Hu. }
    constructor; auto.
    + intros q Hq. apply (processed_mark (pc t) q st Hr) in Hq as [-> | Hq]; auto.
    + rewrite E. apply Forall_cons. split; [| exact Hrest].
      split; [exact Hb |]. simpl. eapply Closure_jmp; eauto.
    + right. split; [exact Hbest |]. split.
      * eapply in_hand_weaken; eauto.
      * intros q Hq Hnq. apply (processed_mark (pc t) q st Hr) in Hq as [-> | Hq].
        -- unfold closure_step. rewrite Hi. unfold in_hand. rewrite E. simpl.
           right. apply elem_of_cons. left. reflexivity.
        -- eapply closure_step_weaken; eauto.
  - (* ACCEPT *)
    assert (Hnold : ~ old (pc t)) by (intros H; apply Hnp, Hold, H).
    constructor; auto.
    + intros q Hq. apply Hm, Hold, Hq.
    + intros q Hq. apply (processed_mark (pc t) q st Hr) in Hq as [-> | Hq]; auto.
    + left. split; [| split].
      * exists (pc t). split; [exact Hct |]. split; [exact Hnold |].
        split; [exact Hi |]. apply (processed_mark_same (pc t) st Hr).
      * simpl. rewrite Hb, Hidx. reflexivity.
      * reflexivity.
Qed.

(** The run of a thread and of the drain after it keeps the invariant. *)
Lemma closure_inv_run t st s2 s3 :
  wf (Some t) st ->
  inv (Some t) st ->
  RunActiveThread bytecode_ gas t st = Some s2 ->
  RunActiveThreads bytecode_ gas s2 = Some s3 ->
  wf None s2 /\ wf None s3 /\ inv None s3 /\ active_threads_ s3 = [].
Proof.
  intros Hwf Hinv H2 H3.
  destruct (RunActiveThread_loop_rule bytecode_ input_ Hvalid inv closure_inv_step
              gas t st s2 Hwf Hinv H2) as [Hwf2 Hinv2].
  destruct (RunActiveThreads_loop_rule bytecode_ input_ gas Hvalid inv closure_inv_step
              (fun st rest t _ => closure_inv_pop st rest t)
              gas s2 s3 Hwf2 Hinv2 H3) as (Hwf3 & Hinv3 & Hnil).
  auto.
Qed.

(** When the drain is over and no thread accepted, the closure is processed. *)
Lemma closure_inv_final st q :
  inv None st ->
  active_threads_ st = [] ->
  (forall q, processed st q -> ~ old q -> closure_step bytecode_ b None st q) ->
  in_hand None st p ->
  Closure bytecode_ old p q ->
  processed st q.
Proof.
  intros Hinv Hnil Hclosed Hp.
  assert (Hin : forall x, in_hand None st x -> processed st x).
  { intros x [H | H]; [exact H |]. rewrite pending_None, Hnil in H. simpl in H.
    inversion H. }
  induction 1 as [| q target Hq IH Hnq Hi | q target Hq IH Hnq Hi | q target Hq IH Hnq Hi].
  - apply Hin, Hp.
  - pose proof (Hclosed q IH Hnq) as H. unfold closure_step in H. rewrite Hi in H.
    apply Hin, H.
  - pose proof (Hclosed q IH Hnq) as H. unfold closure_step in H. rewrite Hi in H.
    apply Hin, H.
  - pose proof (Hclosed q IH Hnq) as H. unfold closure_step in H. rewrite Hi in H.
    apply Hin, H.
Qed.

End Fork.

Section ForkFirst.

Variable bytecode_ : list RegExpInstruction.
Variable input_ : list Z.
Variable gas : nat.

Lemma RunActiveThreads_loop_pop (n : nat) st rest u st' :
  active_threads_ st = rest ++ [u] ->
  RunActiveThreads_loop bytecode_ gas n st = Some st' ->
  exists s4,
    RunActiveThread bytecode_ gas u (set_active_threads rest st) = Some s4 /\
    RunActiveThreads_loop bytecode_ gas n s4 = Some st'.
Proof.
  intros Hact. destruct n as [| n]; [discriminate |].
  cbn [RunActiveThreads_loop]. rewrite Hact, pop_back_app.
  destruct (RunActiveThread bytecode_ gas u (set_active_threads rest st)) as [s4 |];
    [| discriminate].
  intros Hrun. exists s4. split; [reflexivity |].
  exact (RunActiveThreads_loop_mono bytecode_ gas gas n (Nat.le_refl _) (S n) s4 st'
           (Nat.le_succ_diag_r n) Hrun).
Qed.

Lemma RunActiveThreads_loop_nil (n : nat) st st' :
  active_threads_ st = [] ->
  RunActiveThreads_loop bytecode_ gas n st = Some st' ->
  st' = st.
Proof.
  intros Hact. destruct n as [| n]; [discriminate |].
  cbn [RunActiveThreads_loop]. rewrite Hact. simpl. congruence.
Qed.


End ForkFirst.


